(** * Address normalisation utilities: a shallow embedding and its properties

    The development follows the Python sources
      - [text_utils.py]      ([remove_accents], [preprocess_text]),
      - [address_utils.py]   ([correct_spelling]),
      - [dataframe_utils.py] ([get_unique_names], [extract_and_store_patterns],
                              [pair_values_to_key], [fill_na_df]).

    A Python [str] is a sequence of Unicode code points, modelled as a list of
    [N].  The tables of the Unicode Character Database that the interpreter
    consults ([str.lower], [str.upper], NFKD, the class [\w]) are not part of
    the repository: they are the fields of the class [Unicode], the facts
    about them that a proof needs are the fields of [UnicodeLaws], and
    [ucd_fragment] is the concrete table for Basic Latin, Latin-1 Supplement
    and a few letterlike symbols on which closed examples are evaluated.

    A pandas frame is a list of named columns of cells.  pandas keeps a
    dtype for every column, which the cells do not record: the conversions
    that [DataFrame.apply] makes between dtypes are the operations of the
    class [Dtypes], with the facts that hold of them whatever the dtypes,
    and [inferred_dtypes] is the instance for frames of strings and missing
    values on which closed examples are evaluated. *)

From Stdlib Require Import String Ascii.
From Stdlib Require Import List NArith Bool Lia Arith PeanoNat.
From Stdlib Require Import Sorting.Sorted Sorting.Permutation.
Import ListNotations.
Local Open Scope list_scope.

Set Implicit Arguments.

(** * Part I.  The model of the sources *)

(* ================================================================== *)
(** ** Python strings *)
(* ================================================================== *)

Definition codepoint := N.
Definition str := list codepoint.

(** Decoder for literals: the bytes of a UTF-8 literal to code points. *)
Fixpoint utf8_decode (bs : list N) : str :=
  match bs with
  | [] => []
  | b0 :: r0 =>
    if (b0 <? 128)%N then b0 :: utf8_decode r0
    else match r0 with
    | [] => []
    | b1 :: r1 =>
      if (b0 <? 224)%N then ((b0 - 192) * 64 + (b1 - 128))%N :: utf8_decode r1
      else match r1 with
      | [] => []
      | b2 :: r2 =>
        if (b0 <? 240)%N
        then ((b0 - 224) * 4096 + (b1 - 128) * 64 + (b2 - 128))%N :: utf8_decode r2
        else match r2 with
        | [] => []
        | b3 :: r3 =>
          ((b0 - 240) * 262144 + (b1 - 128) * 4096 + (b2 - 128) * 64 + (b3 - 128))%N
            :: utf8_decode r3
        end
      end
    end
  end.

Definition u (s : string) : str :=
  utf8_decode (map N_of_ascii (list_ascii_of_string s)).

Fixpoint eqb_str (a b : str) : bool :=
  match a, b with
  | [], [] => true
  | x :: a', y :: b' => (x =? y)%N && eqb_str a' b'
  | _, _ => false
  end.

(** [str.startswith] *)
Fixpoint startswith (p s : str) : bool :=
  match p, s with
  | [], _ => true
  | a :: p', b :: s' => (a =? b)%N && startswith p' s'
  | _ :: _, [] => false
  end.

(** [str.replace(old, new)] for a non-empty [old]: occurrences are found from
    the left and do not overlap; [skip] counts the characters of the current
    occurrence that are still to be dropped. *)
Fixpoint replace_from (old new : str) (skip : nat) (s : str) : str :=
  match s with
  | [] => []
  | c :: t =>
    match skip with
    | S k => replace_from old new k t
    | O => if startswith old s
           then new ++ replace_from old new (length old - 1) t
           else c :: replace_from old new 0 t
    end
  end.

(** [str.replace]; with an empty [old], Python inserts [new] before every
    character and at the end. *)
Definition replace (old new s : str) : str :=
  match old with
  | [] => new ++ flat_map (fun c => c :: new) s
  | _ :: _ => replace_from old new 0 s
  end.

(** [sep.join(l)] *)
Fixpoint join (sep : str) (l : list str) : str :=
  match l with
  | [] => []
  | x :: t => match t with
              | [] => x
              | _ :: _ => x ++ sep ++ join sep t
              end
  end.

(** The slice [l[i : i + k]] for non-negative [i], [k]. *)
Definition slice {A} (l : list A) (i k : nat) : list A := firstn k (skipn i l).

(** [sorted(l, key=..., reverse=True)]: a stable sort on descending keys;
    elements with equal keys keep their order in [l]. *)
Fixpoint insert_desc {A} (key : A -> nat) (x : A) (l : list A) : list A :=
  match l with
  | [] => [x]
  | y :: t => if key x <? key y then y :: insert_desc key x t else x :: l
  end.

Definition sorted_desc {A} (key : A -> nat) (l : list A) : list A :=
  fold_right (insert_desc key) [] l.

(** [f"{i}"] for a non-negative integer. *)
Fixpoint digits_of_uint (d : Decimal.uint) : str :=
  match d with
  | Decimal.Nil => []
  | Decimal.D0 r => 48%N :: digits_of_uint r
  | Decimal.D1 r => 49%N :: digits_of_uint r
  | Decimal.D2 r => 50%N :: digits_of_uint r
  | Decimal.D3 r => 51%N :: digits_of_uint r
  | Decimal.D4 r => 52%N :: digits_of_uint r
  | Decimal.D5 r => 53%N :: digits_of_uint r
  | Decimal.D6 r => 54%N :: digits_of_uint r
  | Decimal.D7 r => 55%N :: digits_of_uint r
  | Decimal.D8 r => 56%N :: digits_of_uint r
  | Decimal.D9 r => 57%N :: digits_of_uint r
  end.

Definition format_nat (i : nat) : str := digits_of_uint (Nat.to_uint i).

(** [enumerate(l)] *)
Definition enumerate {A} (l : list A) : list (nat * A) :=
  combine (seq 0 (length l)) l.

(* ================================================================== *)
(** ** The Unicode tables the interpreter provides *)
(* ================================================================== *)

Class Unicode := {
  py_lower : str -> str;        (* str.lower() *)
  py_upper : str -> str;        (* str.upper() *)
  nfkd : str -> str;            (* unicodedata.normalize("NFKD", _) *)
  is_word : codepoint -> bool;  (* the class \w of a str pattern *)
  is_space : codepoint -> bool; (* str.isspace(), the class \s *)
  ci_eq : codepoint -> codepoint -> bool;
                                (* equality of two characters under re.IGNORECASE *)
}.

Definition is_ascii (c : codepoint) : bool := (c <? 128)%N.
Definition is_ascii_upper (c : codepoint) : bool := (65 <=? c)%N && (c <=? 90)%N.
Definition ascii_lower (c : codepoint) : codepoint :=
  if is_ascii_upper c then (c + 32)%N else c.

(** The default of [protected_chars]: n-tilde, u-diaeresis, degree sign,
    masculine ordinal indicator. *)
Definition default_protected : list str := [[241%N]; [252%N]; [176%N]; [186%N]].

Definition is_protected (c : codepoint) : bool :=
  existsb (fun p => eqb_str p [c]) default_protected.

(** Facts of the Unicode Character Database used below. *)
Record UnicodeLaws (U : Unicode) : Prop := {
  (* ASCII letters have their ASCII lower case; other ASCII characters and
     the four protected characters have no lower-case mapping *)
  lower_ascii_protected : forall s,
    forallb (fun c => is_ascii c || is_protected c) s = true ->
    py_lower s = map ascii_lower s;
  (* ASCII characters have no decomposition *)
  nfkd_ascii : forall s, forallb is_ascii s = true -> nfkd s = s;
  (* the space is not a word character *)
  space_not_word : is_word 32%N = false;
}.

(* ================================================================== *)
(** ** A concrete fragment of the Unicode Character Database

    Exact on U+0000..U+00FF and on U+2120, U+2121, U+2122 (SERVICE MARK,
    TELEPHONE SIGN, TRADE MARK SIGN); the closed examples below only use
    strings of these characters. *)
(* ================================================================== *)

Module UCD.
Local Open Scope N_scope.

Definition between (lo hi c : codepoint) : bool := (lo <=? c)%N && (c <=? hi)%N.

(** Simple lower-case mapping. *)
Definition lower_cp (c : codepoint) : codepoint :=
  if between 65 90 c || between 192 214 c || between 216 222 c
  then (c + 32)%N else c.

(** Full upper-case mapping. *)
Definition upper_cp (c : codepoint) : str :=
  if between 97 122 c || between 224 246 c || between 248 254 c then [(c - 32)%N]
  else if (c =? 181)%N then [924%N]
  else if (c =? 223)%N then [83%N; 83%N]
  else if (c =? 255)%N then [376%N]
  else [c].

(** Compatibility decompositions (fully expanded). *)
Definition decomposition_table : list (codepoint * str) :=
  [(160, [32]); (168, [32; 776]); (170, [97]); (175, [32; 772]); (178, [50]);
   (179, [51]); (180, [32; 769]); (181, [956]); (184, [32; 807]);
   (185, [49]); (186, [111]); (188, [49; 8260; 52]); (189, [49; 8260; 50]);
   (190, [51; 8260; 52]); (192, [65; 768]); (193, [65; 769]);
   (194, [65; 770]); (195, [65; 771]); (196, [65; 776]); (197, [65; 778]);
   (199, [67; 807]); (200, [69; 768]); (201, [69; 769]); (202, [69; 770]);
   (203, [69; 776]); (204, [73; 768]); (205, [73; 769]); (206, [73; 770]);
   (207, [73; 776]); (209, [78; 771]); (210, [79; 768]); (211, [79; 769]);
   (212, [79; 770]); (213, [79; 771]); (214, [79; 776]); (217, [85; 768]);
   (218, [85; 769]); (219, [85; 770]); (220, [85; 776]); (221, [89; 769]);
   (224, [97; 768]); (225, [97; 769]); (226, [97; 770]); (227, [97; 771]);
   (228, [97; 776]); (229, [97; 778]); (231, [99; 807]); (232, [101; 768]);
   (233, [101; 769]); (234, [101; 770]); (235, [101; 776]);
   (236, [105; 768]); (237, [105; 769]); (238, [105; 770]);
   (239, [105; 776]); (241, [110; 771]); (242, [111; 768]);
   (243, [111; 769]); (244, [111; 770]); (245, [111; 771]);
   (246, [111; 776]); (249, [117; 768]); (250, [117; 769]);
   (251, [117; 770]); (252, [117; 776]); (253, [121; 769]);
   (255, [121; 776]); (8480, [83; 77]); (8481, [84; 69; 76]);
   (8482, [84; 77])].

Fixpoint assoc (tbl : list (codepoint * str)) (c : codepoint) : option str :=
  match tbl with
  | [] => None
  | (k, d) :: r => if (k =? c)%N then Some d else assoc r c
  end.

Definition nfkd_cp (c : codepoint) : str :=
  if (c <? 128)%N then [c]
  else match assoc decomposition_table c with
       | Some d => d
       | None => [c]
       end.

(** [str.isalnum() or c == "_"] *)
Definition word_cp (c : codepoint) : bool :=
  between 48 57 c || between 65 90 c || (c =? 95)%N || between 97 122 c
  || (c =? 170)%N || between 178 179 c || (c =? 181)%N || between 185 186 c
  || between 188 190 c || between 192 214 c || between 216 246 c
  || between 248 255 c.

(** [str.isspace()] *)
Definition space_cp (c : codepoint) : bool :=
  between 9 13 c || between 28 32 c || (c =? 133)%N || (c =? 160)%N.

End UCD.

#[export] Instance ucd_fragment : Unicode := {
  py_lower := map UCD.lower_cp;
  py_upper := flat_map UCD.upper_cp;
  nfkd := flat_map UCD.nfkd_cp;
  is_word := UCD.word_cp;
  is_space := UCD.space_cp;
  ci_eq := fun a b => (UCD.lower_cp a =? UCD.lower_cp b)%N;
}.

(* ================================================================== *)
(** ** text_utils.py *)
(* ================================================================== *)

Section TextUtils.
Context {U : Unicode}.

(** [f"PLACEHOLDER_{i}"] *)
Definition placeholder (i : nat) : str := u "PLACEHOLDER_" ++ format_nat i.

(** The first loop of [remove_accents]: every protected character is
    replaced by its placeholder, and the pairs are recorded in order. *)
Definition protect_step (st : str * list (str * str)) (ic : nat * str)
  : str * list (str * str) :=
  let '(input_str, placeholders) := st in
  let '(i, char) := ic in
  (replace char (placeholder i) input_str, placeholders ++ [(placeholder i, char)]).

(** The second loop: placeholders are replaced back, in the same order. *)
Definition restore_step (only_ascii : str) (pc : str * str) : str :=
  replace (fst pc) (snd pc) only_ascii.

(** [.encode("ASCII", "ignore").decode("utf-8")] *)
Definition encode_ascii_ignore (s : str) : str := filter is_ascii s.

Definition remove_accents_with (protected_chars : list str) (input_str : str) : str :=
  let input_str := py_lower input_str in
  let '(input_str, placeholders) :=
    fold_left protect_step (enumerate protected_chars) (input_str, []) in
  let nfkd_form := nfkd input_str in
  let only_ascii := encode_ascii_ignore nfkd_form in
  fold_left restore_step placeholders only_ascii.

Definition remove_accents (input_str : str) : str :=
  remove_accents_with default_protected input_str.

(** [known_abbreviations], in the order of the dict literal. *)
Definition known_abbreviations : list (str * str) :=
  [(u "s.a.r.", u "sar"); (u "dr.", u "doctor"); (u "r.", u "republica")].

(** [re.sub(r"[-./]", " ", text)] *)
Definition sub_punctuation (text : str) : str :=
  map (fun c => if (c =? 45)%N || (c =? 46)%N || (c =? 47)%N then 32%N else c) text.

(** [re.sub(r"\s+", " ", text)]; [in_run] tells that the previous character
    was white space, already replaced. *)
Fixpoint sub_spaces (in_run : bool) (text : str) : str :=
  match text with
  | [] => []
  | c :: t =>
    if is_space c
    then (if in_run then sub_spaces true t else 32%N :: sub_spaces true t)
    else c :: sub_spaces false t
  end.

(** [text.split()]: the maximal runs of characters that are not white space;
    [cur] is the run being read. *)
Fixpoint split_ws (cur : str) (text : str) : list str :=
  match text with
  | [] => match cur with [] => [] | _ :: _ => [cur] end
  | c :: t =>
    if is_space c
    then match cur with [] => split_ws [] t | _ :: _ => cur :: split_ws [] t end
    else split_ws (cur ++ [c]) t
  end.

Fixpoint lstrip (text : str) : str :=
  match text with
  | [] => []
  | c :: t => if is_space c then lstrip t else text
  end.

(** [text.strip()] *)
Definition strip (text : str) : str := rev (lstrip (rev (lstrip text))).

(** [x in l] for a list of strings *)
Definition mem_str (x : str) (l : list str) : bool := existsb (eqb_str x) l.

(** [if ignore_prepositions:] holds for a list that is given and non-empty. *)
Definition preprocess_text (text : str) (ignore_prepositions : option (list str)) : str :=
  let text := remove_accents text in
  let text := fold_left (fun t ar => replace (fst ar) (snd ar) t) known_abbreviations text in
  let text := sub_punctuation text in
  let text := sub_spaces false text in
  let text :=
    match ignore_prepositions with
    | Some (p :: ps) =>
      join (u " ")
        (filter (fun word => negb (mem_str (py_lower word) (p :: ps))) (split_ws [] text))
    | _ => text
    end in
  strip text.

End TextUtils.

(* ================================================================== *)
(** ** address_utils.py *)
(* ================================================================== *)

Section AddressUtils.
Context {U : Unicode}.

(** The character class [[\w'-]]. *)
Definition in_class (c : codepoint) : bool :=
  is_word c || (c =? 39)%N || (c =? 45)%N.

Definition wordness (o : option codepoint) : bool :=
  match o with
  | Some c => is_word c
  | None => false
  end.

(** [\b] between the character before the position and the one at it; the
    outside of the string counts as a non-word character. *)
Definition word_boundary (prev next : option codepoint) : bool :=
  xorb (wordness prev) (wordness next).

Fixpoint take_while (p : codepoint -> bool) (s : str) : str :=
  match s with
  | [] => []
  | c :: t => if p c then c :: take_while p t else []
  end.

Definition last_char (prev : option codepoint) (s : str) : option codepoint :=
  match rev s with
  | [] => prev
  | c :: _ => Some c
  end.

(** [re.findall(r"\b[\w\'-]+|\.", s)], scanning from the left.  [prev] is the
    character before the current position and [s] the rest of the string.
    At each position the first alternative is tried first: a word boundary
    followed by the longest run of class characters; then a period; when
    both fail the scan moves on by one character.  Every iteration consumes
    at least one character, so [length s] is enough fuel. *)
Fixpoint findall_tokens (fuel : nat) (prev : option codepoint) (s : str) : list str :=
  match fuel with
  | O => []
  | S f =>
    match s with
    | [] => []
    | c :: t =>
      let run := take_while in_class s in
      if word_boundary prev (Some c) && negb (length run =? 0)
      then run :: findall_tokens f (last_char prev run) (skipn (length run) s)
      else if (c =? 46)%N then [c] :: findall_tokens f (Some c) t
      else findall_tokens f (Some c) t
    end
  end.

Definition tokenize (s : str) : list str := findall_tokens (length s) None s.

(** Lines 33-35: the normalisation of the street name. *)
Definition normalize_street (street_name : str) : str :=
  let street_name := py_lower street_name in
  let street_name := replace [96%N] [39%N] (replace [180%N] [39%N] street_name) in
  remove_accents street_name.

(** Line 52 *)
Definition misspelled_len (misspelled : str) : nat := length (tokenize misspelled).

(** Line 54 *)
Definition phrase_to_check (words : list str) (i n : nat) : str :=
  replace (u " .") (u ".") (join (u " ") (slice words i n)).

(** Line 55.  The slice [words[i : i + n]] is cut at the end of the list;
    a window cut short has fewer tokens than the key, so its phrase is not
    the key ([matches_at_comparison] below): the model tests the length of
    the window before it compares. *)
Definition matches_at (words : list str) (i : nat) (misspelled : str) : bool :=
  (i + misspelled_len misspelled <=? length words)
  && eqb_str (phrase_to_check words i (misspelled_len misspelled)) misspelled.

(** The [for] loop of lines 51-59: the first entry, in the order of the
    sorted list, that matches at [i]. *)
Fixpoint first_match (words : list str) (i : nat) (misspellings : list (str * str))
  : option (str * str) :=
  match misspellings with
  | [] => None
  | (misspelled, correct) :: rest =>
    if matches_at words i misspelled then Some (misspelled, correct)
    else first_match words i rest
  end.

(** The [while] loop of lines 49-63.  [None] is the model running out of
    fuel; the loop itself has no bound. *)
Fixpoint correct_loop (fuel : nat) (words : list str) (misspellings : list (str * str))
  (i : nat) (corrected_words : list str) : option (list str) :=
  match fuel with
  | O => None
  | S f =>
    if i <? length words then
      match first_match words i misspellings with
      | Some (misspelled, correct) =>
        correct_loop f words misspellings (i + misspelled_len misspelled)
          (corrected_words ++ [correct])
      | None =>
        correct_loop f words misspellings (i + 1) (corrected_words ++ [nth i words []])
      end
    else Some corrected_words
  end.

(** Lines 38-40 *)
Definition sort_misspellings (misspellings : list (str * str)) : list (str * str) :=
  sorted_desc (fun item => length (fst item)) misspellings.

Definition correct_spelling_fuel (fuel : nat) (street_name : str)
  (misspellings : list (str * str)) : option str :=
  let street_name := normalize_street street_name in
  let misspellings := sort_misspellings misspellings in
  let words := tokenize street_name in
  option_map (join (u " ")) (correct_loop fuel words misspellings 0 []).

End AddressUtils.

(* ================================================================== *)
(** ** Python dicts: insertion-ordered, with unique keys *)
(* ================================================================== *)

Section DictModel.
Variable V : Type.

(** [d[k]]; [None] stands for [KeyError]. *)
Fixpoint dict_get (d : list (str * V)) (k : str) : option V :=
  match d with
  | [] => None
  | (k', v) :: r => if eqb_str k' k then Some v else dict_get r k
  end.

(** [d[k] = v]: an existing key keeps its place and gets the new value; a
    new key goes to the end. *)
Fixpoint dict_set (d : list (str * V)) (k : str) (v : V) : list (str * V) :=
  match d with
  | [] => [(k, v)]
  | (k', v') :: r => if eqb_str k' k then (k', v) :: r else (k', v') :: dict_set r k v
  end.

(** The value of the last pair registered under [name]. *)
Fixpoint last_registration (regs : list (str * V)) (name : str) : option V :=
  match regs with
  | [] => None
  | (k, v) :: r =>
    match last_registration r name with
    | Some x => Some x
    | None => if eqb_str k name then Some v else None
    end
  end.

Definition register (d : list (str * V)) (kv : str * V) : list (str * V) :=
  dict_set d (fst kv) (snd kv).

End DictModel.

(* ================================================================== *)
(** ** dataframe_utils.py: values, frames, exceptions *)
(* ================================================================== *)

(** The cells the functions meet: strings, non-negative integers, and the
    two missing markers [NaN] and [None]. *)
Inductive value :=
| VStr (s : str)
| VNum (n : N)
| VNaN
| VNone.

Inductive exn := KeyError | ValueError | AttributeError.

(** The outcome of a call: an exception raised, or a value returned. *)
Inductive result (A : Type) :=
| Raise (e : exn)
| Return (a : A).
Arguments Raise {A} e.
Arguments Return {A} a.

(** A frame: named columns of equal length, rows indexed [0 .. n-1]. *)
Definition frame := list (str * list value).

(** [pd.isna] on a scalar *)
Definition isna (v : value) : bool :=
  match v with
  | VNaN | VNone => true
  | VStr _ | VNum _ => false
  end.

(** [isinstance(x, str)] *)
Definition is_str (v : value) : bool :=
  match v with
  | VStr _ => true
  | _ => false
  end.

(** [str(x)], the conversion of [astype(str)] *)
Definition astype_str (v : value) : str :=
  match v with
  | VStr s => s
  | VNum n => format_nat (N.to_nat n)
  | VNaN => u "nan"
  | VNone => u "None"
  end.

(** [Series.unique()]: the distinct values in the order of first appearance *)
Fixpoint unique (l : list str) : list str :=
  match l with
  | [] => []
  | x :: t => x :: filter (fun y => negb (eqb_str x y)) (unique t)
  end.

(** [a < b] on strings: code point by code point *)
Fixpoint str_ltb (a b : str) : bool :=
  match a, b with
  | _, [] => false
  | [], _ :: _ => true
  | x :: a', y :: b' =>
    if (x <? y)%N then true else if (y <? x)%N then false else str_ltb a' b'
  end.

(** [key(a) <= key(b)] for [key = lambda s: (-len(s), s)] *)
Definition name_key_leb (a b : str) : bool :=
  (length b <? length a) || ((length a =? length b) && negb (str_ltb b a)).

(** [sorted(l, key=...)] for a key compared by [leb]: stable. *)
Fixpoint insert_by {A} (leb : A -> A -> bool) (x : A) (l : list A) : list A :=
  match l with
  | [] => [x]
  | y :: t => if leb x y then x :: l else y :: insert_by leb x t
  end.

Definition sorted_by {A} (leb : A -> A -> bool) (l : list A) : list A :=
  fold_right (insert_by leb) [] l.

Section DataframeUtils.
Context {U : Unicode}.

(** Lines 31 and 35-39:
    [pd.Series(col.dropna().astype(str).unique()).str.lower().tolist()] *)
Definition column_names (col : list value) : list str :=
  map py_lower (unique (map astype_str (filter (fun v => negb (isna v)) col))).

(** Truth value of [target_var2]: [None] and the empty string are false. *)
Definition truthy (o : option str) : bool :=
  match o with
  | Some (_ :: _) => true
  | _ => false
  end.

(** [get_unique_names]; the first component counts the rows read. *)
Definition get_unique_names (df : frame) (target_var : str) (target_var2 : option str)
  : nat * result (list str) :=
  if negb (mem_str target_var (map fst df)) then (0, Raise KeyError)
  else if match target_var2 with
          | Some t2 => negb (mem_str t2 (map fst df))
          | None => false
          end
  then (0, Raise KeyError)
  else
    match dict_get df target_var with
    | None => (0, Raise KeyError)
    | Some col =>
      let names := column_names col in
      let rows := length col in
      let '(rows, names) :=
        if truthy target_var2 then
          match target_var2 with
          | Some t2 =>
            match dict_get df t2 with
            | Some col2 => (rows + length col2, Return (names ++ column_names col2))
            | None => (rows, Raise KeyError)
            end
          | None => (rows, Return names)
          end
        else (rows, Return names) in
      match names with
      | Raise e => (rows, Raise e)
      | Return names => (rows, Return (sorted_by name_key_leb (unique names)))
      end
    end.

(** Lines 136-141: the registrations of [pair_values_to_key], entry by
    entry. *)
Definition register_entry (output_dict : list (str * str)) (entry : str * list str)
  : list (str * str) :=
  let '(key, values) := entry in
  let output_dict := dict_set output_dict (py_lower key) key in
  fold_left (fun d value => dict_set d (py_lower value) key) values output_dict.

(** Lines 143-146: the dict rebuilt in the order of the sorted keys. *)
Definition sort_output (output_dict : list (str * str)) : list (str * str) :=
  fold_left
    (fun d k => match dict_get output_dict k with
                | Some v => dict_set d k v
                | None => d
                end)
    (sorted_desc (@length codepoint) (map fst output_dict)) [].

Definition pair_values_to_key (input_dict : list (str * list str)) (sort_keys : bool)
  : list (str * str) :=
  let output_dict := fold_left register_entry input_dict [] in
  if sort_keys then sort_output output_dict else output_dict.

End DataframeUtils.

Section Extractor.
Context {U : Unicode}.

(** Case-insensitive test that [p] stands at the head of [text]. *)
Fixpoint ci_startswith (p text : str) : bool :=
  match p, text with
  | [], _ => true
  | a :: p', b :: t' => ci_eq a b && ci_startswith p' t'
  | _ :: _, [] => false
  end.

(** Whether [\b p \b] (with [p] escaped, under [re.IGNORECASE]) matches at
    the head of [text], [prev] being the character before it. *)
Definition matches_here (p : str) (prev : option codepoint) (text : str) : bool :=
  word_boundary prev (hd_error text)
  && ci_startswith p text
  && word_boundary (last_char prev (firstn (length p) text))
       (hd_error (skipn (length p) text)).

(** [regex.search(text)] for the regex compiled at lines 87-89: the leftmost
    match, as its start and end offsets. *)
Fixpoint search_from (p : str) (prev : option codepoint) (text : str) (pos : nat)
  : option (nat * nat) :=
  if matches_here p prev text then Some (pos, pos + length p)
  else match text with
       | [] => None
       | c :: t => search_from p (Some c) t (S pos)
       end.

Definition regex_search (p : str) (text : str) : option (nat * nat) :=
  search_from p None text 0.

(** [pattern.split(" - ")[0]]: the text before the first [" - "]. *)
Fixpoint before_separator (s : str) : str :=
  match s with
  | [] => []
  | c :: t => if startswith (u " - ") s then [] else c :: before_separator t
  end.

Inductive patterns :=
| PatternList (l : list str)
| PatternDict (d : list (str * list str)).

(** Lines 78-81 *)
Definition pattern_to_full_name (ps : patterns) : list (str * str) :=
  match ps with
  | PatternDict d => pair_values_to_key d true
  | PatternList l => fold_left (fun d pattern => dict_set d (py_lower pattern) pattern) l []
  end.

(** Lines 83-90.  A compiled regex is determined by its pattern text (two
    compilations of one text are equal as dict keys), so the dict is keyed
    by the processed pattern. *)
Definition compile_patterns (ps : patterns) (composed : bool)
  (ignore_prepositions : option (list str)) : list (str * str) :=
  fold_left
    (fun compiled_patterns pf =>
       let '(pattern, full_name) := pf in
       let pattern_part := if composed then before_separator pattern else pattern in
       let processed_pattern := preprocess_text pattern_part ignore_prepositions in
       dict_set compiled_patterns processed_pattern full_name)
    (pattern_to_full_name ps) [].

(** One iteration of the loop of lines 100-105.  The state is
    [(earliest_match, earliest_match_name)] and the number of searches run. *)
Definition earliest_step (processed_text : str)
  (st : option (nat * nat) * option str * nat) (rf : str * str)
  : option (nat * nat) * option str * nat :=
  let '(earliest_match, earliest_match_name, searches) := st in
  let '(regex, full_name) := rf in
  match regex_search regex processed_text with
  | Some m =>
    match earliest_match with
    | None => (Some m, Some full_name, S searches)
    | Some e => if fst m <? fst e then (Some m, Some full_name, S searches)
                else (earliest_match, earliest_match_name, S searches)
    end
  | None => (earliest_match, earliest_match_name, S searches)
  end.

(** [find_earliest_pattern]: the value returned (or the exception raised)
    and the number of matcher searches that were run. *)
Definition find_earliest_pattern (compiled_patterns : list (str * str))
  (ignore_prepositions : option (list str)) (text : value) : result value * nat :=
  if isna text then (Return VNaN, 0)
  else match text with
       | VStr s =>
         let processed_text := preprocess_text s ignore_prepositions in
         let '(_, earliest_match_name, searches) :=
           fold_left (earliest_step processed_text) compiled_patterns (None, None, 0) in
         match earliest_match_name with
         | Some name => (Return (VStr name), searches)
         | None => (Return VNaN, searches)
         end
       | _ => (Raise AttributeError, 0)   (* no [lower] on a number *)
       end.

(** Line 113: [lambda x: x.upper() if isinstance(x, str) else x] *)
Definition upper_if_str (x : value) : value :=
  match x with
  | VStr s => VStr (py_upper s)
  | _ => x
  end.

(** [Series.apply(f)] for an [f] that may raise. *)
Fixpoint apply_rows (f : value -> result value * nat) (col : list value)
  : result (list value) * nat :=
  match col with
  | [] => (Return [], 0)
  | v :: t =>
    match f v with
    | (Raise e, n) => (Raise e, n)
    | (Return w, n) =>
      match apply_rows f t with
      | (Raise e, m) => (Raise e, n + m)
      | (Return r, m) => (Return (w :: r), n + m)
      end
    end
  end.

(** [extract_and_store_patterns]: the new frame, or the exception. *)
Definition extract_and_store_patterns (df : frame) (ps : patterns)
  (target_var base_var : str) (composed : bool)
  (ignore_prepositions : option (list str)) : result frame :=
  let compiled_patterns := compile_patterns ps composed ignore_prepositions in
  match dict_get df base_var with
  | None => Raise KeyError
  | Some col =>
    match apply_rows (find_earliest_pattern compiled_patterns ignore_prepositions) col with
    | (Raise e, _) => Raise e
    | (Return found, _) => Return (dict_set df target_var (map upper_if_str found))
    end
  end.

End Extractor.

(* ================================================================== *)
(** ** dataframe_utils.py: [fill_na_df] *)
(* ================================================================== *)

(** pandas keeps a dtype for every column and for every Series, which the
    cells of [value] do not record.  [DataFrame.apply(axis=1)] converts
    twice: the row it hands to the function is a Series in the common dtype
    of the columns of the frame, so a cell may reach the function converted
    (an integer next to a float64 column as a float); and the Series it
    builds from the values the function returned takes the dtype inferred
    from them ([None] next to numbers becomes [NaN], an integer next to a
    missing value a float).  Both conversions are operations of the model.
    What they never do is what the class records: a string stays the string
    it is, and a cell is missing afterwards exactly when it was before. *)
Class Dtypes := {
  (** [row[col]] for a cell [v] of the frame [df] *)
  row_cell : frame -> value -> value;
  (** the Series that [apply] builds from the values returned for the rows *)
  result_series : list value -> list value;
  row_cell_str : forall df s, row_cell df (VStr s) = VStr s;
  row_cell_isna : forall df v, isna (row_cell df v) = isna v;
  result_series_length : forall l, length (result_series l) = length l;
  result_series_str :
    forall l i s, nth_error l i = Some (VStr s) ->
                  nth_error (result_series l) i = Some (VStr s);
  result_series_isna :
    forall l i v, nth_error l i = Some v ->
                  exists w, nth_error (result_series l) i = Some w /\ isna w = isna v
}.

Section FillNa.
Context {D : Dtypes}.

(** Lines 189-194, the rows of one column of a frame that has rows: the
    cell of the row when it is not missing, else
    [df2.loc[row.name, filler_col]], which raises [KeyError] when [df2] has
    no such row.  The rows are labelled [0 .. n-1] in both frames.  The
    count is that of the rows visited. *)
Fixpoint fill_rows (df : frame) (target filler : list value) (i : nat)
  : result (list value) * nat :=
  match target with
  | [] => (Return [], 0)
  | v :: t =>
    let own := row_cell df v in
    let cell := if negb (isna own) then Some own else nth_error filler i in
    match cell with
    | None => (Raise KeyError, 1)
    | Some w =>
      match fill_rows df t filler (S i) with
      | (Raise e, n) => (Raise e, S n)
      | (Return r, n) => (Return (w :: r), S n)
      end
    end
  end.

(** The state of [fill_na_df]: the frame [df], which the loop assigns to in
    place, and the number of rows processed so far. *)
Record fill_state := { st_df : frame; st_rows : nat }.

(** The loop of lines 183-194 over [zip(target_columns, filler_columns)].
    On a frame without rows [apply] calls the function on no row and
    returns a copy of the whole frame; assigning a frame to the one column
    [df[target_col]] raises [ValueError] unless that frame has exactly one
    column, and then leaves the (empty) column as it is. *)
Fixpoint fill_loop (df2 : frame) (pairs : list (str * str)) (st : fill_state)
  : fill_state * result unit :=
  match pairs with
  | [] => (st, Return tt)
  | (target_col, filler_col) :: rest =>
    match dict_get (st_df st) target_col, dict_get df2 filler_col with
    | Some tcol, Some fcol =>
      match tcol with
      | [] =>
        if length (st_df st) =? 1 then fill_loop df2 rest st
        else (st, Raise ValueError)
      | _ :: _ =>
        match fill_rows (st_df st) tcol fcol 0 with
        | (Raise e, n) => ({| st_df := st_df st; st_rows := st_rows st + n |}, Raise e)
        | (Return filled, n) =>
          fill_loop df2 rest
            {| st_df := dict_set (st_df st) target_col (result_series filled);
               st_rows := st_rows st + n |}
        end
      end
    | _, _ => (st, Raise ValueError)
    end
  end.

(** [fill_na_df]: the final state of [df] and how the call ended. *)
Definition fill_na_df (df df2 : frame) (target_columns : list str)
  (filler_columns : option (list str)) : fill_state * result unit :=
  let filler_columns :=
    match filler_columns with
    | None => target_columns
    | Some f => f
    end in
  let st := {| st_df := df; st_rows := 0 |} in
  if negb (length target_columns =? length filler_columns)
  then (st, Raise ValueError)
  else fill_loop df2 (combine target_columns filler_columns) st.

End FillNa.

(** The dtypes of frames that hold strings and missing values, as pandas 2
    infers them: the columns have dtype [object] or, when all their cells
    are [NaN], [float64].  A row then holds the cells as they are.  A
    Series of results with a string in it has dtype [object] and keeps
    every value; so does one of [None] only; any other has dtype [float64],
    in which [None] is [NaN].  A number is kept as the integer it is: the
    instance leaves out the conversion of integers to float64, which
    happens where numbers stand next to missing values or floats. *)
Definition none_to_nan (v : value) : value :=
  match v with
  | VNone => VNaN
  | _ => v
  end.

Definition is_none (v : value) : bool :=
  match v with
  | VNone => true
  | _ => false
  end.

Definition infer_series (l : list value) : list value :=
  if existsb is_str l then l
  else if forallb is_none l then l
  else map none_to_nan l.

(* ================================================================== *)
(** ** Definitions used in the statements *)
(* ================================================================== *)

(** Descending order of the keys. *)
Definition key_ge {A} (key : A -> nat) (a b : A) : Prop := key b <= key a.

(** The sort key of line 39: the number of characters of the misspelled key. *)
Definition key_length (item : str * str) : nat := length (fst item).

(** A token that is not empty and holds no space. *)
Definition solid (w : str) : Prop := w <> [] /\ ~ In 32%N w.

(** [s.replace(" .", ".")] *)
Definition dot_join (s : str) : str := replace_from (u " .") (u ".") 0 s.

(** What the comparison phrase is: the tokens in a row, each one after the
    first preceded by a space unless it starts with a period. *)
Definition piece (w : str) : str :=
  match w with
  | 46%N :: _ => w
  | _ => 32%N :: w
  end.

Definition glue (ws : list str) : str :=
  match ws with
  | [] => []
  | w :: r => w ++ flat_map piece r
  end.

(** A token: a single period, or a run of class characters that starts with
    a word character. *)
Definition token_shape {U : Unicode} (w : str) : Prop :=
  w = [46%N]
  \/ exists c r, w = c :: r /\ is_word c = true
                 /\ Forall (fun x => in_class x = true) (c :: r).

(** [a] is a prefix of [b] and shorter. *)
Definition proper_prefix {A} (a b : list A) : Prop :=
  exists r, r <> [] /\ b = a ++ r.

(** A window of the token list: where it starts, how many tokens it spans,
    and the text that stands for it in the result. *)
Record span := { span_start : nat; span_width : nat; span_text : str }.

(** The windows lie one after the other from token [i] to token [j], and
    none of them is empty. *)
Fixpoint tiles (i j : nat) (spans : list span) : Prop :=
  match spans with
  | [] => i = j
  | s :: rest =>
    span_start s = i /\ 0 < span_width s /\ tiles (i + span_width s) j rest
  end.

(** The key [k] matches at [i], and no key of the dictionary that matches
    there has more tokens. *)
Definition most_tokens_at {U : Unicode} (words : list str)
  (misspellings : list (str * str)) (i : nat) (k : str) : Prop :=
  matches_at words i k = true
  /\ forall k' c', In (k', c') misspellings -> matches_at words i k' = true ->
                   misspelled_len k' <= misspelled_len k.

(** The window replaces a matching key of the most tokens by the correction
    of that key; or no key matches at its start, and it is that one token,
    copied. *)
Definition greedy_window {U : Unicode} (words : list str)
  (misspellings : list (str * str)) (s : span) : Prop :=
  (exists k, In (k, span_text s) misspellings
             /\ most_tokens_at words misspellings (span_start s) k
             /\ span_width s = misspelled_len k)
  \/ ((forall k c, In (k, c) misspellings -> matches_at words (span_start s) k = false)
      /\ span_width s = 1
      /\ nth_error words (span_start s) = Some (span_text s)).

(** [sub in s] for strings *)
Definition occurs (sub s : str) : Prop := exists a b, s = a ++ sub ++ b.

(** Whether a space directly followed by a period occurs in [s]. *)
Fixpoint has_space_dot (s : str) : bool :=
  match s with
  | [] => false
  | c :: t =>
    ((c =? 32)%N && match t with
                    | d :: _ => (d =? 46)%N
                    | [] => false
                    end)
    || has_space_dot t
  end.

(** The position of a character in the default [protected_chars]. *)
Definition protected_index (c : codepoint) : option nat :=
  if (c =? 241)%N then Some 0
  else if (c =? 252)%N then Some 1
  else if (c =? 176)%N then Some 2
  else if (c =? 186)%N then Some 3
  else None.

(** The text of one character after the first [k] protected characters have
    been replaced by their placeholders ... *)
Definition hidden (k : nat) (c : codepoint) : str :=
  match protected_index c with
  | Some i => if i <? k then placeholder i else [c]
  | None => [c]
  end.

(** ... and after the first [k] placeholders have been replaced back. *)
Definition shown (k : nat) (c : codepoint) : str :=
  match protected_index c with
  | Some i => if i <? k then [c] else placeholder i
  | None => [c]
  end.

(** The two loops of [remove_accents] for the default [protected_chars],
    unrolled. *)
Definition protect4 (s : str) : str :=
  replace [186%N] (placeholder 3)
    (replace [176%N] (placeholder 2)
      (replace [252%N] (placeholder 1)
        (replace [241%N] (placeholder 0) s))).

Definition restore4 (s : str) : str :=
  replace (placeholder 3) [186%N]
    (replace (placeholder 2) [176%N]
      (replace (placeholder 1) [252%N]
        (replace (placeholder 0) [241%N] s))).

(** No character of [s] is one of [A-Z]. *)
Definition no_ascii_upper (s : str) : bool :=
  forallb (fun c => negb (is_ascii_upper c)) s.

(** [A-Z] or [a-z] *)
Definition is_ascii_letter (c : codepoint) : bool :=
  is_ascii_upper c || ((97 <=? c)%N && (c <=? 122)%N).

(** The registrations in the order the two loops make them. *)
Definition registrations {U : Unicode} (input_dict : list (str * list str))
  : list (str * str) :=
  flat_map
    (fun entry => (py_lower (fst entry), fst entry)
                  :: map (fun value => (py_lower value, fst entry)) (snd entry))
    input_dict.

(** One step of the dict comprehension of lines 144-146. *)
Definition rebuild_step (output_dict : list (str * str)) (d : list (str * str)) (k : str)
  : list (str * str) :=
  match dict_get output_dict k with
  | Some v => dict_set d k v
  | None => d
  end.

(** Entry [j] of the compiled patterns is the first one whose earliest
    occurrence starts at the smallest offset. *)
Definition first_minimal {U : Unicode} (cp : list (str * str)) (text : str)
  (j : nat) (regex name : str) (m : nat * nat) : Prop :=
  nth_error cp j = Some (regex, name)
  /\ regex_search regex text = Some m
  /\ forall j' r' n' m',
       nth_error cp j' = Some (r', n') -> regex_search r' text = Some m' ->
       fst m <= fst m' /\ (j' < j -> fst m < fst m').

(** The value of an outcome that is not an exception. *)
Definition returned (r : result value) : value :=
  match r with
  | Return w => w
  | Raise _ => VNaN
  end.

(** A pair of [zip(target_columns, filler_columns)] that names a column its
    frame does not have. *)
Definition absent_pair (df df2 : frame) (p : str * str) : Prop :=
  dict_get df (fst p) = None \/ dict_get df2 (snd p) = None.

(** [key(a) < key(b)]: longer first, then the smaller string first. *)
Definition name_lt (a b : str) : Prop :=
  length b < length a \/ (length a = length b /\ str_ltb a b = true).

(** [x] is the lower-cased text of a cell of [col] that is not missing. *)
Definition names_from {U : Unicode} (col : list value) (x : str) : Prop :=
  exists v, In v col /\ isna v = false /\ py_lower (astype_str v) = x.

(* ================================================================== *)
(** ** Data of the worked examples *)
(* ================================================================== *)

Definition ortega_dict : list (str * str) :=
  [ (u "dr", u "doctor");
    (u "ortega", u "ortiga");
    (u "ortega y gasset", u "jose ortega y gasset") ].

Definition abc_dict : list (str * str) :=
  [ (u "a", u "x"); (u "a b", u "y"); (u "a b c", u "z") ].

Definition san_patterns : list (str * str) :=
  @compile_patterns ucd_fragment (PatternList [u "san"; u "san blas"; u "blas"]) false None.

Definition blas_frame : frame :=
  [(u "ADDRESS", [VStr (u "calle San Blas, 36"); VNaN; VStr (u "Valleguerra"); VNone])].

Definition ab_frame : frame := [(u "a", [VNaN; VStr (u "k")])].
Definition ab_filler : frame := [(u "a", [VStr (u "x"); VStr (u "y")])].

Definition nameless_frame : frame :=
  [(u "a", [VStr (u "x")]); (u "", [VStr (u "yy")])].

(* ================================================================== *)
(** ** Tactics *)
(* ================================================================== *)

Ltac nodup_strings :=
  vm_compute;
  repeat (constructor;
          [ let H := fresh in
            simpl; intros H;
            repeat (destruct H as [H|H]; [discriminate H|]); exact H | ]);
  constructor.

Ltac in_strings := vm_compute; tauto.

Ltac by_protected_cases c :=
  unfold hidden, shown, protected_index;
  destruct (N.eqb_spec c 241) as [->|];
  [ reflexivity |
    destruct (N.eqb_spec c 252) as [->|];
    [ reflexivity |
      destruct (N.eqb_spec c 176) as [->|];
      [ reflexivity |
        destruct (N.eqb_spec c 186) as [->|]; [ reflexivity | ] ] ] ].

(* ================================================================== *)
(** ** address_utils.py: [add_num_to_address] *)
(* ================================================================== *)

(** [s.split(sep)] for a separator of one character: the fields between
    the separators, at least one; [cur] is the field being read. *)
Fixpoint split_on (sep : codepoint) (cur : str) (s : str) : list str :=
  match s with
  | [] => [cur]
  | c :: t => if (c =? sep)%N then cur :: split_on sep [] t
              else split_on sep (cur ++ [c]) t
  end.

Section AddNum.
(** The class [\d] of a [str] pattern: the decimal digits of Unicode. *)
Variable is_digit : codepoint -> bool.

(** [re.search(r"\d", address)], as a truth value *)
Definition has_digit (address : str) : bool := existsb is_digit address.

(** Lines 6-11.  [split] returns at least one field, so [address_split[0]]
    exists. *)
Definition add_num_to_address (address : str) : str :=
  if negb (has_digit address) then
    let address_split := split_on 44%N [] address in
    let address_split :=
      match address_split with
      | first :: rest => (first ++ u " 1") :: rest
      | [] => []
      end in
    join (u ",") address_split
  else address.

End AddNum.

(** [\d] on the fragment: the ASCII digits. *)
Definition ucd_digit (c : codepoint) : bool := (48 <=? c)%N && (c <=? 57)%N.

(* ================================================================== *)
(** ** More definitions used in the statements *)
(* ================================================================== *)

(** The text of an address before its first comma, and the rest. *)
Definition before_comma (s : str) : str := take_while (fun c => negb (c =? 44)%N) s.
Definition from_comma (s : str) : str := skipn (length (before_comma s)) s.

(** A word: not empty and without white space. *)
Definition nospace {U : Unicode} (w : str) : Prop :=
  forall c, In c w -> is_space c = false.

Definition wordlike {U : Unicode} (w : str) : Prop := w <> [] /\ nospace w.

(** [text.rstrip()] *)
Definition rstrip {U : Unicode} (text : str) : str := rev (lstrip (rev text)).

(** The space that [re.sub(r"\s+", " ", _)] leaves at the end of a text that
    ends with white space. *)
Fixpoint ends_with_space {U : Unicode} (x : str) : bool :=
  match x with
  | [] => false
  | c :: t => match t with
              | [] => is_space c
              | _ :: _ => ends_with_space t
              end
  end.

Definition trail {U : Unicode} (x : str) : str :=
  if ends_with_space x then [32%N] else [].

(** One of the characters [-], [.], [/]. *)
Definition is_punctuation (c : codepoint) : bool :=
  (c =? 45)%N || (c =? 46)%N || (c =? 47)%N.

(** The test of line 19: the word is kept. *)
Definition kept {U : Unicode} (prepositions : list str) (word : str) : bool :=
  negb (mem_str (py_lower word) prepositions).

(** The text of [preprocess_text] after line 14: accents removed,
    abbreviations expanded, [-], [.], [/] turned into spaces. *)
Definition cleaned {U : Unicode} (text : str) : str :=
  sub_punctuation
    (fold_left (fun t ar => replace (fst ar) (snd ar) t) known_abbreviations
       (remove_accents text)).

(** The cell that [fill_na_df] leaves: the cell itself unless it is
    missing, then the cell of the filler column. *)
Definition filled_cell (v w : value) : value := if isna v then w else v.

(** The cell [b] is the cell [a] up to the dtype of a number and the marker
    of a missing value: the same string, or a value that is missing exactly
    when [a] is. *)
Definition same_cell (a b : value) : Prop :=
  match a with
  | VStr s => b = VStr s
  | VNum _ => isna b = false
  | VNaN | VNone => isna b = true
  end.

(** What [fill_na_df] keeps of [df] in the frame [now], whatever it does:
    the names of the columns in their order, the length of every column,
    the cells that are not missing (up to the dtype of a number), and the
    columns that are no targets. *)
Definition preserved (df : frame) (target_columns : list str) (now : frame) : Prop :=
  map fst now = map fst df
  /\ forall c col,
       dict_get df c = Some col ->
       exists col',
         dict_get now c = Some col'
         /\ length col' = length col
         /\ (forall i v, nth_error col i = Some v -> isna v = false ->
               exists w, nth_error col' i = Some w /\ same_cell v w)
         /\ (~ In c target_columns -> col' = col).

Definition names_frame : frame :=
  [ (u "col1", [VStr (u "Alice"); VStr (u "Bob"); VStr (u "alice"); VNaN]);
    (u "col2", [VStr (u "David"); VNum 7; VStr (u "Bob"); VStr (u "Los Molinos")]) ].

(** The matchers of [compile_patterns] before they are stored: the processed
    match key of every pattern with its label, in the order of the
    patterns. *)
Definition processed_patterns {U : Unicode} (ps : patterns) (composed : bool)
  (ignore_prepositions : option (list str)) : list (str * str) :=
  map (fun pf =>
         (preprocess_text (if composed then before_separator (fst pf) else fst pf)
            ignore_prepositions,
          snd pf))
    (pattern_to_full_name ps).

(** * Part II.  Properties *)

(* ================================================================== *)
(** ** Basic facts on strings and on the stable sort *)
(* ================================================================== *)

Lemma eqb_str_spec (a b : str) : eqb_str a b = true <-> a = b.
Proof.
  revert b; induction a as [|x a IH]; intros [|y b]; simpl;
    try (split; [discriminate | discriminate]); try tauto.
  rewrite andb_true_iff, N.eqb_eq, IH.
  split; [intros [-> ->]; reflexivity | intros H; inversion H; auto].
Qed.

Lemma eqb_str_refl (a : str) : eqb_str a a = true.
Proof. apply eqb_str_spec; reflexivity. Qed.

Lemma eqb_str_neq (a b : str) : eqb_str a b = false <-> a <> b.
Proof.
  destruct (eqb_str a b) eqn:E.
  - apply eqb_str_spec in E; split; [discriminate | intros H; contradiction].
  - split; [intros _ H | reflexivity].
    apply eqb_str_spec in H; congruence.
Qed.

Section SortFacts.
Variable A : Type.
Variable key : A -> nat.

Lemma insert_desc_perm (x : A) (l : list A) :
  Permutation (x :: l) (insert_desc key x l).
Proof.
  induction l as [|y t IH]; simpl; [constructor; constructor|].
  destruct (key x <? key y); [|apply Permutation_refl].
  eapply perm_trans; [apply perm_swap | constructor; exact IH].
Qed.

Lemma sorted_desc_perm (l : list A) : Permutation l (sorted_desc key l).
Proof.
  induction l as [|x t IH]; simpl; [constructor|].
  eapply perm_trans; [constructor; exact IH | apply insert_desc_perm].
Qed.

Lemma sorted_desc_In (l : list A) (x : A) : In x (sorted_desc key l) <-> In x l.
Proof.
  split; apply Permutation_in;
    [apply Permutation_sym|]; apply sorted_desc_perm.
Qed.

Lemma insert_desc_sorted (x : A) (l : list A) :
  StronglySorted (key_ge key) l -> StronglySorted (key_ge key) (insert_desc key x l).
Proof.
  induction 1 as [|y t Hs IH Hy]; simpl.
  - constructor; constructor.
  - destruct (key x <? key y) eqn:E.
    + apply Nat.ltb_lt in E. constructor; [exact IH|].
      rewrite Forall_forall in *. intros z Hz.
      apply (Permutation_in _ (Permutation_sym (insert_desc_perm x t))) in Hz.
      destruct Hz as [<- | Hz]; [unfold key_ge; lia | auto].
    + apply Nat.ltb_ge in E. constructor; [constructor; assumption|].
      constructor; [exact E|].
      rewrite Forall_forall in *. intros z Hz. specialize (Hy z Hz).
      unfold key_ge in *; lia.
Qed.

Lemma sorted_desc_sorted (l : list A) : StronglySorted (key_ge key) (sorted_desc key l).
Proof.
  induction l as [|x t IH]; simpl; [constructor | apply insert_desc_sorted, IH].
Qed.

(** Stability: the elements of any one key keep their order. *)
Lemma insert_desc_filter (n : nat) (x : A) (l : list A) :
  StronglySorted (key_ge key) l ->
  filter (fun a => key a =? n) (insert_desc key x l)
  = filter (fun a => key a =? n) (x :: l).
Proof.
  induction 1 as [|y t Hs IH Hy]; [reflexivity|].
  cbn [insert_desc]. destruct (key x <? key y) eqn:E; [|reflexivity].
  apply Nat.ltb_lt in E. cbn [filter] in *. rewrite IH.
  destruct (key x =? n) eqn:Ex, (key y =? n) eqn:Ey; try reflexivity.
  apply Nat.eqb_eq in Ex, Ey. lia.
Qed.

Lemma sorted_desc_stable (n : nat) (l : list A) :
  filter (fun a => key a =? n) (sorted_desc key l) = filter (fun a => key a =? n) l.
Proof.
  induction l as [|x t IH]; [reflexivity|].
  cbn [sorted_desc fold_right]. fold (sorted_desc key t).
  rewrite insert_desc_filter by apply sorted_desc_sorted.
  cbn [filter]. rewrite IH. reflexivity.
Qed.

End SortFacts.

(* ================================================================== *)
(** ** The comparison phrase of the corrector *)
(* ================================================================== *)

Lemma dot_join_app (x y : str) :
  ~ In 32%N x -> dot_join (x ++ y) = x ++ dot_join y.
Proof.
  unfold dot_join. induction x as [|c x IH]; intros Hx; [reflexivity|].
  simpl in Hx. cbn [app replace_from].
  replace (startswith (u " .") (c :: x ++ y)) with false.
  - rewrite IH by tauto. reflexivity.
  - change (u " .") with [32%N; 46%N]. cbn [startswith].
    destruct (N.eqb_spec 32 c); [exfalso; apply Hx; left; congruence | reflexivity].
Qed.

Lemma dot_join_space_dot (y : str) :
  dot_join (32%N :: 46%N :: y) = 46%N :: dot_join y.
Proof. reflexivity. Qed.

Lemma dot_join_space_other (c : codepoint) (y : str) :
  c <> 46%N -> dot_join (32%N :: c :: y) = 32%N :: dot_join (c :: y).
Proof.
  intros Hc. unfold dot_join. cbn [replace_from].
  replace (startswith (u " .") (32%N :: c :: y)) with false; [reflexivity|].
  change (u " .") with [32%N; 46%N]. cbn [startswith].
  destruct (N.eqb_spec 46 c); [congruence | reflexivity].
Qed.

Lemma dot_join_tail (r : list str) :
  Forall solid r ->
  dot_join (match r with [] => [] | _ :: _ => 32%N :: join (u " ") r end)
  = flat_map piece r.
Proof.
  induction 1 as [|w r [Hne Hsp] Hr IH]; [reflexivity|].
  destruct w as [|c w]; [congruence|].
  assert (Hw : ~ In 32%N w) by (simpl in Hsp; tauto).
  assert (Hrest : dot_join (w ++ match r with [] => [] | _ :: _ => 32%N :: join (u " ") r end)
                  = w ++ flat_map piece r).
  { rewrite dot_join_app by exact Hw. f_equal. exact IH. }
  assert (Hj : join (u " ") ((c :: w) :: r)
               = c :: w ++ match r with [] => [] | _ :: _ => 32%N :: join (u " ") r end).
  { destruct r; cbn [join]; [rewrite app_nil_r|]; reflexivity. }
  change (dot_join (32%N :: join (u " ") ((c :: w) :: r))
          = flat_map piece ((c :: w) :: r)).
  rewrite Hj. cbn [flat_map].
  destruct (N.eq_dec c 46) as [-> | Hc].
  - rewrite dot_join_space_dot, Hrest. reflexivity.
  - rewrite dot_join_space_other by exact Hc.
    change (c :: w ++ ?t) with ([c] ++ (w ++ t)).
    rewrite dot_join_app by (simpl in *; intros [H|[]]; apply Hsp; auto).
    rewrite Hrest.
    replace (piece (c :: w)) with (32%N :: c :: w); [reflexivity|].
    unfold piece. destruct c as [|p]; [reflexivity|].
    do 6 (destruct p as [p|p|]; try reflexivity). congruence.
Qed.

Lemma dot_join_glue (ws : list str) :
  Forall solid ws -> dot_join (join (u " ") ws) = glue ws.
Proof.
  intros H. destruct ws as [|w r]; [reflexivity|].
  inversion H as [|? ? [Hne Hsp] Hr]; subst.
  replace (join (u " ") (w :: r))
    with (w ++ match r with [] => [] | _ :: _ => 32%N :: join (u " ") r end)
    by (destruct r; cbn [join]; [rewrite app_nil_r|]; reflexivity).
  rewrite dot_join_app by exact Hsp.
  rewrite dot_join_tail by exact Hr. reflexivity.
Qed.

Lemma piece_length (w : str) : w <> [] -> 0 < length (piece w).
Proof.
  destruct w as [|c w]; [congruence|]. intros _.
  unfold piece. destruct c as [|p]; simpl; try lia.
  do 6 (destruct p as [p|p|]; simpl; try lia).
Qed.

Lemma glue_snoc_length (ws : list str) (w : str) :
  w <> [] -> length (glue ws) < length (glue (ws ++ [w])).
Proof.
  intros Hw. destruct ws as [|x r]; simpl.
  - rewrite app_nil_r. destruct w; [congruence | simpl; lia].
  - rewrite flat_map_app, !length_app. simpl. rewrite app_nil_r.
    pose proof (piece_length Hw). lia.
Qed.

Lemma firstn_snoc {A} (l : list A) (k : nat) (d : A) :
  k < length l -> firstn (S k) l = firstn k l ++ [nth k l d].
Proof.
  revert k; induction l as [|x l IH]; intros k Hk; simpl in Hk; [lia|].
  destruct k; [reflexivity|]. cbn [firstn nth app]. rewrite <- IH by lia. reflexivity.
Qed.

Lemma In_firstn {A} (n : nat) (l : list A) (x : A) : In x (firstn n l) -> In x l.
Proof.
  intros H. rewrite <- (firstn_skipn n l). apply in_or_app. auto.
Qed.

Lemma In_skipn {A} (n : nat) (l : list A) (x : A) : In x (skipn n l) -> In x l.
Proof.
  intros H. rewrite <- (firstn_skipn n l). apply in_or_app. auto.
Qed.

Lemma glue_firstn_lt (l : list str) (k1 k2 : nat) :
  Forall solid l -> k1 < k2 -> k2 <= length l ->
  length (glue (firstn k1 l)) < length (glue (firstn k2 l)).
Proof.
  intros Hl Hlt. induction Hlt as [|k2 Hle IH]; intros Hk.
  - rewrite (firstn_snoc l []) by lia.
    apply glue_snoc_length.
    assert (Hin : In (nth k1 l []) l) by (apply nth_In; lia).
    rewrite Forall_forall in Hl. apply (Hl _ Hin).
  - eapply Nat.lt_trans; [apply IH; lia|].
    rewrite (firstn_snoc l []) by lia.
    apply glue_snoc_length.
    assert (Hin : In (nth k2 l []) l) by (apply nth_In; lia).
    rewrite Forall_forall in Hl. apply (Hl _ Hin).
Qed.

(* ================================================================== *)
(** ** The corrector: tokens, matching keys, the key that is chosen *)
(* ================================================================== *)

(** [length s] is enough fuel for [findall_tokens]: more fuel gives the
    same tokens. *)
Lemma findall_tokens_fuel {U : Unicode} (f1 f2 : nat) (prev : option codepoint) (s : str) :
  length s <= f1 -> length s <= f2 ->
  findall_tokens f1 prev s = findall_tokens f2 prev s.
Proof.
  revert f2 prev s; induction f1 as [|f1 IH]; intros f2 prev s H1 H2.
  - destruct s; [|simpl in H1; lia]. destruct f2; reflexivity.
  - destruct s as [|c t]; [destruct f2; reflexivity|].
    destruct f2 as [|f2]; [simpl in H2; lia|].
    simpl in H1, H2. cbn [findall_tokens].
    set (run := take_while in_class (c :: t)).
    destruct (word_boundary prev (Some c) && negb (length run =? 0)) eqn:E.
    + apply andb_true_iff in E as [_ E]. apply negb_true_iff, Nat.eqb_neq in E.
      f_equal. apply IH; rewrite length_skipn; cbn [length]; lia.
    + destruct (c =? 46)%N; [f_equal|]; apply IH; lia.
Qed.

Section Corrector.
Context {U : Unicode}.
Hypothesis laws : UnicodeLaws U.

Lemma in_class_space : in_class 32%N = false.
Proof. unfold in_class. rewrite (space_not_word laws). reflexivity. Qed.

Lemma take_while_all (p : codepoint -> bool) (s : str) :
  Forall (fun c => p c = true) (take_while p s).
Proof.
  induction s as [|c s IH]; simpl; [constructor|].
  destruct (p c) eqn:E; constructor; assumption.
Qed.

Lemma findall_tokens_solid (fuel : nat) (prev : option codepoint) (s : str) :
  Forall solid (findall_tokens fuel prev s).
Proof.
  revert prev s; induction fuel as [|f IH]; intros prev s; simpl; [constructor|].
  destruct s as [|c t]; [constructor|].
  set (run := take_while in_class (c :: t)).
  destruct (word_boundary prev (Some c) && negb (length run =? 0)) eqn:E.
  - constructor; [|apply IH].
    apply andb_true_iff in E as [_ E]. apply negb_true_iff, Nat.eqb_neq in E.
    split; [destruct run; simpl in E; congruence|].
    intros Hin. pose proof (take_while_all in_class (c :: t)) as Hall.
    rewrite Forall_forall in Hall. specialize (Hall _ Hin).
    rewrite in_class_space in Hall. discriminate.
  - destruct (N.eqb_spec c 46) as [-> | Hc]; [|apply IH].
    constructor; [|apply IH].
    split; [discriminate | simpl; intros [H|[]]; discriminate].
Qed.

Lemma tokenize_solid (s : str) : Forall solid (tokenize s).
Proof. apply findall_tokens_solid. Qed.

Variable words : list str.
Hypothesis words_solid : Forall solid words.

Lemma phrase_glue (i n : nat) : phrase_to_check words i n = glue (slice words i n).
Proof.
  change (phrase_to_check words i n) with (dot_join (join (u " ") (slice words i n))).
  apply dot_join_glue. unfold slice.
  apply Forall_forall. intros w Hw.
  apply In_firstn, In_skipn in Hw.
  rewrite Forall_forall in words_solid. auto.
Qed.

Lemma phrase_length_lt (i n1 n2 : nat) :
  n1 < n2 -> i + n2 <= length words ->
  length (phrase_to_check words i n1) < length (phrase_to_check words i n2).
Proof.
  intros Hlt Hle. rewrite !phrase_glue. unfold slice.
  apply glue_firstn_lt; [|exact Hlt|rewrite length_skipn; lia].
  apply Forall_forall. intros w Hw. apply In_skipn in Hw.
  rewrite Forall_forall in words_solid. auto.
Qed.

Lemma matches_at_spec (i : nat) (k : str) :
  matches_at words i k = true <->
  i + misspelled_len k <= length words
  /\ phrase_to_check words i (misspelled_len k) = k.
Proof.
  unfold matches_at. rewrite andb_true_iff, Nat.leb_le, eqb_str_spec. tauto.
Qed.

(** Of two keys that match at the same position, the one of more tokens
    has more characters. *)
Lemma matching_keys_length (i : nat) (k1 k2 : str) :
  matches_at words i k1 = true -> matches_at words i k2 = true ->
  misspelled_len k1 < misspelled_len k2 -> length k1 < length k2.
Proof.
  intros [H1 E1]%matches_at_spec [H2 E2]%matches_at_spec Hlt.
  rewrite <- E1 at 1. rewrite <- E2 at 1.
  apply phrase_length_lt; assumption.
Qed.

Lemma matching_keys_same_count (i : nat) (k1 k2 : str) :
  matches_at words i k1 = true -> matches_at words i k2 = true ->
  misspelled_len k1 = misspelled_len k2 -> k1 = k2.
Proof.
  intros [H1 E1]%matches_at_spec [H2 E2]%matches_at_spec Heq.
  rewrite <- E1, <- E2, Heq. reflexivity.
Qed.

(** A key of no token matches only when it is the empty string. *)
Lemma matching_key_no_token (i : nat) (k : str) :
  matches_at words i k = true -> misspelled_len k = 0 -> k = [].
Proof.
  intros [_ E]%matches_at_spec H0. rewrite H0 in E. rewrite <- E.
  unfold phrase_to_check, slice. reflexivity.
Qed.

Lemma first_match_In (i : nat) (ms : list (str * str)) (e : str * str) :
  first_match words i ms = Some e -> In e ms /\ matches_at words i (fst e) = true.
Proof.
  induction ms as [|[k c] ms IH]; simpl; [discriminate|].
  destruct (matches_at words i k) eqn:E.
  - intros [= <-]. auto.
  - intros H. destruct (IH H). auto.
Qed.

(** In a list sorted on descending key length, the entry found is at least
    as long as every matching entry. *)
Lemma first_match_sorted (i : nat) (ms : list (str * str)) (e : str * str) :
  StronglySorted (key_ge key_length) ms ->
  In e ms -> matches_at words i (fst e) = true ->
  exists e', first_match words i ms = Some e' /\ key_length e <= key_length e'.
Proof.
  induction 1 as [|[k c] ms Hs IH Hh]; intros Hin Hm; [destruct Hin|].
  simpl. destruct (matches_at words i k) eqn:E.
  - exists (k, c). split; [reflexivity|].
    destruct Hin as [<- | Hin]; [lia|].
    rewrite Forall_forall in Hh. apply (Hh _ Hin).
  - destruct Hin as [<- | Hin]; [simpl in Hm; congruence|].
    apply IH; assumption.
Qed.

End Corrector.

Lemma proper_prefix_length {A} (a b : list A) :
  proper_prefix a b -> length a < length b.
Proof.
  intros [r [Hr ->]]. rewrite length_app.
  destruct r; [congruence | simpl; lia].
Qed.

Lemma NoDup_keys_value {K V} (d : list (K * V)) (k : K) (v1 v2 : V) :
  NoDup (map fst d) -> In (k, v1) d -> In (k, v2) d -> v1 = v2.
Proof.
  induction d as [|[k0 v0] d IH]; simpl; [tauto|].
  intros Hnd [H1|H1] [H2|H2]; inversion Hnd as [|? ? Hnot Hnd']; subst.
  - congruence.
  - inversion H1; subst. exfalso. apply Hnot.
    change k with (fst (k, v2)). apply in_map, H2.
  - inversion H2; subst. exfalso. apply Hnot.
    change k with (fst (k, v1)). apply in_map, H1.
  - auto.
Qed.

Lemma ucd_fragment_laws : UnicodeLaws ucd_fragment.
Proof.
  constructor.
  - intros s. simpl. induction s as [|c s IH]; [reflexivity|].
    cbn [forallb map]. intros [Hc Hs]%andb_true_iff.
    rewrite IH by exact Hs. f_equal.
    unfold UCD.lower_cp, ascii_lower, is_ascii_upper, UCD.between.
    apply orb_true_iff in Hc as [Hc | Hc].
    + unfold is_ascii in Hc. apply N.ltb_lt in Hc.
      replace ((192 <=? c)%N) with false by (symmetry; apply N.leb_gt; lia).
      replace ((216 <=? c)%N) with false by (symmetry; apply N.leb_gt; lia).
      simpl. rewrite !orb_false_r. reflexivity.
    + unfold is_protected, default_protected in Hc. cbn [existsb eqb_str] in Hc.
      rewrite !andb_true_r, orb_false_r in Hc.
      repeat (apply orb_true_iff in Hc as [Hc | Hc]);
        apply N.eqb_eq in Hc; subst c; reflexivity.
  - intros s. simpl. induction s as [|c s IH]; [reflexivity|].
    cbn [forallb flat_map]. intros [Hc Hs]%andb_true_iff.
    rewrite IH by exact Hs. unfold UCD.nfkd_cp. unfold is_ascii in Hc.
    rewrite Hc. reflexivity.
  - reflexivity.
Qed.

(* ================================================================== *)
(** ** The corrector: the window test and the comparison of line 55 *)
(* ================================================================== *)

Lemma take_while_stops (p : codepoint -> bool) (s : str) :
  match skipn (length (take_while p s)) s with
  | x :: _ => p x = false
  | [] => True
  end.
Proof.
  induction s as [|c s IH]; simpl; [exact I|].
  destruct (p c) eqn:E; simpl; [exact IH | exact E].
Qed.

Lemma take_while_app_stop (p : codepoint -> bool) (w rest : str) :
  Forall (fun x => p x = true) w ->
  match rest with x :: _ => p x = false | [] => True end ->
  take_while p (w ++ rest) = w.
Proof.
  induction 1 as [|c w Hc Hw IH]; intros Hrest; simpl.
  - destruct rest as [|x rest]; [reflexivity|]. simpl. rewrite Hrest. reflexivity.
  - rewrite Hc, IH by exact Hrest. reflexivity.
Qed.

Section Tokens.
Context {U : Unicode}.
Hypothesis laws : UnicodeLaws U.
Hypothesis period_not_word : is_word 46%N = false.

Lemma in_class_period : in_class 46%N = false.
Proof. unfold in_class. rewrite period_not_word. reflexivity. Qed.

Lemma in_class_word (c : codepoint) : is_word c = true -> in_class c = true.
Proof. unfold in_class. intros ->. reflexivity. Qed.

Lemma findall_tokens_shape (fuel : nat) :
  forall (prev : option codepoint) (s : str),
    (wordness prev = true ->
     match s with c :: _ => in_class c = false | [] => True end) ->
    Forall token_shape (findall_tokens fuel prev s).
Proof.
  induction fuel as [|f IH]; intros prev s Hinv; cbn [findall_tokens]; [constructor|].
  destruct s as [|c t]; [constructor|].
  set (run := take_while in_class (c :: t)).
  destruct (word_boundary prev (Some c) && negb (length run =? 0)) eqn:E.
  - apply andb_true_iff in E as [Eb En].
    apply negb_true_iff, Nat.eqb_neq in En.
    assert (Hc : in_class c = true).
    { subst run. cbn [take_while] in En. destruct (in_class c); [reflexivity|].
      simpl in En. congruence. }
    assert (Hp : wordness prev = false).
    { destruct (wordness prev) eqn:Ep; [|reflexivity].
      rewrite (Hinv eq_refl) in Hc. discriminate. }
    assert (Hw : is_word c = true).
    { unfold word_boundary in Eb. rewrite Hp in Eb. simpl in Eb. exact Eb. }
    constructor.
    + right. exists c, (take_while in_class t). split.
      * subst run. cbn [take_while]. rewrite Hc. reflexivity.
      * split; [exact Hw|].
        replace (c :: take_while in_class t) with run
          by (subst run; cbn [take_while]; rewrite Hc; reflexivity).
        apply (take_while_all in_class).
    + apply IH. intros _. apply (take_while_stops in_class (c :: t)).
  - destruct (N.eqb_spec c 46) as [-> | Hc46].
    + constructor; [left; reflexivity|].
      apply IH. simpl. rewrite period_not_word. discriminate.
    + apply IH. simpl. intros Hw. exfalso.
      assert (Hc : in_class c = true) by (apply in_class_word, Hw).
      assert (Hrun : negb (length run =? 0) = true).
      { subst run. cbn [take_while]. rewrite Hc. reflexivity. }
      rewrite Hrun, andb_true_r in E.
      unfold word_boundary in E. simpl in E. rewrite Hw in E.
      destruct (wordness prev) eqn:Ep; [|discriminate].
      rewrite (Hinv eq_refl) in Hc. discriminate.
Qed.

Lemma tokenize_shape (s : str) : Forall token_shape (tokenize s).
Proof. apply findall_tokens_shape. discriminate. Qed.

Lemma pieces_start (ws : list str) :
  Forall token_shape ws ->
  match flat_map piece ws with x :: _ => in_class x = false | [] => True end.
Proof.
  intros H. destruct H as [|w ws Hw _]; [exact I|].
  cbn [flat_map]. destruct Hw as [-> | [c [r [-> [Hc _]]]]].
  - simpl. apply in_class_period.
  - assert (c <> 46%N) by (intros ->; congruence).
    replace (piece (c :: r)) with (32%N :: c :: r).
    + simpl. apply (in_class_space laws).
    + unfold piece. destruct c as [|p]; [reflexivity|].
      do 6 (destruct p as [p|p|]; try reflexivity). congruence.
Qed.

Lemma piece_word (c : codepoint) (r : str) :
  is_word c = true -> piece (c :: r) = 32%N :: c :: r.
Proof.
  intros Hc. assert (c <> 46%N) by (intros ->; congruence).
  unfold piece. destruct c as [|p]; [reflexivity|].
  do 6 (destruct p as [p|p|]; try reflexivity). congruence.
Qed.

Lemma skipn_length_app {A} (w rest : list A) : skipn (length w) (w ++ rest) = rest.
Proof. induction w; simpl; auto. Qed.

(** A token at the head of the text, after a character that is no word
    character, is read back as it is. *)
Lemma findall_tokens_token (f : nat) (prev : option codepoint) (w rest : str) :
  token_shape w -> wordness prev = false \/ w = [46%N] ->
  match rest with x :: _ => in_class x = false | [] => True end ->
  exists prev',
    findall_tokens (S f) prev (w ++ rest) = w :: findall_tokens f prev' rest.
Proof.
  intros Hw Hprev Hrest. destruct Hw as [-> | [c [r [-> [Hc Hall]]]]].
  - cbn [app findall_tokens take_while]. rewrite in_class_period.
    cbn [length Nat.eqb negb]. rewrite andb_false_r. simpl. eauto.
  - destruct Hprev as [Hprev | Hbad]; [|inversion Hbad; subst; congruence].
    change ((c :: r) ++ rest) with (c :: r ++ rest).
    cbn [findall_tokens].
    change (c :: r ++ rest) with ((c :: r) ++ rest).
    rewrite (@take_while_app_stop in_class (c :: r) rest Hall Hrest).
    unfold word_boundary. rewrite Hprev. cbn [wordness xorb]. rewrite Hc.
    cbn [Nat.eqb negb andb length].
    change (S (length r)) with (length (c :: r)).
    rewrite skipn_length_app. eauto.
Qed.

Lemma findall_tokens_space (f : nat) (prev : option codepoint) (t : str) :
  findall_tokens (S f) prev (32%N :: t) = findall_tokens f (Some 32%N) t.
Proof.
  cbn [findall_tokens take_while]. rewrite (in_class_space laws).
  cbn [length Nat.eqb negb]. rewrite andb_false_r. reflexivity.
Qed.

Lemma pieces_tokens (ws : list str) :
  Forall token_shape ws ->
  forall fuel prev,
    length (flat_map piece ws) <= fuel ->
    findall_tokens fuel prev (flat_map piece ws) = ws.
Proof.
  induction 1 as [|w ws Hw Hws IH]; intros fuel prev Hfuel.
  - destruct fuel; reflexivity.
  - cbn [flat_map] in *. rewrite length_app in Hfuel.
    pose proof (pieces_start Hws) as Hrest.
    destruct Hw as [-> | [c [r [-> [Hc Hall]]]]].
    + change (piece [46%N]) with [46%N] in *. cbn [length] in Hfuel.
      destruct fuel as [|f]; [lia|].
      destruct (@findall_tokens_token f prev [46%N] (flat_map piece ws))
        as [prev' Hstep]; [left; reflexivity | right; reflexivity | exact Hrest |].
      rewrite Hstep. f_equal. apply IH. lia.
    + rewrite (@piece_word c r Hc) in *. cbn [length] in Hfuel.
      destruct fuel as [|f]; [lia|].
      change ((32%N :: c :: r) ++ flat_map piece ws)
        with (32%N :: (c :: r) ++ flat_map piece ws).
      rewrite findall_tokens_space.
      destruct f as [|f]; [lia|].
      destruct (@findall_tokens_token f (Some 32%N) (c :: r) (flat_map piece ws))
        as [prev' Hstep];
        [ right; exists c, r; auto
        | left; simpl; apply (space_not_word laws) | exact Hrest |].
      rewrite Hstep. f_equal. apply IH. simpl in Hfuel. lia.
Qed.

(** The tokens of a text glued from tokens are these tokens. *)
Lemma tokenize_glue (ws : list str) :
  Forall token_shape ws -> tokenize (glue ws) = ws.
Proof.
  intros H. destruct H as [|w ws Hw Hws]; [reflexivity|].
  unfold tokenize. cbn [glue]. rewrite length_app.
  assert (Hpos : 0 < length w).
  { destruct Hw as [-> | [c [r [-> _]]]]; simpl; lia. }
  destruct (length w + length (flat_map piece ws)) as [|f] eqn:Ef; [lia|].
  destruct (@findall_tokens_token f None w (flat_map piece ws))
    as [prev' Hstep]; [exact Hw | left; reflexivity | apply pieces_start, Hws |].
  rewrite Hstep. f_equal. apply pieces_tokens; [exact Hws | lia].
Qed.

(** The comparison of line 55 holds for no window that runs past the end
    of the tokens: such a window has fewer tokens than the key. *)
Lemma window_within_tokens (s k : str) (i : nat) :
  i <= length (tokenize s) ->
  phrase_to_check (tokenize s) i (misspelled_len k) = k ->
  i + misspelled_len k <= length (tokenize s).
Proof.
  intros Hi Hk.
  rewrite (phrase_glue (tokenize_solid laws s)) in Hk.
  assert (Hshape : Forall token_shape (slice (tokenize s) i (misspelled_len k))).
  { apply Forall_forall. intros w Hw. unfold slice in Hw.
    apply In_firstn, In_skipn in Hw.
    pose proof (tokenize_shape s) as Hall. rewrite Forall_forall in Hall. auto. }
  pose proof (tokenize_glue Hshape) as Htok. rewrite Hk in Htok.
  assert (Hlen : misspelled_len k = length (slice (tokenize s) i (misspelled_len k)))
    by (unfold misspelled_len at 1; rewrite Htok; reflexivity).
  unfold slice in Hlen. rewrite length_firstn, length_skipn in Hlen. lia.
Qed.

Lemma matches_at_comparison (s k : str) (i : nat) :
  i <= length (tokenize s) ->
  matches_at (tokenize s) i k
  = eqb_str (phrase_to_check (tokenize s) i (misspelled_len k)) k.
Proof.
  intros Hi. unfold matches_at.
  destruct (eqb_str (phrase_to_check (tokenize s) i (misspelled_len k)) k) eqn:E;
    [|apply andb_false_r].
  rewrite andb_true_r. apply Nat.leb_le.
  apply window_within_tokens; [exact Hi | apply eqb_str_spec, E].
Qed.

End Tokens.

(* ================================================================== *)
(** ** The corrector: the [while] loop *)
(* ================================================================== *)

Section CorrectLoop.
Context {U : Unicode}.
Variable words : list str.
Variable misspellings : list (str * str).

(** An entry of no token that is found at [i] leaves the cursor where it
    is: the loop appends its correction again and again. *)
Lemma correct_loop_stuck (i : nat) (k c : str) :
  i < length words ->
  first_match words i misspellings = Some (k, c) ->
  misspelled_len k = 0 ->
  forall n fuel corrected_words,
    correct_loop (n + fuel) words misspellings i corrected_words
    = correct_loop fuel words misspellings i (corrected_words ++ repeat c n).
Proof.
  intros Hi Hfm H0. induction n as [|n IH]; intros fuel acc.
  - simpl. rewrite app_nil_r. reflexivity.
  - cbn [Nat.add correct_loop].
    replace (i <? length words) with true by (symmetry; apply Nat.ltb_lt; lia).
    rewrite Hfm, H0, Nat.add_0_r, IH, <- app_assoc. reflexivity.
Qed.

Lemma correct_loop_stuck_none (i : nat) (k c : str) :
  i < length words ->
  first_match words i misspellings = Some (k, c) ->
  misspelled_len k = 0 ->
  forall fuel corrected_words,
    correct_loop fuel words misspellings i corrected_words = None.
Proof.
  intros Hi Hfm H0 fuel acc.
  rewrite <- (Nat.add_0_r fuel).
  rewrite (correct_loop_stuck Hi Hfm H0). reflexivity.
Qed.

(** Without the empty string among the keys every iteration moves the
    cursor forward, and the loop ends within [length words - i] iterations. *)
Lemma correct_loop_terminates :
  (forall k c, In (k, c) misspellings -> k <> []) ->
  forall n i corrected_words,
    length words - i <= n ->
    exists out, correct_loop (S n) words misspellings i corrected_words = Some out.
Proof.
  intros Hkeys. induction n as [|n IH]; intros i acc Hn; cbn [correct_loop].
  - replace (i <? length words) with false by (symmetry; apply Nat.ltb_ge; lia).
    eauto.
  - destruct (i <? length words) eqn:Hi; [|eauto].
    apply Nat.ltb_lt in Hi.
    destruct (first_match words i misspellings) as [[k c]|] eqn:Hfm.
    + destruct (first_match_In _ _ _ Hfm) as [Hin Hm]. simpl in Hm.
      assert (misspelled_len k <> 0).
      { intros H0. apply (Hkeys k c Hin). eapply matching_key_no_token; eauto. }
      apply IH. lia.
    + apply IH. lia.
Qed.

End CorrectLoop.

(* ================================================================== *)
(** ** The corrector: the windows of a run *)
(* ================================================================== *)

Lemma first_match_None_all {U : Unicode} (words : list str) (i : nat)
  (ms : list (str * str)) :
  first_match words i ms = None ->
  forall k c, In (k, c) ms -> matches_at words i k = false.
Proof.
  induction ms as [|[k0 c0] ms IH]; intros H k c Hin; [destruct Hin|].
  cbn [first_match] in H. destruct (matches_at words i k0) eqn:E; [discriminate|].
  destruct Hin as [Heq | Hin]; [inversion Heq; subst; exact E | eauto].
Qed.

Section Windows.
Context {U : Unicode}.
Hypothesis laws : UnicodeLaws U.
Variable words : list str.
Hypothesis words_solid : Forall solid words.
Variable misspellings : list (str * str).

(** The dictionary is sorted on the number of characters; still the entry
    that the [for] loop finds is a matching key of the most tokens. *)
Lemma first_match_most_tokens (i : nat) (k c : str) :
  first_match words i (sort_misspellings misspellings) = Some (k, c) ->
  In (k, c) misspellings /\ most_tokens_at words misspellings i k.
Proof.
  intros Hfm.
  assert (Hsorted : StronglySorted (key_ge key_length) (sort_misspellings misspellings))
    by apply sorted_desc_sorted.
  assert (Hin : forall e, In e (sort_misspellings misspellings) <-> In e misspellings)
    by (intros e; apply sorted_desc_In).
  destruct (first_match_In _ _ _ Hfm) as [Hk Mk]. simpl in Mk.
  split; [apply Hin, Hk|]. split; [exact Mk|].
  intros k' c' Hk' Mk'.
  destruct (Nat.le_gt_cases (misspelled_len k') (misspelled_len k)) as [|Hgt];
    [assumption|].
  pose proof (matching_keys_length words_solid _ _ _ Mk Mk' Hgt) as Hchars.
  destruct (first_match_sorted words i (k', c') Hsorted) as [e' [Hfm' Hlen']];
    [apply Hin, Hk' | exact Mk' |].
  assert (He : Some e' = Some (k, c)) by (rewrite <- Hfm'; exact Hfm).
  inversion He; subst e'.
  unfold key_length in Hlen'. simpl in Hlen'. lia.
Qed.

Lemma first_match_no_key (i : nat) :
  first_match words i (sort_misspellings misspellings) = None ->
  forall k c, In (k, c) misspellings -> matches_at words i k = false.
Proof.
  intros Hfm k c Hin. apply (first_match_None_all _ _ _ Hfm k c).
  apply sorted_desc_In. exact Hin.
Qed.

(** A run of the [while] loop that ends: what it appended is the texts of
    windows that lie one after the other up to the end of the tokens, each
    of them the replacement of a matching key of the most tokens, or one
    token copied where no key matches. *)
Lemma correct_loop_windows :
  forall fuel i corrected_words out,
    i <= length words ->
    correct_loop fuel words (sort_misspellings misspellings) i corrected_words = Some out ->
    exists spans,
      out = corrected_words ++ map span_text spans
      /\ tiles i (length words) spans
      /\ forall s, In s spans -> greedy_window words misspellings s.
Proof.
  induction fuel as [|fuel IH]; intros i acc out Hi Hrun; [discriminate|].
  pose proof Hrun as Hrun'. cbn [correct_loop] in Hrun.
  destruct (i <? length words) eqn:Elt.
  - apply Nat.ltb_lt in Elt.
    destruct (first_match words i (sort_misspellings misspellings)) as [[k c]|] eqn:Hfm.
    + destruct (first_match_most_tokens _ Hfm) as [Hin Hmost].
      destruct (Nat.eq_dec (misspelled_len k) 0) as [H0 | Hpos].
      { rewrite (correct_loop_stuck_none _ _ Elt Hfm H0) in Hrun'. discriminate. }
      pose proof (proj1 Hmost) as Mk.
      apply (matches_at_spec words) in Mk. destruct Mk as [Hbound _].
      destruct (IH _ _ _ Hbound Hrun) as [spans [Hout [Htiles Hall]]].
      exists ({| span_start := i; span_width := misspelled_len k; span_text := c |}
                :: spans).
      split; [rewrite Hout, <- app_assoc; reflexivity|].
      split; [cbn [tiles span_start span_width]; repeat split; [lia | exact Htiles]|].
      intros s [<- | Hs]; [|apply Hall, Hs].
      left. exists k. cbn [span_start span_width span_text]. auto.
    + assert (Hbound : i + 1 <= length words) by lia.
      destruct (IH _ _ _ Hbound Hrun) as [spans [Hout [Htiles Hall]]].
      exists ({| span_start := i; span_width := 1; span_text := nth i words [] |}
                :: spans).
      split; [rewrite Hout, <- app_assoc; reflexivity|].
      split; [cbn [tiles span_start span_width]; repeat split; [lia | exact Htiles]|].
      intros s [<- | Hs]; [|apply Hall, Hs].
      right. cbn [span_start span_width span_text].
      split; [apply first_match_no_key, Hfm|]. split; [reflexivity|].
      apply nth_error_nth'. exact Elt.
  - apply Nat.ltb_ge in Elt. inversion Hrun; subst out.
    exists []. split; [rewrite app_nil_r; reflexivity|].
    split; [cbn [tiles]; lia|]. intros s [].
Qed.

(** What a window of the most tokens means for two matching keys of which
    one continues the other. *)
Lemma greedy_window_pair (s : span) (short c_short long c_long : str) :
  NoDup (map fst misspellings) ->
  greedy_window words misspellings s ->
  In (short, c_short) misspellings -> In (long, c_long) misspellings ->
  matches_at words (span_start s) short = true ->
  matches_at words (span_start s) long = true ->
  proper_prefix (tokenize short) (tokenize long) ->
  misspelled_len short < misspelled_len long <= span_width s
  /\ ((forall k' c', In (k', c') misspellings ->
         matches_at words (span_start s) k' = true ->
         misspelled_len k' <= misspelled_len long) ->
      span_width s = misspelled_len long /\ span_text s = c_long).
Proof.
  intros Hnd Hs Hshort Hlong Mshort Mlong Hpre.
  assert (Hlt : misspelled_len short < misspelled_len long)
    by (apply proper_prefix_length, Hpre).
  destruct Hs as [[k [Hk [[Mk Hmax] Hw]]] | [Hnone _]];
    [|rewrite (Hnone _ _ Hlong) in Mlong; discriminate].
  pose proof (Hmax _ _ Hlong Mlong) as Hle.
  split; [lia|]. intros Hlongest.
  assert (Heq : misspelled_len k = misspelled_len long)
    by (apply Nat.le_antisymm; [eapply Hlongest; eauto | exact Hle]).
  pose proof (matching_keys_same_count words _ _ _ Mk Mlong Heq) as Hkl.
  subst k. split; [congruence|].
  eapply NoDup_keys_value; [exact Hnd | exact Hk | exact Hlong].
Qed.

End Windows.

(** C1, as the code has it.  Whenever [correct_spelling] returns, its
    result is the texts, joined by single spaces, of windows that lie one
    after the other from the first token to the last, none of them empty:
    replacements do not overlap and are consumed from the left.  Each
    window is the replacement of a dictionary key that matches at its start
    and has the most tokens of all the keys that match there, by the
    correction of that key, or it is one token copied where no key matches.
    So where two keys match at the start of a window and the tokens of the
    one are a proper prefix of the tokens of the other, the window spans at
    least the tokens of the longer key, never only those of the shorter
    one; it is the longer key that is replaced, by its own correction, when
    no matching key has more tokens.  And [correct_spelling] returns within
    one iteration per token whenever the empty string is not a key. *)
Theorem correct_spelling_most_tokens_win :
  forall (U : Unicode) (laws : UnicodeLaws U)
         (street_name : str) (misspellings : list (str * str)),
  let words := tokenize (normalize_street street_name) in
  NoDup (map fst misspellings) ->
  (forall fuel out,
     correct_spelling_fuel fuel street_name misspellings = Some out ->
     exists spans,
       out = join (u " ") (map span_text spans)
       /\ tiles 0 (length words) spans
       /\ (forall s, In s spans -> greedy_window words misspellings s)
       /\ (forall s short c_short long c_long,
             In s spans ->
             In (short, c_short) misspellings -> In (long, c_long) misspellings ->
             matches_at words (span_start s) short = true ->
             matches_at words (span_start s) long = true ->
             proper_prefix (tokenize short) (tokenize long) ->
             misspelled_len short < misspelled_len long <= span_width s
             /\ ((forall k' c', In (k', c') misspellings ->
                    matches_at words (span_start s) k' = true ->
                    misspelled_len k' <= misspelled_len long) ->
                 span_width s = misspelled_len long /\ span_text s = c_long)))
  /\ ((forall k c, In (k, c) misspellings -> k <> []) ->
      exists out,
        correct_spelling_fuel (S (length words)) street_name misspellings = Some out).
Proof.
  intros U laws street_name misspellings words Hnd.
  assert (Hsolid : Forall solid words) by apply (tokenize_solid laws).
  split.
  - intros fuel out Hrun. unfold correct_spelling_fuel in Hrun. fold words in Hrun.
    destruct (correct_loop fuel words (sort_misspellings misspellings) 0 [])
      as [l|] eqn:Hloop; [|discriminate].
    cbn [option_map] in Hrun. inversion Hrun; subst out.
    destruct (@correct_loop_windows U words Hsolid misspellings fuel 0 [] l
                (Nat.le_0_l _) Hloop)
      as [spans [Hout [Htiles Hall]]].
    cbn [app] in Hout. subst l.
    exists spans. split; [reflexivity|]. split; [exact Htiles|].
    split; [exact Hall|].
    intros s short c_short long c_long Hs.
    intros Hshort Hlong Mshort Mlong Hpre.
    exact (@greedy_window_pair U words misspellings s short c_short long c_long
             Hnd (Hall s Hs) Hshort Hlong Mshort Mlong Hpre).
  - intros Hkeys. unfold correct_spelling_fuel. fold words.
    destruct (@correct_loop_terminates U words (sort_misspellings misspellings)) with
      (n := length words) (i := 0) (corrected_words := @nil str) as [out Hout].
    + intros k c Hin. apply sorted_desc_In in Hin. eauto.
    + lia.
    + rewrite Hout. simpl. eauto.
Qed.

Lemma correct_spelling_most_tokens_win_witness :
  NoDup (map fst ortega_dict)
  /\ @correct_spelling_fuel ucd_fragment 5 (u "Dr Ortega y Gasset") ortega_dict
     = Some (u "doctor jose ortega y gasset")
  /\ (exists spans,
        u "doctor jose ortega y gasset" = join (u " ") (map span_text spans)
        /\ tiles 0 4 spans
        /\ forall s, In s spans ->
             @greedy_window ucd_fragment
               (@tokenize ucd_fragment (@normalize_street ucd_fragment (u "Dr Ortega y Gasset")))
               ortega_dict s)
  /\ exists out,
       @correct_spelling_fuel ucd_fragment 5 (u "Dr Ortega y Gasset") ortega_dict
       = Some out.
Proof.
  assert (Hnd : NoDup (map fst ortega_dict)) by nodup_strings.
  assert (Hrun : @correct_spelling_fuel ucd_fragment 5 (u "Dr Ortega y Gasset") ortega_dict
                 = Some (u "doctor jose ortega y gasset")) by (vm_compute; reflexivity).
  destruct (@correct_spelling_most_tokens_win ucd_fragment ucd_fragment_laws
              (u "Dr Ortega y Gasset") ortega_dict Hnd) as [Hshape Hends].
  split; [exact Hnd|]. split; [exact Hrun|]. split.
  - destruct (Hshape 5 _ Hrun) as [spans [Hout [Htiles [Hall _]]]].
    exists spans. split; [exact Hout|]. split; [exact Htiles | exact Hall].
  - apply Hends. intros k c Hin.
    repeat (destruct Hin as [Hin | Hin]; [inversion Hin; discriminate|]).
    destruct Hin.
Defined.

(** C1, counterexample.  The dictionary holds the keys ["a"], ["a b"] and
    ["a b c"].  On the street name ["a b c"] the keys ["a"] and ["a b"] both
    match at the first token, and the tokens of ["a"] are a proper prefix
    of those of ["a b"]; yet the key replaced is neither of the two: the
    loop finds ["a b c"], and the result is its correction, not the
    correction of ["a b"] followed by the token ["c"]. *)
Lemma longer_of_two_keys_not_replaced :
  @tokenize ucd_fragment (@normalize_street ucd_fragment (u "a b c"))
  = [u "a"; u "b"; u "c"]
  /\ @matches_at ucd_fragment [u "a"; u "b"; u "c"] 0 (u "a") = true
  /\ @matches_at ucd_fragment [u "a"; u "b"; u "c"] 0 (u "a b") = true
  /\ @tokenize ucd_fragment (u "a b") = @tokenize ucd_fragment (u "a") ++ [u "b"]
  /\ @first_match ucd_fragment [u "a"; u "b"; u "c"] 0 (sort_misspellings abc_dict)
     = Some (u "a b c", u "z")
  /\ @correct_spelling_fuel ucd_fragment 2 (u "a b c") abc_dict = Some (u "z")
  /\ @correct_spelling_fuel ucd_fragment 2 (u "a b c") abc_dict <> Some (u "y c").
Proof.
  repeat split; try (vm_compute; reflexivity).
  vm_compute. discriminate.
Qed.

(** X20.  [correct_spelling] returns whenever the empty string is not a key; the
    number of iterations is at most the number of tokens. *)
Theorem correct_spelling_terminates_without_empty_key :
  forall (U : Unicode) (street_name : str) (misspellings : list (str * str)),
  (forall k c, In (k, c) misspellings -> k <> []) ->
  exists out,
    correct_spelling_fuel (S (length (tokenize (normalize_street street_name))))
      street_name misspellings = Some out.
Proof.
  intros U street_name misspellings Hkeys. unfold correct_spelling_fuel.
  destruct (@correct_loop_terminates U (tokenize (normalize_street street_name))
              (sort_misspellings misspellings)) with
    (n := length (tokenize (normalize_street street_name))) (i := 0)
    (corrected_words := @nil str) as [out Hout].
  - intros k c Hin. apply sorted_desc_In in Hin. eauto.
  - lia.
  - rewrite Hout. simpl. eauto.
Qed.

(** C3.  With the empty string as a key the loop does not end: on the
    street name ["a"] and the dictionary [{"": "x"}] the key of no token
    matches at cursor 0, the cursor stays at 0, every iteration appends one
    more ["x"], and no amount of fuel gives a result. *)
Theorem correct_spelling_empty_key_diverges :
  (forall fuel, @correct_spelling_fuel ucd_fragment fuel (u "a") [(u "", u "x")] = None)
  /\ @tokenize ucd_fragment (@normalize_street ucd_fragment (u "a")) = [u "a"]
  /\ @first_match ucd_fragment [u "a"] 0 (sort_misspellings [(u "", u "x")])
     = Some (u "", u "x")
  /\ (forall n fuel corrected_words,
        @correct_loop ucd_fragment (n + fuel) [u "a"] (sort_misspellings [(u "", u "x")])
          0 corrected_words
        = @correct_loop ucd_fragment fuel [u "a"] (sort_misspellings [(u "", u "x")])
            0 (corrected_words ++ repeat (u "x") n)).
Proof.
  assert (Htok : @tokenize ucd_fragment (@normalize_street ucd_fragment (u "a")) = [u "a"])
    by (vm_compute; reflexivity).
  assert (Hfm : @first_match ucd_fragment [u "a"] 0 (sort_misspellings [(u "", u "x")])
                = Some (u "", u "x")) by (vm_compute; reflexivity).
  repeat split; try assumption.
  - intros fuel. unfold correct_spelling_fuel. rewrite Htok.
    rewrite (@correct_loop_stuck_none ucd_fragment _ _ 0 (u "") (u "x"));
      [reflexivity | simpl; lia | exact Hfm | vm_compute; reflexivity].
  - apply (@correct_loop_stuck ucd_fragment _ _ 0 (u "") (u "x"));
      [simpl; lia | exact Hfm | vm_compute; reflexivity].
Qed.

(* ================================================================== *)
(** ** The corrector: periods in the comparison phrase *)
(* ================================================================== *)

Lemma occurs_has_space_dot (s : str) : occurs (u " .") s -> has_space_dot s = true.
Proof.
  intros [a [b ->]]. induction a as [|c a IH].
  - reflexivity.
  - cbn [app has_space_dot]. rewrite IH. apply orb_true_r.
Qed.

Lemma has_space_dot_app (x y : str) :
  ~ In 32%N x -> has_space_dot (x ++ y) = has_space_dot y.
Proof.
  induction x as [|c x IH]; intros Hx; [reflexivity|].
  cbn [app has_space_dot]. simpl in Hx.
  destruct (N.eqb_spec c 32); [tauto|]. rewrite IH by tauto. reflexivity.
Qed.

Lemma has_space_dot_piece (w y : str) :
  solid w -> has_space_dot (piece w ++ y) = has_space_dot y.
Proof.
  intros [Hne Hsp].
  assert (Hw : has_space_dot (w ++ y) = has_space_dot y)
    by (apply has_space_dot_app, Hsp).
  destruct w as [|c w]; [congruence|].
  destruct (N.eq_dec c 46) as [-> | Hc]; [exact Hw|].
  replace (piece (c :: w)) with (32%N :: c :: w).
  - change ((32%N :: c :: w) ++ y) with (32%N :: (c :: w) ++ y).
    cbn [has_space_dot]. rewrite Hw.
    cbn [app]. destruct (N.eqb_spec c 46); [congruence | reflexivity].
  - unfold piece. destruct c as [|p]; [reflexivity|].
    do 6 (destruct p as [p|p|]; try reflexivity). congruence.
Qed.

Lemma glue_no_space_dot (ws : list str) :
  Forall solid ws -> has_space_dot (glue ws) = false.
Proof.
  intros H. destruct ws as [|w r]; [reflexivity|].
  inversion H as [|? ? [Hne Hsp] Hr]; subst. unfold glue.
  rewrite has_space_dot_app by exact Hsp.
  induction Hr as [|x r Hx Hr IH]; [reflexivity|].
  cbn [flat_map]. rewrite has_space_dot_piece by exact Hx. apply IH.
  constructor; [split; assumption | exact Hr].
Qed.

(** C4, as the code has it.  Every [" ."] of the joined window becomes ["."],
    not only a trailing one: the comparison phrase is the tokens of the
    window in a row, each token after the first preceded by one space unless
    it starts with a period.  The phrase therefore never holds [" ."], and a
    key that holds [" ."] anywhere matches at no position of any input. *)
Theorem phrase_to_check_joins_every_period :
  forall (U : Unicode) (laws : UnicodeLaws U) (street_name : str) (i : nat),
  let words := tokenize (normalize_street street_name) in
  (forall n, phrase_to_check words i n = glue (slice words i n))
  /\ (forall misspelled, occurs (u " .") misspelled ->
        matches_at words i misspelled = false).
Proof.
  intros U laws street_name i words.
  assert (Hsolid : Forall solid words) by apply (tokenize_solid laws).
  split; [intros n; apply phrase_glue, Hsolid|].
  intros misspelled Hocc.
  destruct (matches_at words i misspelled) eqn:E; [|reflexivity].
  apply matches_at_spec in E as [_ E].
  apply occurs_has_space_dot in Hocc.
  rewrite <- E, (phrase_glue Hsolid) in Hocc.
  rewrite glue_no_space_dot in Hocc; [discriminate|].
  apply Forall_forall. intros w Hw. apply In_firstn, In_skipn in Hw.
  rewrite Forall_forall in Hsolid. auto.
Qed.

Lemma phrase_to_check_joins_every_period_witness :
  occurs (u " .") (u "a . b")
  /\ (phrase_to_check (tokenize (normalize_street (u "A . B"))) 0 3 = u "a. b"
      /\ matches_at (tokenize (normalize_street (u "A . B"))) 0 (u "a . b") = false).
Proof.
  assert (Hocc : occurs (u " .") (u "a . b")).
  { exists (u "a"), (u " b"). vm_compute. reflexivity. }
  split; [exact Hocc|].
  destruct (@phrase_to_check_joins_every_period ucd_fragment ucd_fragment_laws
              (u "A . B") 0) as [Hglue Hno].
  split; [rewrite Hglue; vm_compute; reflexivity | apply Hno, Hocc].
Defined.

(** C4, counterexample.  For the key ["a . b"] and the input ["a . b"] the
    token window is the key's own token sequence, yet the phrase compared is
    ["a. b"]: the key does not match and the input is returned as it came. *)
Lemma interior_period_key_not_replaced :
  @tokenize ucd_fragment (normalize_street (u "a . b")) = tokenize (u "a . b")
  /\ join (u " ") (slice (@tokenize ucd_fragment (normalize_street (u "a . b"))) 0 3)
     = u "a . b"
  /\ phrase_to_check (@tokenize ucd_fragment (normalize_street (u "a . b"))) 0 3
     <> u "a . b"
  /\ matches_at (@tokenize ucd_fragment (normalize_street (u "a . b"))) 0 (u "a . b")
     = false
  /\ @correct_spelling_fuel ucd_fragment 4 (u "a . b") [(u "a . b", u "x")]
     = Some (u "a . b")
  /\ @correct_spelling_fuel ucd_fragment 4 (u "a . b") [(u "a. b", u "x")]
     = Some (u "x").
Proof.
  repeat split; try (vm_compute; reflexivity).
  vm_compute. discriminate.
Qed.

(* ================================================================== *)
(** ** Facts on [str.replace] *)
(* ================================================================== *)

Lemma startswith_app (old y : str) : startswith old (old ++ y) = true.
Proof.
  induction old as [|c old IH]; [reflexivity|].
  simpl. rewrite N.eqb_refl. exact IH.
Qed.

Lemma replace_from_skip (old new x y : str) :
  replace_from old new (length x) (x ++ y) = replace_from old new 0 y.
Proof.
  induction x as [|c x IH]; [reflexivity|]. exact IH.
Qed.

(** An occurrence at the head is replaced, and the search goes on after it. *)
Lemma replace_from_hit (h : codepoint) (old new y : str) :
  replace_from (h :: old) new 0 ((h :: old) ++ y)
  = new ++ replace_from (h :: old) new 0 y.
Proof.
  cbn [app replace_from].
  change (h :: old ++ y) with ((h :: old) ++ y). rewrite startswith_app.
  replace (length (h :: old) - 1) with (length old) by (simpl; lia).
  rewrite replace_from_skip. reflexivity.
Qed.

(** Characters other than the first one of [old] are copied. *)
Lemma replace_from_miss (h : codepoint) (old new x y : str) :
  ~ In h x ->
  replace_from (h :: old) new 0 (x ++ y) = x ++ replace_from (h :: old) new 0 y.
Proof.
  induction x as [|c x IH]; intros Hx; [reflexivity|].
  simpl in Hx. cbn [app replace_from startswith].
  destruct (N.eqb_spec h c); [exfalso; apply Hx; auto|].
  cbn [andb]. rewrite IH by tauto. reflexivity.
Qed.

Lemma replace_from_flat_map (old new : str) (f f' : codepoint -> str) (s : str) :
  (forall c y, In c s ->
     replace_from old new 0 (f c ++ y) = f' c ++ replace_from old new 0 y) ->
  replace_from old new 0 (flat_map f s) = flat_map f' s.
Proof.
  induction s as [|c s IH]; intros H; [reflexivity|].
  cbn [flat_map]. rewrite H by (left; reflexivity).
  rewrite IH; [reflexivity|]. intros; apply H; right; assumption.
Qed.

(** Every character of the result comes from the string or from [new]. *)
Lemma replace_from_chars (old new : str) (k : nat) (s : str) (c : codepoint) :
  In c (replace_from old new k s) -> In c s \/ In c new.
Proof.
  revert k; induction s as [|d s IH]; intros k; [simpl; tauto|].
  cbn [replace_from]. destruct k as [|k].
  - destruct (startswith old (d :: s)).
    + intros [H|H]%in_app_or; [auto|]. apply IH in H. simpl. tauto.
    + intros [H|H]; [simpl; auto|]. apply IH in H. simpl. tauto.
  - intros H. apply IH in H. simpl. tauto.
Qed.

Lemma replace_chars (old new s : str) (c : codepoint) :
  old <> [] -> In c (replace old new s) -> In c s \/ In c new.
Proof.
  destruct old; [congruence|]. intros _. apply replace_from_chars.
Qed.

(* ================================================================== *)
(** ** [remove_accents] on text that is already ASCII and protected *)
(* ================================================================== *)

Lemma remove_accents_unfold {U : Unicode} (s : str) :
  remove_accents s = restore4 (encode_ascii_ignore (nfkd (protect4 (py_lower s)))).
Proof. reflexivity. Qed.

Lemma protect_stage (k : nat) (p : codepoint) (s : str) :
  In (k, p) [(0, 241%N); (1, 252%N); (2, 176%N); (3, 186%N)] ->
  replace [p] (placeholder k) (flat_map (hidden k) s) = flat_map (hidden (S k)) s.
Proof.
  intros Hk. unfold replace. apply replace_from_flat_map. intros c y _.
  simpl in Hk.
  repeat (destruct Hk as [Hk|Hk]; [inversion Hk; subst k p; clear Hk|]);
    try contradiction;
    (by_protected_cases c;
     cbn [app replace_from startswith];
     match goal with
     | |- context [(?a =? c)%N] =>
       destruct (N.eqb_spec a c); [congruence | reflexivity]
     end).
Qed.

Lemma placeholder_head (k : nat) : placeholder k = 80%N :: tl (placeholder k).
Proof. reflexivity. Qed.

Lemma restore_stage (k : nat) (p : codepoint) (s : str) :
  In (k, p) [(0, 241%N); (1, 252%N); (2, 176%N); (3, 186%N)] ->
  ~ In 80%N s ->
  replace (placeholder k) [p] (flat_map (shown k) s) = flat_map (shown (S k)) s.
Proof.
  intros Hk Hs.
  assert (Hrep : replace_from (placeholder k) [p] 0 (flat_map (shown k) s)
                 = flat_map (shown (S k)) s).
  { apply replace_from_flat_map. intros c y Hc.
    assert (c <> 80%N) by (intros ->; contradiction).
    simpl in Hk.
    repeat (destruct Hk as [Hk|Hk]; [inversion Hk; subst k p; clear Hk|]);
      try contradiction;
      (by_protected_cases c;
       cbv beta iota;
       match goal with
       | |- context [placeholder ?j] => rewrite (placeholder_head j)
       end;
       apply replace_from_miss; simpl; intuition congruence). }
  simpl in Hk.
  repeat (destruct Hk as [Hk|Hk]; [inversion Hk; subst k p; clear Hk; exact Hrep|]).
  contradiction.
Qed.

Lemma flat_map_singleton (f : codepoint -> str) (s : str) :
  (forall c, In c s -> f c = [c]) -> flat_map f s = s.
Proof.
  induction s as [|c s IH]; intros H; [reflexivity|].
  cbn [flat_map]. rewrite H by (left; reflexivity). cbn [app].
  rewrite IH; [reflexivity|]. intros; apply H; right; assumption.
Qed.

Lemma filter_all {A} (p : A -> bool) (l : list A) :
  forallb p l = true -> filter p l = l.
Proof.
  induction l as [|x l IH]; [reflexivity|].
  cbn [forallb filter]. intros [Hx Hl]%andb_true_iff.
  rewrite Hx, IH by exact Hl. reflexivity.
Qed.

Lemma hidden_all_ascii (s : str) :
  forallb (fun c => is_ascii c || is_protected c) s = true ->
  forallb is_ascii (flat_map (hidden 4) s) = true.
Proof.
  induction s as [|c s IH]; [reflexivity|].
  cbn [forallb flat_map]. intros [Hc Hs]%andb_true_iff.
  rewrite forallb_app, IH by exact Hs. rewrite andb_true_r.
  by_protected_cases c.
  cbn [forallb]. rewrite andb_true_r.
  apply orb_true_iff in Hc as [Hc|Hc]; [exact Hc|].
  unfold is_protected, default_protected in Hc. cbn [existsb eqb_str] in Hc.
  rewrite !andb_true_r, orb_false_r in Hc.
  repeat (apply orb_true_iff in Hc as [Hc | Hc]);
    apply N.eqb_eq in Hc; congruence.
Qed.

(** Text of ASCII and protected characters without a capital P goes through
    protection, decomposition, the ASCII filter and restoration unchanged. *)
Lemma fold_fixed {U : Unicode} (laws : UnicodeLaws U) (s : str) :
  forallb (fun c => is_ascii c || is_protected c) s = true ->
  ~ In 80%N s ->
  restore4 (encode_ascii_ignore (nfkd (protect4 s))) = s.
Proof.
  intros Hs HP.
  assert (Hprot : protect4 s = flat_map (hidden 4) s).
  { unfold protect4.
    rewrite <- (flat_map_singleton (hidden 0) s) at 1
      by (intros c _; by_protected_cases c; reflexivity).
    rewrite !protect_stage by (simpl; tauto). reflexivity. }
  rewrite Hprot, (nfkd_ascii laws) by (apply hidden_all_ascii, Hs).
  unfold encode_ascii_ignore. rewrite filter_all by (apply hidden_all_ascii, Hs).
  replace (flat_map (hidden 4) s) with (flat_map (shown 0) s)
    by (apply flat_map_ext; intros c; by_protected_cases c; reflexivity).
  unfold restore4. rewrite !restore_stage by (simpl; tauto).
  apply flat_map_singleton. intros c _. by_protected_cases c. reflexivity.
Qed.

Lemma is_protected_cases (c : codepoint) :
  is_protected c = true -> c = 241%N \/ c = 252%N \/ c = 176%N \/ c = 186%N.
Proof.
  unfold is_protected, default_protected. cbn [existsb eqb_str].
  rewrite !andb_true_r, orb_false_r. intros Hc.
  repeat (apply orb_true_iff in Hc as [Hc | Hc]);
    apply N.eqb_eq in Hc; subst; tauto.
Qed.

(** The characters of a folded string: ASCII or protected. *)
Lemma remove_accents_chars {U : Unicode} (s : str) :
  forallb (fun c => is_ascii c || is_protected c) (remove_accents s) = true.
Proof.
  rewrite remove_accents_unfold. apply forallb_forall. intros c Hc.
  unfold restore4 in Hc.
  repeat (apply replace_chars in Hc; [|discriminate];
          destruct Hc as [Hc | [<- | []]]; [|reflexivity]).
  unfold encode_ascii_ignore in Hc. apply filter_In in Hc as [_ Hc].
  rewrite Hc. reflexivity.
Qed.

Lemma ascii_lower_not_P (c : codepoint) : ascii_lower c <> 80%N.
Proof.
  unfold ascii_lower, is_ascii_upper.
  destruct (N.leb_spec 65 c), (N.leb_spec c 90); simpl; lia.
Qed.

(** Folding a folded string lower-cases its ASCII letters and does nothing
    else. *)
Lemma remove_accents_twice {U : Unicode} (laws : UnicodeLaws U) (s : str) :
  remove_accents (remove_accents s) = map ascii_lower (remove_accents s).
Proof.
  set (o := remove_accents s).
  assert (Ho : forallb (fun c => is_ascii c || is_protected c) o = true)
    by apply remove_accents_chars.
  rewrite remove_accents_unfold, (lower_ascii_protected laws) by exact Ho.
  apply (fold_fixed laws).
  - apply forallb_forall. intros c [d [<- Hd]]%in_map_iff.
    rewrite forallb_forall in Ho. specialize (Ho d Hd).
    apply orb_true_iff in Ho as [Ha | Hp].
    + apply orb_true_iff. left. unfold is_ascii, ascii_lower, is_ascii_upper in *.
      apply N.ltb_lt in Ha. apply N.ltb_lt.
      destruct (N.leb_spec 65 d), (N.leb_spec d 90); simpl; lia.
    + apply is_protected_cases in Hp as [-> | [-> | [-> | ->]]]; reflexivity.
  - intros [d [Hd _]]%in_map_iff. exact (ascii_lower_not_P d Hd).
Qed.

Lemma map_fixed {A} (f : A -> A) (l : list A) :
  map f l = l <-> (forall x, In x l -> f x = x).
Proof.
  induction l as [|x l IH]; simpl; [split; [intros _ ? [] | reflexivity]|].
  split.
  - intros H. injection H as Hx Hl. intros y [<- | Hy]; [exact Hx|].
    apply (proj1 IH Hl y Hy).
  - intros H. f_equal; [apply H; auto | apply IH; intros; apply H; auto].
Qed.

(** C5, as the code has it.  Folding twice gives the fold with its ASCII
    letters in lower case, so [remove_accents] is idempotent at [s] exactly
    when [remove_accents s] holds no upper-case ASCII letter. *)
Theorem remove_accents_idempotent_iff :
  forall (U : Unicode) (laws : UnicodeLaws U) (s : str),
  remove_accents (remove_accents s) = remove_accents s
  <-> no_ascii_upper (remove_accents s) = true.
Proof.
  intros U laws s. rewrite (remove_accents_twice laws).
  unfold no_ascii_upper. rewrite forallb_forall. split.
  - intros H c Hc. apply (proj1 (map_fixed _ _) H) in Hc.
    unfold ascii_lower in Hc. destruct (is_ascii_upper c); [lia | reflexivity].
  - intros H. apply map_fixed. intros c Hc. specialize (H c Hc).
    unfold ascii_lower. destruct (is_ascii_upper c); [discriminate | reflexivity].
Qed.

Lemma remove_accents_idempotent_iff_witness :
  no_ascii_upper (@remove_accents ucd_fragment (u "ÁÉ ñ Pº")) = true
  /\ @remove_accents ucd_fragment (@remove_accents ucd_fragment (u "ÁÉ ñ Pº"))
     = @remove_accents ucd_fragment (u "ÁÉ ñ Pº").
Proof.
  assert (H : no_ascii_upper (@remove_accents ucd_fragment (u "ÁÉ ñ Pº")) = true)
    by (vm_compute; reflexivity).
  split; [exact H|].
  apply (proj2 (@remove_accents_idempotent_iff ucd_fragment ucd_fragment_laws
                  (u "ÁÉ ñ Pº")) H).
Defined.

(** C5, counterexample.  U+2121 TELEPHONE SIGN has no lower-case mapping and
    the compatibility decomposition ["TEL"]: its fold is ["TEL"], and the
    fold of ["TEL"] is ["tel"]. *)
Lemma remove_accents_not_idempotent :
  @remove_accents ucd_fragment [8481%N] = u "TEL"
  /\ @remove_accents ucd_fragment (@remove_accents ucd_fragment [8481%N]) = u "tel"
  /\ @remove_accents ucd_fragment (@remove_accents ucd_fragment [8481%N])
     <> @remove_accents ucd_fragment [8481%N].
Proof.
  repeat split; try (vm_compute; reflexivity).
  vm_compute. discriminate.
Qed.

(** C6.  On a string of ASCII letters and protected characters the fold
    keeps every protected character and puts every other character in lower
    case; the fold of the empty string is empty; and the scenario of the
    tests evaluates as stated. *)
Theorem remove_accents_protected_and_letters :
  (forall (U : Unicode) (laws : UnicodeLaws U) (s : str),
     forallb (fun c => is_ascii_letter c || is_protected c) s = true ->
     remove_accents s = map (fun c => if is_protected c then c else ascii_lower c) s)
  /\ @remove_accents ucd_fragment (u "ÁÉÍÓÚ üé ñü Pº p°") = u "aeiou üe ñü pº p°"
  /\ (forall (U : Unicode) (laws : UnicodeLaws U), remove_accents [] = []).
Proof.
  assert (Hgen : forall (U : Unicode) (laws : UnicodeLaws U) (s : str),
     forallb (fun c => is_ascii_letter c || is_protected c) s = true ->
     remove_accents s = map (fun c => if is_protected c then c else ascii_lower c) s).
  { intros U laws s Hs. rewrite forallb_forall in Hs.
    assert (Hs' : forall c, In c s -> is_ascii c = true \/ is_protected c = true).
    { intros c Hc. specialize (Hs c Hc). apply orb_true_iff in Hs as [Hl | Hp]; [left|auto].
      unfold is_ascii_letter, is_ascii_upper, is_ascii in *. apply N.ltb_lt.
      destruct (N.leb_spec 65 c), (N.leb_spec c 90), (N.leb_spec 97 c),
        (N.leb_spec c 122); simpl in Hl; try discriminate; lia. }
    rewrite remove_accents_unfold, (lower_ascii_protected laws)
      by (apply forallb_forall; intros c Hc; apply orb_true_iff; auto).
    rewrite (fold_fixed laws).
    - apply map_ext_in. intros c Hc. destruct (is_protected c) eqn:Hp; [|reflexivity].
      apply is_protected_cases in Hp as [-> | [-> | [-> | ->]]]; reflexivity.
    - apply forallb_forall. intros c [d [<- Hd]]%in_map_iff.
      apply orb_true_iff. destruct (Hs' d Hd) as [Ha | Hp].
      + left. unfold is_ascii, ascii_lower, is_ascii_upper in *.
        apply N.ltb_lt in Ha. apply N.ltb_lt.
        destruct (N.leb_spec 65 d), (N.leb_spec d 90); simpl; lia.
      + right. apply is_protected_cases in Hp as [-> | [-> | [-> | ->]]]; reflexivity.
    - intros [d [Hd _]]%in_map_iff. exact (ascii_lower_not_P d Hd). }
  split; [exact Hgen|]. split; [vm_compute; reflexivity|].
  intros U laws. apply (Hgen U laws []). reflexivity.
Qed.

Lemma remove_accents_protected_and_letters_witness :
  forallb (fun c => is_ascii_letter c || is_protected c) (u "Peñaºü°Z") = true
  /\ @remove_accents ucd_fragment (u "Peñaºü°Z") = u "peñaºü°z"
  /\ @remove_accents ucd_fragment [] = [].
Proof.
  destruct remove_accents_protected_and_letters as [Hgen [_ Hnil]].
  split; [vm_compute; reflexivity|]. split.
  - rewrite (Hgen ucd_fragment ucd_fragment_laws) by (vm_compute; reflexivity).
    vm_compute. reflexivity.
  - exact (Hnil ucd_fragment ucd_fragment_laws).
Defined.

(* ================================================================== *)
(** ** Facts on dicts *)
(* ================================================================== *)

Section Dict.
Variable V : Type.

Lemma dict_get_set (d : list (str * V)) (k : str) (v : V) (k' : str) :
  dict_get (dict_set d k v) k' = if eqb_str k k' then Some v else dict_get d k'.
Proof.
  induction d as [|[k0 v0] d IH]; simpl.
  - reflexivity.
  - destruct (eqb_str k0 k) eqn:E; simpl.
    + apply eqb_str_spec in E; subst k0. destruct (eqb_str k k'); reflexivity.
    + rewrite IH. destruct (eqb_str k0 k') eqn:E'; [|reflexivity].
      apply eqb_str_spec in E'; subst k0.
      destruct (eqb_str k k') eqn:E2; [|reflexivity].
      apply eqb_str_spec in E2; subst k'. rewrite eqb_str_refl in E. discriminate.
Qed.

Lemma dict_set_keys_in (d : list (str * V)) (k : str) (v : V) (x : str) :
  In x (map fst (dict_set d k v)) <-> x = k \/ In x (map fst d).
Proof.
  induction d as [|[k0 v0] d IH]; simpl.
  - intuition.
  - destruct (eqb_str k0 k) eqn:E; simpl.
    + apply eqb_str_spec in E; subst k0. intuition.
    + rewrite IH. intuition.
Qed.

Lemma dict_set_NoDup (d : list (str * V)) (k : str) (v : V) :
  NoDup (map fst d) -> NoDup (map fst (dict_set d k v)).
Proof.
  induction d as [|[k0 v0] d IH]; simpl; intros Hnd.
  - constructor; [simpl; tauto | constructor].
  - inversion Hnd as [|? ? Hnot Hnd']; subst.
    destruct (eqb_str k0 k) eqn:E; simpl; [constructor; assumption|].
    constructor; [|apply IH, Hnd'].
    rewrite dict_set_keys_in. intros [-> | H]; [|contradiction].
    rewrite eqb_str_refl in E. discriminate.
Qed.

Lemma dict_set_new (d : list (str * V)) (k : str) (v : V) :
  ~ In k (map fst d) -> dict_set d k v = d ++ [(k, v)].
Proof.
  induction d as [|[k0 v0] d IH]; simpl; intros Hk; [reflexivity|].
  destruct (eqb_str k0 k) eqn:E.
  - apply eqb_str_spec in E. tauto.
  - rewrite IH by tauto. reflexivity.
Qed.

Lemma dict_get_In (d : list (str * V)) (k : str) :
  In k (map fst d) -> exists v, dict_get d k = Some v.
Proof.
  induction d as [|[k0 v0] d IH]; simpl; [tauto|].
  intros [-> | H].
  - rewrite eqb_str_refl. eauto.
  - destruct (eqb_str k0 k); eauto.
Qed.

Lemma dict_get_not_In (d : list (str * V)) (k : str) :
  ~ In k (map fst d) -> dict_get d k = None.
Proof.
  induction d as [|[k0 v0] d IH]; simpl; [reflexivity|].
  intros H. destruct (eqb_str k0 k) eqn:E.
  - apply eqb_str_spec in E. tauto.
  - apply IH. tauto.
Qed.

Lemma last_registration_In (regs : list (str * V)) (name : str) (v : V) :
  last_registration regs name = Some v -> In (name, v) regs.
Proof.
  induction regs as [|[k w] regs IH]; simpl; [discriminate|].
  destruct (last_registration regs name) as [x|].
  - intros [= ->]. auto.
  - destruct (eqb_str k name) eqn:E; [|discriminate].
    apply eqb_str_spec in E. intros [= ->]. subst. auto.
Qed.

Lemma last_registration_some (regs : list (str * V)) (name : str) (v : V) :
  In (name, v) regs -> exists w, last_registration regs name = Some w.
Proof.
  induction regs as [|[k x] regs IH]; simpl; [tauto|].
  intros [H | H].
  - inversion H; subst. destruct (last_registration regs name); eauto.
    rewrite eqb_str_refl. eauto.
  - destruct (IH H) as [w ->]. eauto.
Qed.

Lemma dict_get_registered (regs : list (str * V)) (d : list (str * V)) (name : str) :
  dict_get (fold_left (@register V) regs d) name
  = match last_registration regs name with
    | Some v => Some v
    | None => dict_get d name
    end.
Proof.
  revert d; induction regs as [|[k v] regs IH]; intros d; [reflexivity|].
  cbn [fold_left last_registration]. rewrite IH.
  destruct (last_registration regs name); [reflexivity|].
  unfold register. cbn [fst snd]. rewrite dict_get_set.
  destruct (eqb_str k name); reflexivity.
Qed.

Lemma registered_NoDup (regs : list (str * V)) (d : list (str * V)) :
  NoDup (map fst d) -> NoDup (map fst (fold_left (@register V) regs d)).
Proof.
  revert d; induction regs as [|kv regs IH]; intros d Hd; [exact Hd|].
  apply IH, dict_set_NoDup, Hd.
Qed.

End Dict.

(* ================================================================== *)
(** ** [pair_values_to_key] *)
(* ================================================================== *)

Section PairValues.
Context {U : Unicode}.

Lemma register_entry_registrations (d : list (str * str)) (entry : str * list str) :
  register_entry d entry
  = fold_left (@register str)
      ((py_lower (fst entry), fst entry)
       :: map (fun value => (py_lower value, fst entry)) (snd entry)) d.
Proof.
  destruct entry as [key values]. unfold register_entry. cbn [fold_left fst snd].
  change (register d (py_lower key, key)) with (dict_set d (py_lower key) key).
  generalize (dict_set d (py_lower key) key). clear d.
  induction values as [|v values IH]; intros d; [reflexivity|].
  cbn [fold_left map]. rewrite IH. reflexivity.
Qed.

Lemma fold_register_entry (input_dict : list (str * list str)) (d : list (str * str)) :
  fold_left register_entry input_dict d
  = fold_left (@register str) (registrations input_dict) d.
Proof.
  revert d; induction input_dict as [|entry rest IH]; intros d; [reflexivity|].
  cbn [fold_left registrations flat_map]. rewrite fold_left_app.
  rewrite IH, register_entry_registrations. reflexivity.
Qed.

Lemma rebuild_get (output_dict : list (str * str)) (ks : list str)
  (acc : list (str * str)) (name : str) :
  (forall k, In k ks -> In k (map fst output_dict)) ->
  dict_get (fold_left (rebuild_step output_dict) ks acc) name
  = if mem_str name ks then dict_get output_dict name else dict_get acc name.
Proof.
  revert acc; induction ks as [|k ks IH]; intros acc Hks; [reflexivity|].
  cbn [fold_left]. rewrite IH by (intros; apply Hks; right; assumption).
  unfold mem_str. cbn [existsb]. fold (mem_str name ks).
  destruct (mem_str name ks); [rewrite orb_true_r; reflexivity|].
  rewrite orb_false_r. unfold rebuild_step.
  destruct (dict_get_In output_dict k) as [v Hv]; [apply Hks; left; reflexivity|].
  rewrite Hv, dict_get_set.
  destruct (eqb_str k name) eqn:E.
  - apply eqb_str_spec in E; subst k. rewrite eqb_str_refl. auto.
  - destruct (eqb_str name k) eqn:E'; [|reflexivity].
    apply eqb_str_spec in E'; subst k. rewrite eqb_str_refl in E. discriminate.
Qed.

Lemma rebuild_keys (output_dict : list (str * str)) (ks : list str)
  (acc : list (str * str)) :
  (forall k, In k ks -> In k (map fst output_dict)) ->
  NoDup (map fst acc ++ ks) ->
  map fst (fold_left (rebuild_step output_dict) ks acc) = map fst acc ++ ks.
Proof.
  revert acc; induction ks as [|k ks IH]; intros acc Hks Hnd.
  - simpl. rewrite app_nil_r. reflexivity.
  - cbn [fold_left]. unfold rebuild_step at 2.
    destruct (dict_get_In output_dict k) as [v Hv]; [apply Hks; left; reflexivity|].
    rewrite Hv.
    assert (Hk : ~ In k (map fst acc)).
    { intros Hin. apply NoDup_remove_2 in Hnd. apply Hnd, in_or_app. auto. }
    rewrite dict_set_new by exact Hk.
    rewrite IH.
    + rewrite map_app, <- app_assoc. reflexivity.
    + intros; apply Hks; right; assumption.
    + rewrite map_app, <- app_assoc. exact Hnd.
Qed.

Lemma mem_str_In (x : str) (l : list str) : mem_str x l = true <-> In x l.
Proof.
  unfold mem_str. rewrite existsb_exists. split.
  - intros [y [Hy E]]. apply eqb_str_spec in E. subst. exact Hy.
  - intros H. exists x. split; [exact H | apply eqb_str_refl].
Qed.

Lemma sort_output_keys (d : list (str * str)) :
  NoDup (map fst d) ->
  map fst (sort_output d) = sorted_desc (@length codepoint) (map fst d).
Proof.
  intros Hnd. unfold sort_output.
  change (fun (d0 : list (str * str)) (k : str) =>
            match dict_get d k with Some v => dict_set d0 k v | None => d0 end)
    with (rebuild_step d).
  rewrite rebuild_keys; [reflexivity | |].
  - intros k Hk. apply sorted_desc_In in Hk. exact Hk.
  - simpl. eapply Permutation_NoDup; [apply sorted_desc_perm | exact Hnd].
Qed.

Lemma sort_output_get (d : list (str * str)) (name : str) :
  dict_get (sort_output d) name = dict_get d name.
Proof.
  unfold sort_output.
  change (fun (d0 : list (str * str)) (k : str) =>
            match dict_get d k with Some v => dict_set d0 k v | None => d0 end)
    with (rebuild_step d).
  rewrite rebuild_get by (intros k Hk; apply sorted_desc_In in Hk; exact Hk).
  destruct (mem_str name _) eqn:E; [reflexivity|].
  symmetry. apply dict_get_not_In. intros Hin.
  apply (sorted_desc_In (@length codepoint)) in Hin.
  apply mem_str_In in Hin. congruence.
Qed.

End PairValues.

(** C7.  Without and with [sort_keys], a name is looked up to the canonical
    key of the last registration made under it ([key.lower() -> key], then
    [alias.lower() -> key] for the aliases in order, entry after entry): a
    later registration overwrites an earlier one and nothing is raised.  The
    keys of the result are distinct.  With [sort_keys] the keys are those of
    the unsorted result, in descending character length, and the keys of any
    one length are in the order they had before the sort. *)
Theorem pair_values_to_key_last_write_wins_and_sorted :
  forall (U : Unicode) (input_dict : list (str * list str)),
  let plain := pair_values_to_key input_dict false in
  let sorted := pair_values_to_key input_dict true in
  (forall name, dict_get plain name = last_registration (registrations input_dict) name)
  /\ (forall name, dict_get sorted name = last_registration (registrations input_dict) name)
  /\ (forall name key, In (name, key) (registrations input_dict) ->
        exists key', dict_get sorted name = Some key'
                     /\ In (name, key') (registrations input_dict))
  /\ NoDup (map fst plain)
  /\ Permutation (map fst plain) (map fst sorted)
  /\ StronglySorted (fun a b : str => length b <= length a) (map fst sorted)
  /\ (forall n, filter (fun k : str => length k =? n) (map fst sorted)
                = filter (fun k : str => length k =? n) (map fst plain)).
Proof.
  intros U input_dict plain sorted.
  assert (Hplain : plain = fold_left (@register str) (registrations input_dict) [])
    by apply fold_register_entry.
  assert (Hnd : NoDup (map fst plain))
    by (rewrite Hplain; apply registered_NoDup; constructor).
  assert (Hkeys : map fst sorted = sorted_desc (@length codepoint) (map fst plain))
    by (apply sort_output_keys, Hnd).
  assert (Hget : forall name,
             dict_get plain name = last_registration (registrations input_dict) name).
  { intros name. rewrite Hplain, dict_get_registered.
    destruct (last_registration _ name); reflexivity. }
  repeat split.
  - exact Hget.
  - intros name. rewrite <- Hget. apply sort_output_get.
  - intros name key Hin.
    destruct (last_registration_some _ _ _ Hin) as [key' Hlast].
    exists key'. split; [|apply last_registration_In, Hlast].
    unfold sorted, pair_values_to_key. rewrite sort_output_get.
    fold (pair_values_to_key input_dict false). fold plain.
    rewrite Hget. exact Hlast.
  - exact Hnd.
  - rewrite Hkeys. apply sorted_desc_perm.
  - rewrite Hkeys. apply sorted_desc_sorted.
  - intros n. rewrite Hkeys. apply sorted_desc_stable.
Qed.

(* ================================================================== *)
(** ** The extractor: which matcher wins *)
(* ================================================================== *)

Section Earliest.
Context {U : Unicode}.
Variable text : str.

(** While every match starts after [bound], the recorded match, if any,
    starts after [bound]. *)
Lemma earliest_fold_before (bound : nat) (pre : list (str * str))
  (em : option (nat * nat)) (en : option str) (c : nat) :
  (forall r n m, In (r, n) pre -> regex_search r text = Some m -> bound < fst m) ->
  (forall e, em = Some e -> bound < fst e) ->
  exists em' en',
    fold_left (earliest_step text) pre (em, en, c) = (em', en', c + length pre)
    /\ (forall e, em' = Some e -> bound < fst e).
Proof.
  revert em en c; induction pre as [|[r n] pre IH]; intros em en c Hpre Hem.
  - exists em, en. simpl. rewrite Nat.add_0_r. auto.
  - cbn [fold_left length]. rewrite <- Nat.add_succ_comm.
    assert (Hpre' : forall r0 n0 m, In (r0, n0) pre ->
                      regex_search r0 text = Some m -> bound < fst m)
      by (intros; eapply Hpre; [right|]; eauto).
    unfold earliest_step at 2.
    destruct (regex_search r text) as [m|] eqn:Hm; [|apply IH; assumption].
    assert (bound < fst m) by (eapply Hpre; [left; reflexivity | exact Hm]).
    destruct em as [e|].
    + destruct (fst m <? fst e); apply IH; try assumption.
      intros e' [= <-]. assumption.
    + apply IH; [assumption|]. intros e' [= <-]. assumption.
Qed.

(** Once a match is recorded, matches that do not start before it leave
    the record as it is. *)
Lemma earliest_fold_after (e : nat * nat) (en : option str) (post : list (str * str))
  (c : nat) :
  (forall r n m, In (r, n) post -> regex_search r text = Some m -> fst e <= fst m) ->
  fold_left (earliest_step text) post (Some e, en, c) = (Some e, en, c + length post).
Proof.
  revert c; induction post as [|[r n] post IH]; intros c Hpost.
  - simpl. rewrite Nat.add_0_r. reflexivity.
  - cbn [fold_left length]. rewrite <- Nat.add_succ_comm.
    assert (Hpost' : forall r0 n0 m, In (r0, n0) post ->
                       regex_search r0 text = Some m -> fst e <= fst m)
      by (intros; eapply Hpost; [right|]; eauto).
    unfold earliest_step at 2.
    destruct (regex_search r text) as [m|] eqn:Hm; [|apply IH; assumption].
    assert (Hle : fst e <= fst m) by (eapply Hpost; [left; reflexivity | exact Hm]).
    replace (fst m <? fst e) with false by (symmetry; apply Nat.ltb_ge; exact Hle).
    apply IH; assumption.
Qed.

Lemma earliest_fold_none (cp : list (str * str)) (c : nat) :
  (forall r n, In (r, n) cp -> regex_search r text = None) ->
  fold_left (earliest_step text) cp (None, None, c) = (None, None, c + length cp).
Proof.
  revert c; induction cp as [|[r n] cp IH]; intros c Hcp.
  - simpl. rewrite Nat.add_0_r. reflexivity.
  - cbn [fold_left length]. rewrite <- Nat.add_succ_comm.
    unfold earliest_step at 2. rewrite (Hcp r n) by (left; reflexivity).
    apply IH. intros; eapply Hcp; right; eauto.
Qed.

Lemma earliest_fold_winner (cp : list (str * str)) (j : nat) (regex name : str)
  (m : nat * nat) :
  nth_error cp j = Some (regex, name) ->
  regex_search regex text = Some m ->
  (forall j' r' n' m', nth_error cp j' = Some (r', n') ->
     regex_search r' text = Some m' ->
     fst m <= fst m' /\ (j' < j -> fst m < fst m')) ->
  fold_left (earliest_step text) cp (None, None, 0) = (Some m, Some name, length cp).
Proof.
  intros Hj Hm Hmin.
  destruct (nth_error_split _ _ Hj) as [pre [post [-> Hlen]]].
  rewrite fold_left_app.
  destruct (@earliest_fold_before (fst m) pre None None 0) as [em [en [Hpre Hem]]].
  - intros r n m' Hin Hm'.
    destruct (In_nth_error _ _ Hin) as [j' Hj'].
    assert (j' < length pre) by (apply nth_error_Some; congruence).
    apply (Hmin j' r n m'); [|exact Hm'|lia].
    rewrite nth_error_app1 by assumption. exact Hj'.
  - discriminate.
  - rewrite Hpre. cbn [fold_left]. unfold earliest_step at 2. rewrite Hm.
    assert (Hstep : match em with
                    | Some e => if fst m <? fst e
                                then (Some m, Some name, S (0 + length pre))
                                else (em, en, S (0 + length pre))
                    | None => (Some m, Some name, S (0 + length pre))
                    end = (Some m, Some name, S (length pre))).
    { destruct em as [e|]; [|reflexivity].
      replace (fst m <? fst e) with true; [reflexivity|].
      symmetry. apply Nat.ltb_lt. apply Hem. reflexivity. }
    rewrite Hstep. rewrite earliest_fold_after.
    + f_equal. rewrite length_app. simpl. lia.
    + intros r n m' Hin Hm'.
      destruct (In_nth_error _ _ Hin) as [j' Hj'].
      apply (Hmin (length pre + S j') r n m'); [|exact Hm'].
      rewrite nth_error_app2 by lia.
      replace (length pre + S j' - length pre) with (S j') by lia. exact Hj'.
Qed.

End Earliest.

Lemma first_minimal_exists {U : Unicode} (text : str) (cp : list (str * str)) :
  (forall r n, In (r, n) cp -> regex_search r text = None)
  \/ exists j regex name m, first_minimal cp text j regex name m.
Proof.
  induction cp as [|[r n] cp IH] using rev_ind; [left; intros ? ? []|].
  destruct IH as [Hnone | [j [regex [name [m [Hj [Hm Hmin]]]]]]].
  - destruct (regex_search r text) as [m|] eqn:Hr.
    + right. exists (length cp), r, n, m. repeat split.
      * rewrite nth_error_app2, Nat.sub_diag by lia. reflexivity.
      * exact Hr.
      * destruct (Nat.lt_ge_cases j' (length cp)) as [Hlt | Hge].
        -- rewrite nth_error_app1 in H by exact Hlt.
           apply nth_error_In in H. rewrite (Hnone _ _ H) in H0. discriminate.
        -- assert (j' = length cp).
           { apply Nat.le_antisymm; [|exact Hge].
             assert (j' < length (cp ++ [(r, n)])) by (apply nth_error_Some; congruence).
             rewrite length_app in *. simpl in *. lia. }
           subst j'. rewrite nth_error_app2, Nat.sub_diag in H by lia.
           inversion H; subst. rewrite Hr in H0. inversion H0; subst. lia.
      * intros Hlt. destruct (Nat.lt_ge_cases j' (length cp)) as [Hlt' | Hge]; [|lia].
        rewrite nth_error_app1 in H by exact Hlt'.
        apply nth_error_In in H. rewrite (Hnone _ _ H) in H0. discriminate.
    + left. intros r' n' [Hin | Hin]%in_app_or; [eauto|].
      destruct Hin as [[= <- <-] | []]. exact Hr.
  - assert (Hjlt : j < length cp) by (apply nth_error_Some; congruence).
    right. destruct (regex_search r text) as [m'|] eqn:Hr.
    + destruct (Nat.lt_ge_cases (fst m') (fst m)) as [Hless | Hgeq].
      * exists (length cp), r, n, m'. repeat split.
        -- rewrite nth_error_app2, Nat.sub_diag by lia. reflexivity.
        -- exact Hr.
        -- destruct (Nat.lt_ge_cases j' (length cp)) as [Hlt | Hge].
           ++ rewrite nth_error_app1 in H by exact Hlt.
              destruct (Hmin _ _ _ _ H H0). lia.
           ++ assert (j' < length (cp ++ [(r, n)])) by (apply nth_error_Some; congruence).
              rewrite length_app in *. simpl in *.
              assert (j' = length cp) by lia. subst j'.
              rewrite nth_error_app2, Nat.sub_diag in H by lia.
              inversion H; subst. rewrite Hr in H0. inversion H0; subst. lia.
        -- intros Hlt. rewrite nth_error_app1 in H by exact Hlt.
           destruct (Hmin _ _ _ _ H H0). lia.
      * exists j, regex, name, m. repeat split.
        -- rewrite nth_error_app1 by exact Hjlt. exact Hj.
        -- exact Hm.
        -- destruct (Nat.lt_ge_cases j' (length cp)) as [Hlt | Hge].
           ++ rewrite nth_error_app1 in H by exact Hlt.
              destruct (Hmin _ _ _ _ H H0). lia.
           ++ assert (j' < length (cp ++ [(r, n)])) by (apply nth_error_Some; congruence).
              rewrite length_app in *. simpl in *.
              assert (j' = length cp) by lia. subst j'.
              rewrite nth_error_app2, Nat.sub_diag in H by lia.
              inversion H; subst. rewrite Hr in H0. inversion H0; subst. lia.
        -- intros Hlt. rewrite nth_error_app1 in H by lia.
           destruct (Hmin _ _ _ _ H H0) as [_ Hs]. apply Hs, Hlt.
    + exists j, regex, name, m. repeat split.
      * rewrite nth_error_app1 by exact Hjlt. exact Hj.
      * exact Hm.
      * destruct (Nat.lt_ge_cases j' (length cp)) as [Hlt | Hge].
        -- rewrite nth_error_app1 in H by exact Hlt.
           destruct (Hmin _ _ _ _ H H0). lia.
        -- assert (j' < length (cp ++ [(r, n)])) by (apply nth_error_Some; congruence).
           rewrite length_app in *. simpl in *.
           assert (j' = length cp) by lia. subst j'.
           rewrite nth_error_app2, Nat.sub_diag in H by lia.
           inversion H; subst. rewrite Hr in H0. discriminate.
      * intros Hlt. rewrite nth_error_app1 in H by lia.
        destruct (Hmin _ _ _ _ H H0) as [_ Hs]. apply Hs, Hlt.
Qed.

(** C2.  On a string cell, [find_earliest_pattern] searches the preprocessed
    text with every compiled matcher.  When entry [j] matches and no entry
    matches at a smaller offset nor, before [j] in the iteration order, at
    the same offset, its label is returned, whatever the ends of the
    matches; such an entry exists as soon as one matcher finds an
    occurrence; and when none does the result is missing. *)
Theorem find_earliest_pattern_first_smallest_start :
  forall (U : Unicode) (compiled_patterns : list (str * str))
         (ignore_prepositions : option (list str)) (s : str),
  let processed_text := preprocess_text s ignore_prepositions in
  (forall j regex name m,
     first_minimal compiled_patterns processed_text j regex name m ->
     find_earliest_pattern compiled_patterns ignore_prepositions (VStr s)
     = (Return (VStr name), length compiled_patterns))
  /\ ((exists regex name m,
         In (regex, name) compiled_patterns
         /\ regex_search regex processed_text = Some m) ->
      exists j regex name m,
        first_minimal compiled_patterns processed_text j regex name m)
  /\ ((forall regex name, In (regex, name) compiled_patterns ->
         regex_search regex processed_text = None) ->
      find_earliest_pattern compiled_patterns ignore_prepositions (VStr s)
      = (Return VNaN, length compiled_patterns)).
Proof.
  intros U cp ignore s text. repeat split.
  - intros j regex name m [Hj [Hm Hmin]].
    unfold find_earliest_pattern. cbn [isna]. fold text.
    rewrite (earliest_fold_winner text cp Hj Hm Hmin). reflexivity.
  - intros [regex [name [m [Hin Hm]]]].
    destruct (first_minimal_exists text cp) as [Hnone | Hex]; [|exact Hex].
    rewrite (Hnone _ _ Hin) in Hm. discriminate.
  - intros Hnone. unfold find_earliest_pattern. cbn [isna]. fold text.
    rewrite (earliest_fold_none text cp 0 Hnone). reflexivity.
Qed.

Lemma find_earliest_pattern_first_smallest_start_witness :
  @first_minimal ucd_fragment san_patterns
    (@preprocess_text ucd_fragment (u "Calle San Blas, 3") None) 0 (u "san") (u "san") (6, 9)
  /\ @regex_search ucd_fragment (u "san blas")
       (@preprocess_text ucd_fragment (u "Calle San Blas, 3") None) = Some (6, 14)
  /\ @find_earliest_pattern ucd_fragment san_patterns None (VStr (u "Calle San Blas, 3"))
     = (Return (VStr (u "san")), 3).
Proof.
  assert (Hfirst : @first_minimal ucd_fragment san_patterns
            (@preprocess_text ucd_fragment (u "Calle San Blas, 3") None)
            0 (u "san") (u "san") (6, 9)).
  { split; [vm_compute; reflexivity|]. split; [vm_compute; reflexivity|].
    intros j' r' n' m' Hj Hm.
    destruct j' as [|[|[|j']]]; vm_compute in Hj;
      [ | | | destruct j'; discriminate ];
      inversion Hj; subst r' n'; clear Hj;
      vm_compute in Hm; inversion Hm; subst m'; simpl; lia. }
  split; [exact Hfirst|]. split; [vm_compute; reflexivity|].
  exact (proj1 (@find_earliest_pattern_first_smallest_start ucd_fragment san_patterns
                  None (u "Calle San Blas, 3")) 0 (u "san") (u "san") (6, 9) Hfirst).
Defined.

(* ================================================================== *)
(** ** The extractor over a column *)
(* ================================================================== *)

Lemma apply_rows_returns (f : value -> result value * nat) (col : list value) :
  (forall v, In v col -> exists w n, f v = (Return w, n)) ->
  exists n, apply_rows f col = (Return (map (fun v => returned (fst (f v))) col), n).
Proof.
  induction col as [|v col IH]; intros H; [exists 0; reflexivity|].
  destruct (H v (or_introl eq_refl)) as [w [n Hv]].
  destruct IH as [m Hm]; [intros; apply H; right; assumption|].
  exists (n + m). cbn [apply_rows map]. rewrite Hv, Hm. reflexivity.
Qed.

Lemma find_earliest_pattern_returns {U : Unicode} (cp : list (str * str))
  (ignore : option (list str)) (v : value) :
  isna v = true \/ is_str v = true ->
  exists w n, find_earliest_pattern cp ignore v = (Return w, n).
Proof.
  intros [Hna | Hstr]; unfold find_earliest_pattern.
  - rewrite Hna. eauto.
  - destruct v; try discriminate. cbn [isna].
    destruct (fold_left _ cp (None, None, 0)) as [[em [name|]] n]; eauto.
Qed.

(** C8.  Over a column of strings and missing cells the call raises
    nothing.  The cell of a missing row is missing in the output, and no
    matcher was searched for it; the label found for a row is written in
    upper case; a row without a match is missing.  The upper-casing step
    leaves any value that is not a string as it is. *)
Theorem extract_missing_rows_and_upper_case :
  forall (U : Unicode) (ps : patterns) (target_var base_var : str) (composed : bool)
         (ignore_prepositions : option (list str)) (df : frame) (col : list value),
  let compiled_patterns := compile_patterns ps composed ignore_prepositions in
  dict_get df base_var = Some col ->
  (forall v, In v col -> isna v = true \/ is_str v = true) ->
  (exists out,
     extract_and_store_patterns df ps target_var base_var composed ignore_prepositions
     = Return (dict_set df target_var out)
     /\ length out = length col
     /\ forall i v, nth_error col i = Some v ->
          (isna v = true ->
             find_earliest_pattern compiled_patterns ignore_prepositions v
             = (Return VNaN, 0)
             /\ nth_error out i = Some VNaN)
          /\ (forall name n,
                find_earliest_pattern compiled_patterns ignore_prepositions v
                = (Return (VStr name), n) ->
                nth_error out i = Some (VStr (py_upper name)))
          /\ (forall n,
                find_earliest_pattern compiled_patterns ignore_prepositions v
                = (Return VNaN, n) ->
                nth_error out i = Some VNaN))
  /\ (forall x, is_str x = false -> upper_if_str x = x).
Proof.
  intros U ps target_var base_var composed ignore df col cp Hcol Hcells.
  split; [|intros x Hx; destruct x; try reflexivity; discriminate].
  destruct (apply_rows_returns (find_earliest_pattern cp ignore) col) as [n Hn].
  { intros v Hv. apply find_earliest_pattern_returns, Hcells, Hv. }
  exists (map upper_if_str
            (map (fun v => returned (fst (find_earliest_pattern cp ignore v))) col)).
  split; [|split].
  - unfold extract_and_store_patterns. rewrite Hcol. fold cp. rewrite Hn. reflexivity.
  - rewrite !length_map. reflexivity.
  - intros i v Hi. rewrite !nth_error_map, Hi. cbn [option_map].
    split; [|split].
    + intros Hna. unfold find_earliest_pattern. rewrite Hna. auto.
    + intros name k ->. reflexivity.
    + intros k ->. reflexivity.
Qed.

Lemma extract_missing_rows_and_upper_case_witness :
  exists out,
    @extract_and_store_patterns ucd_fragment blas_frame
      (PatternList [u "san blas - canillejas"; u "valle guerra"])
      (u "ADDRESS2") (u "ADDRESS") true None
    = Return (dict_set blas_frame (u "ADDRESS2") out)
    /\ out = [VStr (u "SAN BLAS - CANILLEJAS"); VNaN; VNaN; VNaN].
Proof.
  destruct (@extract_missing_rows_and_upper_case ucd_fragment
              (PatternList [u "san blas - canillejas"; u "valle guerra"])
              (u "ADDRESS2") (u "ADDRESS") true None blas_frame
              [VStr (u "calle San Blas, 36"); VNaN; VStr (u "Valleguerra"); VNone])
    as [[out [Hout [Hlen Hrows]]] _].
  - vm_compute. reflexivity.
  - intros v Hv. simpl in Hv.
    repeat (destruct Hv as [<- | Hv]; [vm_compute; tauto|]). contradiction.
  - exists out. split; [exact Hout|].
    destruct out as [|o0 [|o1 [|o2 [|o3 [|o4 out]]]]]; try discriminate Hlen.
    destruct (Hrows 0 _ eq_refl) as [_ [H0 _]].
    destruct (Hrows 1 _ eq_refl) as [H1 _].
    destruct (Hrows 2 _ eq_refl) as [_ [_ H2]].
    destruct (Hrows 3 _ eq_refl) as [H3 _].
    specialize (H0 (u "san blas - canillejas") 2 ltac:(vm_compute; reflexivity)).
    destruct (H1 eq_refl) as [_ H1'].
    specialize (H2 2 ltac:(vm_compute; reflexivity)).
    destruct (H3 eq_refl) as [_ H3'].
    simpl in H0, H1', H2, H3'.
    inversion H0; inversion H1'; inversion H2; inversion H3'; subst.
    vm_compute. reflexivity.
Defined.

(* ================================================================== *)
(** ** The dtypes of frames of strings and missing values *)
(* ================================================================== *)

Lemma infer_series_length (l : list value) : length (infer_series l) = length l.
Proof.
  unfold infer_series. destruct (existsb is_str l); [reflexivity|].
  destruct (forallb is_none l); [reflexivity | apply length_map].
Qed.

Lemma infer_series_str (l : list value) (i : nat) (s : str) :
  nth_error l i = Some (VStr s) -> nth_error (infer_series l) i = Some (VStr s).
Proof.
  intros H. unfold infer_series. destruct (existsb is_str l); [exact H|].
  destruct (forallb is_none l); [exact H|].
  rewrite nth_error_map, H. reflexivity.
Qed.

Lemma infer_series_isna (l : list value) (i : nat) (v : value) :
  nth_error l i = Some v ->
  exists w, nth_error (infer_series l) i = Some w /\ isna w = isna v.
Proof.
  intros H. unfold infer_series. destruct (existsb is_str l); [eauto|].
  destruct (forallb is_none l); [eauto|].
  exists (none_to_nan v). rewrite nth_error_map, H. split; [reflexivity|].
  destruct v; reflexivity.
Qed.

#[export] Instance inferred_dtypes : Dtypes := {
  row_cell := fun _ v => v;
  result_series := infer_series;
  row_cell_str := fun _ _ => eq_refl;
  row_cell_isna := fun _ _ => eq_refl;
  result_series_length := infer_series_length;
  result_series_str := infer_series_str;
  result_series_isna := infer_series_isna
}.

(* ================================================================== *)
(** ** Validation errors of [get_unique_names] and [fill_na_df] *)
(* ================================================================== *)

Lemma dict_get_None_iff {V} (d : list (str * V)) (k : str) :
  dict_get d k = None <-> ~ In k (map fst d).
Proof.
  split; [|apply dict_get_not_In].
  intros Hget Hin. destruct (dict_get_In d k Hin) as [v Hv]. congruence.
Qed.

Lemma dict_set_same_keys {V} (d : list (str * V)) (k : str) (v x : V) :
  dict_get d k = Some x -> map fst (dict_set d k v) = map fst d.
Proof.
  induction d as [|[k0 v0] d IH]; simpl; [discriminate|].
  destruct (eqb_str k0 k); [reflexivity|]. intros H. simpl. rewrite IH by exact H.
  reflexivity.
Qed.

Lemma absent_pair_names (df df' df2 : frame) (p : str * str) :
  map fst df' = map fst df -> absent_pair df df2 p -> absent_pair df' df2 p.
Proof.
  intros Hn [H | H]; [left | right; exact H].
  apply dict_get_None_iff. rewrite Hn. apply dict_get_None_iff. exact H.
Qed.

Lemma combine_at {A B} (l : list A) (l' : list B) (k : nat) (a : A) (b : B) :
  nth_error l k = Some a -> nth_error l' k = Some b ->
  combine l l'
  = combine (firstn k l) (firstn k l') ++ (a, b) :: combine (skipn (S k) l) (skipn (S k) l').
Proof.
  revert l l'; induction k as [|k IH]; intros [|x l] [|y l'] Ha Hb;
    cbn [nth_error] in Ha, Hb; try discriminate.
  - inversion Ha; inversion Hb. reflexivity.
  - cbn [firstn skipn combine app]. f_equal. apply IH; assumption.
Qed.

Section FillLoop.
Context {D : Dtypes}.

(** A pair that names an absent column ends the loop where it stands. *)
Lemma fill_loop_absent_here (df2 : frame) (t f : str) (rest : list (str * str))
  (st : fill_state) :
  absent_pair (st_df st) df2 (t, f) ->
  fill_loop df2 ((t, f) :: rest) st = (st, Raise ValueError).
Proof.
  intros [H | H]; simpl in H; cbn [fill_loop]; rewrite H; [reflexivity|].
  destruct (dict_get (st_df st) t); reflexivity.
Qed.

(** The loop assigns to columns that exist: the names stay. *)
Lemma fill_loop_names (df2 : frame) (pairs : list (str * str)) :
  forall st, map fst (st_df (fst (fill_loop df2 pairs st))) = map fst (st_df st).
Proof.
  induction pairs as [|[t f] rest IH]; intros st; [reflexivity|].
  cbn [fill_loop].
  destruct (dict_get (st_df st) t) as [tcol|] eqn:Ht; [|reflexivity].
  destruct (dict_get df2 f) as [fcol|]; [|reflexivity].
  destruct tcol as [|v tcol].
  - destruct (length (st_df st) =? 1); [apply IH | reflexivity].
  - destruct (fill_rows (st_df st) (v :: tcol) fcol 0) as [[e | filled] n];
      [reflexivity|].
    rewrite IH. cbn [st_df]. apply (dict_set_same_keys _ _ _ Ht).
Qed.

(** The loop over two lists of pairs in a row: the second is reached only
    when the first has returned, and then from the state it left. *)
Lemma fill_loop_app (df2 : frame) (before after : list (str * str)) :
  forall st,
  fill_loop df2 (before ++ after) st
  = match fill_loop df2 before st with
    | (st', Raise e) => (st', Raise e)
    | (st', Return _) => fill_loop df2 after st'
    end.
Proof.
  induction before as [|[t f] rest IH]; intros st; [reflexivity|].
  cbn [app fill_loop].
  destruct (dict_get (st_df st) t) as [tcol|]; [|reflexivity].
  destruct (dict_get df2 f) as [fcol|]; [|reflexivity].
  destruct tcol as [|v tcol].
  - destruct (length (st_df st) =? 1); [apply IH | reflexivity].
  - destruct (fill_rows (st_df st) (v :: tcol) fcol 0) as [[e | filled] n];
      [reflexivity | apply IH].
Qed.

Lemma fill_loop_absent_at (df2 : frame) (before after : list (str * str))
  (p : str * str) (st : fill_state) :
  absent_pair (st_df st) df2 p ->
  fill_loop df2 (before ++ p :: after) st
  = match fill_loop df2 before st with
    | (st', Raise e) => (st', Raise e)
    | (st', Return _) => (st', Raise ValueError)
    end.
Proof.
  intros Habs. rewrite fill_loop_app.
  pose proof (fill_loop_names df2 before st) as Hn.
  destruct (fill_loop df2 before st) as [st' [e | []]]; [reflexivity|].
  destruct p as [t f]. apply fill_loop_absent_here.
  apply (absent_pair_names _ Hn Habs).
Qed.

End FillLoop.

(** C9, as the code has it.  [get_unique_names] raises [KeyError] for an
    absent column before it reads a row.  [fill_na_df] raises [ValueError]
    for lists of different lengths, with [df] untouched and no row
    processed; without [filler_columns] the targets are the fillers.  The
    columns of a pair are looked up when the loop reaches the pair.  So the
    call on pairs of which the one at position [k] names an absent column
    is the call on the [k] pairs before it, followed by the error: when the
    call on the earlier pairs raises, the whole call raises the same
    exception in the same state; when it returns, the whole call raises
    [ValueError] in the state it returned in, the earlier pairs filled and
    no row of the absent pair processed.  With the absent pair in the first
    place that is [df] untouched and no row processed.  In every case the
    call ends in an exception. *)
Theorem validation_errors_are_raised :
  (forall (U : Unicode) (df : frame) (target_var : str) (target_var2 : option str),
     mem_str target_var (map fst df) = false ->
     get_unique_names df target_var target_var2 = (0, Raise KeyError))
  /\ (forall (U : Unicode) (df : frame) (target_var t2 : str),
        mem_str t2 (map fst df) = false ->
        get_unique_names df target_var (Some t2) = (0, Raise KeyError))
  /\ (forall (D : Dtypes) (df df2 : frame) (target_columns filler_columns : list str),
        length target_columns <> length filler_columns ->
        fill_na_df df df2 target_columns (Some filler_columns)
        = ({| st_df := df; st_rows := 0 |}, Raise ValueError))
  /\ (forall (D : Dtypes) (df df2 : frame) (target_columns : list str),
        fill_na_df df df2 target_columns None
        = fill_na_df df df2 target_columns (Some target_columns))
  /\ (forall (D : Dtypes) (df df2 : frame) (target_columns filler_columns : list str)
             (k : nat) (t f : str),
        length target_columns = length filler_columns ->
        nth_error target_columns k = Some t ->
        nth_error filler_columns k = Some f ->
        absent_pair df df2 (t, f) ->
        fill_na_df df df2 target_columns (Some filler_columns)
        = match fill_na_df df df2 (firstn k target_columns)
                  (Some (firstn k filler_columns)) with
          | (st, Raise e) => (st, Raise e)
          | (st, Return _) => (st, Raise ValueError)
          end)
  /\ (forall (D : Dtypes) (df df2 : frame) (t f : str) (ts fs : list str),
        length ts = length fs ->
        absent_pair df df2 (t, f) ->
        fill_na_df df df2 (t :: ts) (Some (f :: fs))
        = ({| st_df := df; st_rows := 0 |}, Raise ValueError))
  /\ (forall (D : Dtypes) (df df2 : frame) (target_columns filler_columns : list str),
        (exists p, In p (combine target_columns filler_columns)
                   /\ absent_pair df df2 p) ->
        exists st e,
          fill_na_df df df2 target_columns (Some filler_columns) = (st, Raise e)).
Proof.
  assert (Hat : forall (D : Dtypes) (df df2 : frame) (ts fs : list str)
                       (k : nat) (t f : str),
             length ts = length fs ->
             nth_error ts k = Some t -> nth_error fs k = Some f ->
             absent_pair df df2 (t, f) ->
             fill_na_df df df2 ts (Some fs)
             = match fill_na_df df df2 (firstn k ts) (Some (firstn k fs)) with
               | (st, Raise e) => (st, Raise e)
               | (st, Return _) => (st, Raise ValueError)
               end).
  { intros D df df2 ts fs k t f Hlen Ht Hf Habs. unfold fill_na_df.
    rewrite Hlen, Nat.eqb_refl. cbn [negb].
    assert (Hk : k < length fs) by (apply nth_error_Some; congruence).
    rewrite !length_firstn, Hlen, Nat.eqb_refl. cbn [negb].
    rewrite (combine_at ts fs k Ht Hf).
    apply fill_loop_absent_at. exact Habs. }
  repeat split.
  - intros U df t t2 H. unfold get_unique_names. rewrite H. reflexivity.
  - intros U df t t2 H. unfold get_unique_names. rewrite H.
    destruct (mem_str t (map fst df)); reflexivity.
  - intros D df df2 ts fs H. unfold fill_na_df.
    apply Nat.eqb_neq in H. rewrite H. reflexivity.
  - exact Hat.
  - intros D df df2 t f ts fs Hlen Habs. unfold fill_na_df.
    cbn [length]. rewrite Hlen, Nat.eqb_refl. cbn [negb combine].
    apply fill_loop_absent_here. exact Habs.
  - intros D df df2 ts fs [[t f] [Hin Habs]].
    destruct (Nat.eq_dec (length ts) (length fs)) as [Hlen | Hlen].
    + destruct (In_nth_error _ _ Hin) as [k Hk].
      assert (Ht : nth_error ts k = Some t /\ nth_error fs k = Some f).
      { clear -Hk. revert fs k Hk.
        induction ts as [|x ts IH]; intros [|y fs] [|k] Hk;
          cbn [combine nth_error] in *; try discriminate.
        - inversion Hk. auto.
        - apply IH. exact Hk. }
      destruct Ht as [Ht Hf]. rewrite (Hat D df df2 ts fs k t f Hlen Ht Hf Habs).
      destruct (fill_na_df df df2 (firstn k ts) (Some (firstn k fs))) as [st [e | []]];
        eauto.
    + unfold fill_na_df. apply Nat.eqb_neq in Hlen. rewrite Hlen. cbn [negb]. eauto.
Qed.

Lemma validation_errors_are_raised_witness :
  @get_unique_names ucd_fragment ab_frame (u "zz") None = (0, Raise KeyError)
  /\ @get_unique_names ucd_fragment ab_frame (u "a") (Some (u "zz")) = (0, Raise KeyError)
  /\ fill_na_df ab_frame ab_filler [u "a"] (Some [u "a"; u "a"])
     = ({| st_df := ab_frame; st_rows := 0 |}, Raise ValueError)
  /\ fill_na_df ab_frame ab_filler [u "a"; u "zz"] (Some [u "a"; u "a"])
     = ({| st_df := [(u "a", [VStr (u "x"); VStr (u "k")])]; st_rows := 2 |},
        Raise ValueError)
  /\ fill_na_df ab_frame [(u "a", [])] [u "a"; u "zz"] (Some [u "a"; u "zz"])
     = ({| st_df := ab_frame; st_rows := 1 |}, Raise KeyError)
  /\ fill_na_df ab_frame ab_filler [u "zz"; u "a"] (Some [u "a"; u "a"])
     = ({| st_df := ab_frame; st_rows := 0 |}, Raise ValueError)
  /\ exists st e,
       fill_na_df ab_frame ab_filler [u "a"; u "zz"] (Some [u "a"; u "a"])
       = (st, Raise e).
Proof.
  destruct validation_errors_are_raised as [H1 [H2 [H3 [_ [H5 [H6 H7]]]]]].
  split; [apply (H1 ucd_fragment); vm_compute; reflexivity|].
  split; [apply (H2 ucd_fragment); vm_compute; reflexivity|].
  split; [apply H3; simpl; lia|].
  split.
  { rewrite (H5 inferred_dtypes ab_frame ab_filler [u "a"; u "zz"] [u "a"; u "a"]
               1 (u "zz") (u "a"));
      [ vm_compute; reflexivity | reflexivity | reflexivity | reflexivity
      | left; vm_compute; reflexivity ]. }
  split.
  { rewrite (H5 inferred_dtypes ab_frame [(u "a", [])] [u "a"; u "zz"] [u "a"; u "zz"]
               1 (u "zz") (u "zz"));
      [ vm_compute; reflexivity | reflexivity | reflexivity | reflexivity
      | left; vm_compute; reflexivity ]. }
  split; [apply H6; [reflexivity | left; vm_compute; reflexivity]|].
  apply H7. exists (u "zz", u "a"). split; [vm_compute; tauto|].
  left. vm_compute. reflexivity.
Defined.

(** C9, counterexample.  With [target_columns = ["a", "zz"]] and no column
    ["zz"], the rows of column ["a"] are processed and written to [df]
    first; the error comes after two rows, on a changed frame. *)
Lemma fill_na_df_raises_after_rows :
  fill_na_df ab_frame ab_filler [u "a"; u "zz"] None
  = ({| st_df := [(u "a", [VStr (u "x"); VStr (u "k")])]; st_rows := 2 |},
     Raise ValueError)
  /\ fst (fill_na_df ab_frame ab_filler [u "a"; u "zz"] None)
     <> {| st_df := ab_frame; st_rows := 0 |}.
Proof.
  split; [vm_compute; reflexivity|]. vm_compute. discriminate.
Qed.

(* ================================================================== *)
(** ** [get_unique_names]: distinct names in key order *)
(* ================================================================== *)

Lemma unique_In (l : list str) (x : str) : In x (unique l) <-> In x l.
Proof.
  induction l as [|y l IH]; simpl; [tauto|].
  rewrite filter_In, IH, negb_true_iff, eqb_str_neq.
  split; [tauto|]. intros [-> | H]; [auto|].
  destruct (list_eq_dec N.eq_dec y x); auto.
Qed.

Lemma unique_NoDup (l : list str) : NoDup (unique l).
Proof.
  induction l as [|y l IH]; simpl; constructor.
  - rewrite filter_In, negb_true_iff, eqb_str_neq. tauto.
  - apply NoDup_filter, IH.
Qed.

Lemma str_ltb_trichotomy (a b : str) :
  str_ltb a b = false -> str_ltb b a = false -> a = b.
Proof.
  revert b; induction a as [|x a IH]; intros [|y b]; simpl; try discriminate; auto.
  destruct (N.ltb_spec x y), (N.ltb_spec y x); try discriminate.
  intros H1 H2. f_equal; [lia | auto].
Qed.

Lemma str_ltb_irrefl (a : str) : str_ltb a a = false.
Proof.
  induction a as [|x a IH]; simpl; [reflexivity|].
  rewrite N.ltb_irrefl. exact IH.
Qed.

Lemma str_ltb_trans (a b c : str) :
  str_ltb a b = true -> str_ltb b c = true -> str_ltb a c = true.
Proof.
  revert b c; induction a as [|x a IH]; intros [|y b] [|z c]; simpl;
    try discriminate; auto.
  destruct (N.ltb_spec x y), (N.ltb_spec y x), (N.ltb_spec y z), (N.ltb_spec z y),
    (N.ltb_spec x z), (N.ltb_spec z x);
    try discriminate; try reflexivity; try lia; eauto.
Qed.

Lemma str_ltb_asym (a b : str) : str_ltb a b = true -> str_ltb b a = false.
Proof.
  intros H. destruct (str_ltb b a) eqn:E; [|reflexivity].
  pose proof (str_ltb_trans _ _ _ H E) as Ht.
  rewrite str_ltb_irrefl in Ht. discriminate.
Qed.

Lemma name_key_leb_spec (a b : str) :
  name_key_leb a b = true <-> a = b \/ name_lt a b.
Proof.
  unfold name_key_leb, name_lt.
  rewrite orb_true_iff, andb_true_iff, Nat.ltb_lt, Nat.eqb_eq, negb_true_iff. split.
  - intros [H | [Hlen Hlt]]; [auto|].
    destruct (str_ltb a b) eqn:E; [auto|].
    left. apply str_ltb_trichotomy; assumption.
  - intros [-> | [H | [Hlen Hlt]]]; [| auto |].
    + right. split; [reflexivity | apply str_ltb_irrefl].
    + right. split; [exact Hlen | apply str_ltb_asym, Hlt].
Qed.

Lemma name_key_leb_total (a b : str) :
  name_key_leb a b = false -> name_key_leb b a = true.
Proof.
  unfold name_key_leb.
  rewrite orb_false_iff, andb_false_iff, negb_false_iff, Nat.ltb_ge, Nat.eqb_neq.
  intros [Hlen H]. apply orb_true_iff.
  destruct (Nat.eq_dec (length a) (length b)) as [E | E].
  - right. rewrite E, Nat.eqb_refl. simpl. apply negb_true_iff.
    destruct H as [H | H]; [congruence | apply str_ltb_asym, H].
  - left. apply Nat.ltb_lt. lia.
Qed.

Lemma name_lt_trans (a b c : str) : name_lt a b -> name_lt b c -> name_lt a c.
Proof.
  unfold name_lt. intros [H1 | [E1 L1]] [H2 | [E2 L2]]; try (left; lia).
  right. split; [lia | eapply str_ltb_trans; eauto].
Qed.

Lemma name_key_leb_trans (a b c : str) :
  name_key_leb a b = true -> name_key_leb b c = true -> name_key_leb a c = true.
Proof.
  rewrite !name_key_leb_spec.
  intros [-> | H1] [-> | H2]; auto. right. eapply name_lt_trans; eauto.
Qed.

Section SortedBy.
Variable A : Type.
Variable leb : A -> A -> bool.
Hypothesis leb_total : forall a b, leb a b = false -> leb b a = true.
Hypothesis leb_trans : forall a b c, leb a b = true -> leb b c = true -> leb a c = true.

Lemma insert_by_perm (x : A) (l : list A) : Permutation (x :: l) (insert_by leb x l).
Proof.
  induction l as [|y t IH]; simpl; [apply Permutation_refl|].
  destruct (leb x y); [apply Permutation_refl|].
  eapply perm_trans; [apply perm_swap | constructor; exact IH].
Qed.

Lemma sorted_by_perm (l : list A) : Permutation l (sorted_by leb l).
Proof.
  induction l as [|x t IH]; simpl; [constructor|].
  eapply perm_trans; [constructor; exact IH | apply insert_by_perm].
Qed.

Lemma insert_by_sorted (x : A) (l : list A) :
  StronglySorted (fun a b => leb a b = true) l ->
  StronglySorted (fun a b => leb a b = true) (insert_by leb x l).
Proof.
  induction 1 as [|y t Hs IH Hy]; simpl; [constructor; constructor|].
  destruct (leb x y) eqn:E.
  - constructor; [constructor; assumption|].
    constructor; [exact E|].
    rewrite Forall_forall in *. intros z Hz. eapply leb_trans; eauto.
  - constructor; [exact IH|].
    rewrite Forall_forall in *. intros z Hz.
    apply (Permutation_in _ (Permutation_sym (insert_by_perm x t))) in Hz.
    destruct Hz as [<- | Hz]; [apply leb_total, E | auto].
Qed.

Lemma sorted_by_sorted (l : list A) :
  StronglySorted (fun a b => leb a b = true) (sorted_by leb l).
Proof.
  induction l as [|x t IH]; simpl; [constructor | apply insert_by_sorted, IH].
Qed.

End SortedBy.

Lemma sorted_names_strict (l : list str) :
  NoDup l ->
  StronglySorted (fun a b => name_key_leb a b = true) l ->
  StronglySorted name_lt l.
Proof.
  intros Hnd Hs. induction Hs as [|x l Hs IH Hx]; [constructor|].
  inversion Hnd as [|? ? Hnot Hnd']; subst.
  constructor; [apply IH, Hnd'|].
  rewrite Forall_forall in *. intros y Hy.
  destruct (proj1 (name_key_leb_spec x y) (Hx y Hy)) as [-> | H]; [contradiction | exact H].
Qed.

Section UniqueNames.
Context {U : Unicode}.

Lemma column_names_In (col : list value) (x : str) :
  In x (column_names col) <-> names_from col x.
Proof.
  unfold column_names, names_from. rewrite in_map_iff. split.
  - intros [s [<- Hs]]. apply unique_In, in_map_iff in Hs as [v [<- Hv]].
    apply filter_In in Hv as [Hv Hna]. apply negb_true_iff in Hna. eauto.
  - intros [v [Hv [Hna <-]]]. exists (astype_str v). split; [reflexivity|].
    apply unique_In, in_map. apply filter_In. rewrite Hna. auto.
Qed.

Lemma dict_get_Some_mem {V} (d : list (str * V)) (k : str) (v : V) :
  dict_get d k = Some v -> mem_str k (map fst d) = true.
Proof.
  intros H. destruct (mem_str k (map fst d)) eqn:E; [reflexivity|].
  assert (~ In k (map fst d)) by (rewrite <- mem_str_In; congruence).
  rewrite dict_get_not_In in H by assumption. discriminate.
Qed.

Lemma sorted_unique_names (names : list str) :
  let l := sorted_by name_key_leb (unique names) in
  NoDup l /\ StronglySorted name_lt l /\ forall x, In x l <-> In x names.
Proof.
  intros l.
  assert (Hperm : Permutation (unique names) l) by apply sorted_by_perm.
  assert (Hnd : NoDup l) by (eapply Permutation_NoDup; [exact Hperm | apply unique_NoDup]).
  split; [exact Hnd|]. split.
  - apply sorted_names_strict; [exact Hnd|].
    apply sorted_by_sorted; [apply name_key_leb_total | apply name_key_leb_trans].
  - intros x. rewrite <- (unique_In names x). split; apply Permutation_in;
      [apply Permutation_sym|]; exact Hperm.
Qed.

End UniqueNames.

(** X21.  [get_unique_names] on existing columns, the second one (when given)
    under a name that is not the empty string: the result holds exactly the
    lower-cased texts of the cells that are not missing, each once, by
    descending length and, within one length, in ascending order of the
    strings. *)
Theorem get_unique_names_sorted_distinct :
  forall (U : Unicode) (df : frame) (target_var : str) (target_var2 : option str)
         (col col2 : list value),
  dict_get df target_var = Some col ->
  match target_var2 with
  | None => col2 = []
  | Some t2 => t2 <> [] /\ dict_get df t2 = Some col2
  end ->
  exists l,
    get_unique_names df target_var target_var2
    = (length col + length col2, Return l)
    /\ NoDup l
    /\ StronglySorted name_lt l
    /\ forall x, In x l <-> names_from (col ++ col2) x.
Proof.
  intros U df t t2 col col2 Hcol H2. unfold get_unique_names.
  rewrite (dict_get_Some_mem _ _ Hcol), Hcol. cbn [negb].
  destruct t2 as [t2|].
  - destruct H2 as [Hne H2]. rewrite (dict_get_Some_mem _ _ H2), H2. cbn [negb].
    destruct t2 as [|c t2]; [congruence|]. cbn [truthy].
    destruct (sorted_unique_names (column_names col ++ column_names col2))
      as [Hnd [Hs Hin]].
    eexists. split; [reflexivity|]. split; [exact Hnd|]. split; [exact Hs|].
    intros x. rewrite Hin, in_app_iff, !column_names_In. unfold names_from.
    split.
    + intros [[v [Hv H]] | [v [Hv H]]]; exists v; rewrite in_app_iff; tauto.
    + intros [v [Hv H]]. apply in_app_iff in Hv as [Hv | Hv]; [left | right]; eauto.
  - subst col2. cbn [truthy]. rewrite Nat.add_0_r, app_nil_r.
    destruct (sorted_unique_names (column_names col)) as [Hnd [Hs Hin]].
    eexists. split; [reflexivity|]. split; [exact Hnd|]. split; [exact Hs|].
    intros x. rewrite Hin. apply column_names_In.
Qed.

(** C10.  A second column that exists under the empty name passes the check
    of line 27 and fails the test of line 34: its cells are left out. *)
Theorem get_unique_names_skips_empty_name :
  mem_str (u "") (map fst nameless_frame) = true
  /\ dict_get nameless_frame (u "") = Some [VStr (u "yy")]
  /\ @get_unique_names ucd_fragment nameless_frame (u "a") (Some (u ""))
     = (1, Return [u "x"])
  /\ @get_unique_names ucd_fragment nameless_frame (u "") (Some (u "a"))
     = (2, Return [u "yy"; u "x"]).
Proof. repeat split; vm_compute; reflexivity. Qed.

(* ================================================================== *)
(** ** [add_num_to_address] *)
(* ================================================================== *)

Lemma split_on_nonempty (sep : codepoint) (cur s : str) : split_on sep cur s <> [].
Proof.
  destruct s as [|c t]; simpl; [discriminate|].
  destruct (c =? sep)%N; [discriminate|].
  revert cur c. induction t as [|d t IH]; intros cur c; simpl; [discriminate|].
  destruct (d =? sep)%N; [discriminate | apply IH].
Qed.

Lemma join_split_on (cur s : str) : join (u ",") (split_on 44%N cur s) = cur ++ s.
Proof.
  revert cur; induction s as [|c t IH]; intros cur; cbn [split_on].
  - simpl. rewrite app_nil_r. reflexivity.
  - destruct (N.eqb_spec c 44) as [-> | Hc].
    + cbn [join]. destruct (split_on 44%N [] t) eqn:E.
      * exfalso. exact (split_on_nonempty _ _ _ E).
      * rewrite <- E, IH. reflexivity.
    + rewrite IH, <- app_assoc. reflexivity.
Qed.

Lemma split_on_head (s cur : str) :
  exists rest,
    split_on 44%N cur s = (cur ++ before_comma s) :: rest
    /\ forall x, join (u ",") (x :: rest) = x ++ from_comma s.
Proof.
  revert cur; induction s as [|c t IH]; intros cur; cbn [split_on].
  - exists []. split; [rewrite app_nil_r; reflexivity|].
    intros x. simpl. rewrite app_nil_r. reflexivity.
  - destruct (N.eqb_spec c 44) as [-> | Hc].
    + exists (split_on 44%N [] t). split; [rewrite app_nil_r; reflexivity|].
      intros x. unfold from_comma, before_comma. cbn [take_while N.eqb negb].
      cbn [length skipn join].
      destruct (split_on 44%N [] t) eqn:E.
      * exfalso. exact (split_on_nonempty _ _ _ E).
      * rewrite <- E, join_split_on. reflexivity.
    + destruct (IH (cur ++ [c])) as [rest [Hs Hj]]. exists rest. split.
      * rewrite Hs, <- app_assoc. unfold before_comma. cbn [take_while].
        rewrite (proj2 (N.eqb_neq c 44) Hc). reflexivity.
      * intros x. rewrite Hj. unfold from_comma, before_comma. cbn [take_while].
        rewrite (proj2 (N.eqb_neq c 44) Hc). reflexivity.
Qed.

(** X1.  An address that holds a digit is returned as it is; in one that
    holds none, [" 1"] is put after the text before the first comma (at the
    end when there is no comma) and nothing else changes. *)
Theorem add_num_to_address_inserts_before_first_comma :
  forall (is_digit : codepoint -> bool) (address : str),
  add_num_to_address is_digit address
  = if has_digit is_digit address then address
    else before_comma address ++ u " 1" ++ from_comma address.
Proof.
  intros is_digit address. unfold add_num_to_address.
  destruct (has_digit is_digit address); [reflexivity|]. cbn [negb].
  destruct (split_on_head address []) as [rest [-> Hj]].
  rewrite Hj, <- app_assoc. reflexivity.
Qed.

(** X2.  When [1] is a digit for [\d], the result always holds a digit, and
    a second call changes nothing. *)
Theorem add_num_to_address_idempotent :
  forall (is_digit : codepoint -> bool) (address : str),
  is_digit 49%N = true ->
  has_digit is_digit (add_num_to_address is_digit address) = true
  /\ add_num_to_address is_digit (add_num_to_address is_digit address)
     = add_num_to_address is_digit address.
Proof.
  intros is_digit address H1.
  assert (Hd : has_digit is_digit (add_num_to_address is_digit address) = true).
  { unfold add_num_to_address.
    destruct (has_digit is_digit address) eqn:E; [exact E|]. cbn [negb].
    destruct (split_on_head address []) as [rest [-> Hj]]. rewrite Hj.
    unfold has_digit. rewrite !existsb_app. cbn. rewrite H1.
    rewrite !orb_true_r. reflexivity. }
  split; [exact Hd|].
  unfold add_num_to_address at 1. rewrite Hd. reflexivity.
Qed.

Lemma add_num_to_address_idempotent_witness :
  ucd_digit 49%N = true
  /\ add_num_to_address ucd_digit (u "calle mayor, madrid") = u "calle mayor 1, madrid"
  /\ add_num_to_address ucd_digit (add_num_to_address ucd_digit (u "calle mayor, madrid"))
     = add_num_to_address ucd_digit (u "calle mayor, madrid").
Proof.
  split; [reflexivity|]. split; [vm_compute; reflexivity|].
  apply (add_num_to_address_idempotent ucd_digit (u "calle mayor, madrid")).
  reflexivity.
Defined.

(* ================================================================== *)
(** ** [remove_accents]: the characters of the result *)
(* ================================================================== *)

Lemma protect_fold_placeholders {U : Unicode} (l : list (nat * str)) (s : str)
  (phs : list (str * str)) :
  snd (fold_left protect_step l (s, phs))
  = phs ++ map (fun ic => (placeholder (fst ic), snd ic)) l.
Proof.
  revert s phs; induction l as [|[i ch] l IH]; intros s phs; simpl.
  - rewrite app_nil_r. reflexivity.
  - rewrite IH, <- app_assoc. reflexivity.
Qed.

Lemma restore_fold_chars (phs : list (str * str)) (s : str) (c : codepoint) :
  (forall p, In p phs -> fst p <> []) ->
  In c (fold_left restore_step phs s) ->
  In c s \/ exists p, In p phs /\ In c (snd p).
Proof.
  revert s; induction phs as [|p phs IH]; intros s Hne Hc; [auto|].
  cbn [fold_left] in Hc. apply IH in Hc; [|intros; apply Hne; right; assumption].
  destruct Hc as [Hc | [q [Hq Hc]]].
  - unfold restore_step in Hc. apply replace_chars in Hc; [|apply Hne; left; reflexivity].
    destruct Hc as [Hc | Hc]; [auto|]. right. exists p. split; [left; reflexivity | exact Hc].
  - right. exists q. split; [right; exact Hq | exact Hc].
Qed.

(** X3.  Whatever the input and whatever the list of protected strings, the
    result of [remove_accents] holds only ASCII characters and characters of
    the protected strings. *)
Theorem remove_accents_with_result_characters :
  forall (U : Unicode) (protected_chars : list str) (input_str : str),
  Forall (fun c => is_ascii c = true \/ exists p, In p protected_chars /\ In c p)
    (remove_accents_with protected_chars input_str).
Proof.
  intros U protected_chars input_str. apply Forall_forall. intros c.
  unfold remove_accents_with.
  pose proof (protect_fold_placeholders (enumerate protected_chars)
                (py_lower input_str) []) as Hphs.
  destruct (fold_left protect_step (enumerate protected_chars) (py_lower input_str, []))
    as [s1 phs]. cbn [snd app] in Hphs. subst phs.
  intros Hc. apply restore_fold_chars in Hc.
  - destruct Hc as [Hc | [p [Hp Hc]]].
    + left. unfold encode_ascii_ignore in Hc. apply filter_In in Hc. tauto.
    + right. apply in_map_iff in Hp as [[i ch] [<- Hin]]. exists ch. split; [|exact Hc].
      unfold enumerate in Hin. apply in_combine_r in Hin. exact Hin.
  - intros p [[i ch] [<- _]]%in_map_iff. discriminate.
Qed.

(** X4.  Text made of ASCII characters and the four protected characters
    is only put in lower case: digits, punctuation, spaces and protected
    characters stay as they are and the length is kept. *)
Theorem remove_accents_ascii_text_lowercased :
  forall (U : Unicode) (laws : UnicodeLaws U) (s : str),
  forallb (fun c => is_ascii c || is_protected c) s = true ->
  remove_accents s = map ascii_lower s
  /\ length (remove_accents s) = length s.
Proof.
  intros U laws s Hs.
  assert (H : remove_accents s = map ascii_lower s).
  { rewrite remove_accents_unfold, (lower_ascii_protected laws) by exact Hs.
    apply (fold_fixed laws).
    - apply forallb_forall. intros c [d [<- Hd]]%in_map_iff.
      rewrite forallb_forall in Hs. specialize (Hs d Hd).
      apply orb_true_iff in Hs as [Ha | Hp].
      + apply orb_true_iff. left. unfold is_ascii, ascii_lower, is_ascii_upper in *.
        apply N.ltb_lt in Ha. apply N.ltb_lt.
        destruct (N.leb_spec 65 d), (N.leb_spec d 90); simpl; lia.
      + apply is_protected_cases in Hp as [-> | [-> | [-> | ->]]]; reflexivity.
    - intros [d [Hd _]]%in_map_iff. exact (ascii_lower_not_P d Hd). }
  split; [exact H|]. rewrite H. apply length_map.
Qed.

Lemma remove_accents_ascii_text_lowercased_witness :
  forallb (fun c => is_ascii c || is_protected c) (u "C/ Peña, 3º Izq.") = true
  /\ @remove_accents ucd_fragment (u "C/ Peña, 3º Izq.") = u "c/ peña, 3º izq.".
Proof.
  assert (H : forallb (fun c => is_ascii c || is_protected c) (u "C/ Peña, 3º Izq.") = true)
    by (vm_compute; reflexivity).
  split; [exact H|].
  rewrite (proj1 (@remove_accents_ascii_text_lowercased ucd_fragment ucd_fragment_laws
                    (u "C/ Peña, 3º Izq.") H)).
  vm_compute. reflexivity.
Defined.

(* ================================================================== *)
(** ** [preprocess_text]: words separated by single spaces *)
(* ================================================================== *)

Section Words.
Context {U : Unicode}.
Hypothesis space_is_space : is_space 32%N = true.

Lemma rstrip_snoc (y : str) (c : codepoint) :
  rstrip (y ++ [c]) = if is_space c then rstrip y else y ++ [c].
Proof.
  unfold rstrip. rewrite rev_app_distr. cbn [rev app lstrip].
  destruct (is_space c); [reflexivity|].
  cbn [rev]. rewrite rev_involutive. reflexivity.
Qed.

Lemma sub_spaces_true (t : str) : sub_spaces true t = sub_spaces false (lstrip t).
Proof.
  induction t as [|c t IH]; [reflexivity|]. cbn [sub_spaces lstrip].
  destruct (is_space c) eqn:E; [exact IH|].
  cbn [sub_spaces]. rewrite E. reflexivity.
Qed.

Lemma split_ws_lstrip (t : str) : split_ws [] t = split_ws [] (lstrip t).
Proof.
  induction t as [|c t IH]; [reflexivity|]. cbn [split_ws lstrip].
  destruct (is_space c) eqn:E; [exact IH|].
  cbn [split_ws]. rewrite E. reflexivity.
Qed.

Lemma split_ws_nonempty (x cur : str) : cur <> [] -> split_ws cur x <> [].
Proof.
  revert cur; induction x as [|c t IH]; intros cur Hcur; cbn [split_ws].
  - destruct cur; [congruence | discriminate].
  - destruct (is_space c).
    + destruct cur; [congruence | discriminate].
    + apply IH. destruct cur; discriminate.
Qed.

Lemma split_ws_wordlike (x cur : str) :
  nospace cur -> Forall wordlike (split_ws cur x).
Proof.
  revert cur; induction x as [|c t IH]; intros cur Hcur; cbn [split_ws].
  - destruct cur; constructor; [split; [discriminate | exact Hcur] | constructor].
  - destruct (is_space c) eqn:E.
    + destruct cur; [apply IH; intros ? []|].
      constructor; [split; [discriminate | exact Hcur]|]. apply IH. intros ? [].
    + apply IH. intros d [Hd | Hd]%in_app_or; [auto|].
      destruct Hd as [<- | []]. exact E.
Qed.

Lemma join_cons (w : str) (ws : list str) :
  ws <> [] -> join (u " ") (w :: ws) = w ++ 32%N :: join (u " ") ws.
Proof. destruct ws; [congruence | reflexivity]. Qed.

(** Collapsing the white space of [x] gives its words joined by single
    spaces, after the word being read ([sub_spaces_words]) or after a word
    and the space that follows it ([sub_spaces_after_word]), and a last
    space when [x] ends with white space. *)
Lemma sub_spaces_words_both (x : str) :
  (forall cur, cur <> [] ->
     cur ++ sub_spaces false x = join (u " ") (split_ws cur x) ++ trail x)
  /\ (forall w, w <> [] ->
        w ++ 32%N :: sub_spaces true x
        = join (u " ") (w :: split_ws [] x)
          ++ match x with [] => [32%N] | _ :: _ => trail x end).
Proof.
  induction x as [|c t [IHa IHb]]; split.
  - intros cur Hcur. destruct cur; [congruence|].
    simpl. rewrite !app_nil_r. reflexivity.
  - intros w Hw. reflexivity.
  - intros cur Hcur. cbn [sub_spaces split_ws].
    assert (Ht : trail (c :: t)
                 = match t with
                   | [] => if is_space c then [32%N] else []
                   | _ :: _ => trail t
                   end) by (unfold trail; destruct t; reflexivity).
    rewrite Ht. destruct (is_space c) eqn:E.
    + destruct cur as [|c0 cur]; [congruence|].
      apply IHb. discriminate.
    + transitivity ((cur ++ [c]) ++ sub_spaces false t);
        [rewrite <- app_assoc; reflexivity|].
      etransitivity; [apply IHa; destruct cur; discriminate|].
      destruct t; reflexivity.
  - intros w Hw. cbn [sub_spaces split_ws].
    assert (Ht : trail (c :: t)
                 = match t with
                   | [] => if is_space c then [32%N] else []
                   | _ :: _ => trail t
                   end) by (unfold trail; destruct t; reflexivity).
    rewrite Ht. destruct (is_space c) eqn:E.
    + apply IHb. exact Hw.
    + change (split_ws ([] ++ [c]) t) with (split_ws [c] t).
      rewrite join_cons by (apply split_ws_nonempty; discriminate).
      transitivity (w ++ 32%N :: (join (u " ") (split_ws [c] t) ++ trail t)).
      * do 2 f_equal. apply (IHa [c]). discriminate.
      * rewrite <- app_assoc. cbn [app]. destruct t; reflexivity.
Qed.

Lemma join_last (ws : list str) :
  ws <> [] -> Forall wordlike ws ->
  exists P d, join (u " ") ws = P ++ [d] /\ is_space d = false.
Proof.
  intros Hne H. induction H as [|w ws [Hw Hsp] Hws IH]; [congruence|].
  destruct ws as [|w' ws].
  - destruct (exists_last Hw) as [P [d ->]]. exists P, d. split; [reflexivity|].
    apply Hsp, in_or_app. right. left. reflexivity.
  - destruct IH as [P [d [HP Hd]]]; [discriminate|].
    rewrite join_cons by discriminate. rewrite HP.
    exists (w ++ 32%N :: P), d. split; [|exact Hd].
    rewrite <- app_assoc. reflexivity.
Qed.

Lemma rstrip_join (ws : list str) :
  Forall wordlike ws -> rstrip (join (u " ") ws) = join (u " ") ws.
Proof.
  intros H. destruct ws as [|w ws]; [reflexivity|].
  destruct (@join_last (w :: ws)) as [P [d [-> Hd]]]; [discriminate | exact H |].
  rewrite rstrip_snoc, Hd. reflexivity.
Qed.

Lemma lstrip_join (ws : list str) :
  Forall wordlike ws -> lstrip (join (u " ") ws) = join (u " ") ws.
Proof.
  intros H. destruct ws as [|w ws]; [reflexivity|].
  inversion H as [|? ? [Hw Hsp] Hws]; subst.
  destruct w as [|c w]; [congruence|].
  assert (E : is_space c = false) by (apply Hsp; left; reflexivity).
  destruct ws; cbn [join app lstrip]; rewrite E; reflexivity.
Qed.

Lemma strip_join (ws : list str) :
  Forall wordlike ws -> strip (join (u " ") ws) = join (u " ") ws.
Proof.
  intros H. unfold strip. rewrite lstrip_join by exact H.
  apply (rstrip_join H).
Qed.

Lemma lstrip_sub_spaces (x : str) :
  lstrip (sub_spaces false x) = sub_spaces false (lstrip x).
Proof.
  induction x as [|c t IH]; [reflexivity|]. cbn [sub_spaces lstrip].
  destruct (is_space c) eqn:E.
  - cbn [lstrip]. rewrite space_is_space, sub_spaces_true.
    destruct (lstrip t) as [|d y] eqn:Ey; [reflexivity|].
    assert (Hd : is_space d = false).
    { clear IH. induction t as [|e t IHt]; [discriminate|].
      cbn [lstrip] in Ey. destruct (is_space e) eqn:Ee; [auto|].
      inversion Ey; subst. exact Ee. }
    cbn [sub_spaces]. rewrite Hd. cbn [lstrip]. rewrite Hd. reflexivity.
  - cbn [lstrip sub_spaces]. rewrite E. reflexivity.
Qed.

(** Collapsing and stripping a text gives its words joined by single
    spaces. *)
Lemma strip_sub_spaces (x : str) :
  strip (sub_spaces false x) = join (u " ") (split_ws [] x).
Proof.
  unfold strip. rewrite lstrip_sub_spaces, (split_ws_lstrip x).
  destruct (lstrip x) as [|c t] eqn:Ey; [reflexivity|].
  assert (Hc : is_space c = false).
  { clear -Ey. induction x as [|e x IHx]; [discriminate|].
    cbn [lstrip] in Ey. destruct (is_space e) eqn:Ee; [auto|].
    inversion Ey; subst. exact Ee. }
  cbn [sub_spaces split_ws]. rewrite Hc.
  change (c :: sub_spaces false t) with ([c] ++ sub_spaces false t).
  rewrite (proj1 (sub_spaces_words_both t)) by discriminate.
  change (split_ws ([] ++ [c]) t) with (split_ws [c] t).
  assert (Hw : Forall wordlike (split_ws [c] t)).
  { apply split_ws_wordlike. intros d [<- | []]. exact Hc. }
  unfold trail. destruct (ends_with_space t).
  - change (rev (lstrip (rev ?a))) with (rstrip a).
    rewrite rstrip_snoc, space_is_space. apply rstrip_join, Hw.
  - rewrite app_nil_r. apply (rstrip_join Hw).
Qed.

Lemma split_ws_app_word (w y cur : str) :
  nospace w -> split_ws cur (w ++ y) = split_ws (cur ++ w) y.
Proof.
  revert cur; induction w as [|c w IH]; intros cur Hw.
  - rewrite app_nil_r. reflexivity.
  - cbn [app split_ws]. rewrite (Hw c) by (left; reflexivity).
    rewrite IH by (intros d Hd; apply Hw; right; exact Hd).
    rewrite <- app_assoc. reflexivity.
Qed.

(** Splitting words joined by single spaces gives the words back. *)
Lemma split_ws_join (ws : list str) :
  Forall wordlike ws -> split_ws [] (join (u " ") ws) = ws.
Proof.
  induction 1 as [|w ws [Hw Hsp] Hws IH]; [reflexivity|].
  destruct ws as [|w' ws].
  - cbn [join]. rewrite <- (app_nil_r w) at 1.
    rewrite split_ws_app_word by exact Hsp. cbn [app split_ws].
    destruct w; [congruence | reflexivity].
  - rewrite join_cons by discriminate.
    rewrite split_ws_app_word by exact Hsp. cbn [app split_ws].
    rewrite space_is_space, IH. destruct w; [congruence | reflexivity].
Qed.

(** Collapsing white space does not change the words. *)
Lemma split_ws_sub_spaces_both (x : str) :
  (forall cur, split_ws cur (sub_spaces false x) = split_ws cur x)
  /\ split_ws [] (sub_spaces true x) = split_ws [] x.
Proof.
  induction x as [|c t [IHa IHb]]; [split; reflexivity|].
  split; [intros cur|]; cbn [sub_spaces split_ws]; destruct (is_space c) eqn:E.
  - cbn [split_ws]. rewrite space_is_space, IHb. reflexivity.
  - cbn [split_ws]. rewrite E. apply IHa.
  - exact IHb.
  - cbn [split_ws]. rewrite E. apply IHa.
Qed.

End Words.

Section PreprocessWords.
Context {U : Unicode}.
Hypothesis space_is_space : is_space 32%N = true.

Lemma split_ws_chars (x cur w : str) (c : codepoint) :
  In w (split_ws cur x) -> In c w -> In c cur \/ In c x.
Proof.
  revert cur; induction x as [|d t IH]; intros cur Hw Hc; cbn [split_ws] in Hw.
  - destruct cur; [destruct Hw|]. destruct Hw as [<- | []]. auto.
  - destruct (is_space d).
    + destruct cur as [|c0 cur].
      * destruct (IH _ Hw Hc) as [[] | H]. right. right. exact H.
      * destruct Hw as [<- | Hw]; [auto|].
        destruct (IH _ Hw Hc) as [[] | H]. right. right. exact H.
    + destruct (IH _ Hw Hc) as [H | H]; [|right; right; exact H].
      apply in_app_or in H as [H | [<- | []]]; [auto | right; left; reflexivity].
Qed.

Lemma sub_punctuation_chars (t : str) (c : codepoint) :
  In c (sub_punctuation t) -> is_punctuation c = false.
Proof.
  unfold sub_punctuation. intros [d [<- _]]%in_map_iff. unfold is_punctuation.
  destruct ((d =? 45)%N || (d =? 46)%N || (d =? 47)%N) eqn:E; [reflexivity | exact E].
Qed.

(** What [preprocess_text] returns: the words of the cleaned text, without
    the prepositions when a non-empty list is given, joined by single
    spaces. *)
Lemma preprocess_text_join (text : str) (ignore_prepositions : option (list str)) :
  preprocess_text text ignore_prepositions
  = join (u " ")
      (match ignore_prepositions with
       | Some (p :: ps) => filter (kept (p :: ps)) (split_ws [] (cleaned text))
       | _ => split_ws [] (cleaned text)
       end).
Proof.
  unfold preprocess_text. fold (cleaned text).
  destruct ignore_prepositions as [[|p ps]|];
    try (apply (strip_sub_spaces space_is_space)).
  rewrite (proj1 (split_ws_sub_spaces_both space_is_space (cleaned text))).
  apply strip_join.
  apply Forall_forall. intros w [Hw _]%filter_In.
  assert (H : Forall wordlike (split_ws [] (cleaned text)))
    by (apply split_ws_wordlike; intros ? []).
  rewrite Forall_forall in H. auto.
Qed.

End PreprocessWords.

(** X5.  With the space a white-space character, the result of
    [preprocess_text] is its own words joined by single spaces: no white
    space at either end, none doubled.  No word is empty, and no word holds
    white space or one of the characters [-], [.], [/]. *)
Theorem preprocess_text_single_spaced_words :
  forall (U : Unicode) (text : str) (ignore_prepositions : option (list str)),
  is_space 32%N = true ->
  let result := preprocess_text text ignore_prepositions in
  result = join (u " ") (split_ws [] result)
  /\ Forall (fun w => wordlike w /\ forall c, In c w -> is_punctuation c = false)
       (split_ws [] result).
Proof.
  intros U text ig Hsp result.
  set (ws := match ig with
             | Some (p :: ps) => filter (kept (p :: ps)) (split_ws [] (cleaned text))
             | _ => split_ws [] (cleaned text)
             end).
  assert (Hres : result = join (u " ") ws) by apply (preprocess_text_join Hsp).
  assert (Hall : Forall wordlike (split_ws [] (cleaned text)))
    by (apply split_ws_wordlike; intros ? []).
  assert (Hsub : forall w, In w ws -> In w (split_ws [] (cleaned text))).
  { intros w Hw. unfold ws in Hw. destruct ig as [[|p ps]|]; try exact Hw.
    apply filter_In in Hw. tauto. }
  assert (Hws : Forall wordlike ws).
  { apply Forall_forall. intros w Hw. rewrite Forall_forall in Hall. auto. }
  assert (Hsplit : split_ws [] result = ws)
    by (rewrite Hres; apply (split_ws_join Hsp Hws)).
  rewrite Hsplit. split; [exact Hres|].
  apply Forall_forall. intros w Hw. split.
  - rewrite Forall_forall in Hws. auto.
  - intros c Hc. destruct (split_ws_chars _ _ _ _ (Hsub w Hw) Hc) as [[] | H].
    apply (sub_punctuation_chars _ _ H).
Qed.

Lemma preprocess_text_single_spaced_words_witness :
  @is_space ucd_fragment 32%N = true
  /\ @preprocess_text ucd_fragment (u "  C/ Dr. Martínez  de-la riva ") None
     = u "c doctor martinez de la riva"
  /\ @preprocess_text ucd_fragment (u "  C/ Dr. Martínez  de-la riva ") None
     = join (u " ")
         (@split_ws ucd_fragment []
            (@preprocess_text ucd_fragment (u "  C/ Dr. Martínez  de-la riva ") None)).
Proof.
  split; [reflexivity|]. split; [vm_compute; reflexivity|].
  apply (@preprocess_text_single_spaced_words ucd_fragment
           (u "  C/ Dr. Martínez  de-la riva ") None).
  reflexivity.
Defined.

(** X6.  Giving prepositions only removes words: the words of the result
    with the list [prepositions] are the words of the result without a
    list, minus those whose lower case is in the list, in the same order;
    there are never more of them. *)
Theorem preprocess_text_prepositions_filter_words :
  forall (U : Unicode) (text : str) (prepositions : list str),
  is_space 32%N = true ->
  split_ws [] (preprocess_text text (Some prepositions))
  = filter (kept prepositions) (split_ws [] (preprocess_text text None))
  /\ length (split_ws [] (preprocess_text text (Some prepositions)))
     <= length (split_ws [] (preprocess_text text None)).
Proof.
  intros U text prepositions Hsp.
  assert (Hall : Forall wordlike (split_ws [] (cleaned text)))
    by (apply split_ws_wordlike; intros ? []).
  assert (Hnone : split_ws [] (preprocess_text text None) = split_ws [] (cleaned text)).
  { rewrite (preprocess_text_join Hsp). apply (split_ws_join Hsp Hall). }
  assert (Hsome : split_ws [] (preprocess_text text (Some prepositions))
                  = filter (kept prepositions) (split_ws [] (cleaned text))).
  { rewrite (preprocess_text_join Hsp). destruct prepositions as [|p ps].
    - rewrite (split_ws_join Hsp Hall). symmetry.
      apply filter_all. apply forallb_forall. reflexivity.
    - apply (split_ws_join Hsp). apply Forall_forall. intros w [Hw _]%filter_In.
      rewrite Forall_forall in Hall. auto. }
  rewrite Hsome, Hnone. split; [reflexivity | apply filter_length_le].
Qed.

Lemma preprocess_text_prepositions_filter_words_witness :
  @is_space ucd_fragment 32%N = true
  /\ @split_ws ucd_fragment []
       (@preprocess_text ucd_fragment (u "A la calle de La Paloma")
          (Some [u "a"; u "la"; u "de"]))
     = [u "calle"; u "paloma"]
  /\ @split_ws ucd_fragment []
       (@preprocess_text ucd_fragment (u "A la calle de La Paloma")
          (Some [u "a"; u "la"; u "de"]))
     = filter (@kept ucd_fragment [u "a"; u "la"; u "de"])
         (@split_ws ucd_fragment []
            (@preprocess_text ucd_fragment (u "A la calle de La Paloma") None)).
Proof.
  split; [reflexivity|]. split; [vm_compute; reflexivity|].
  apply (@preprocess_text_prepositions_filter_words ucd_fragment
           (u "A la calle de La Paloma") [u "a"; u "la"; u "de"]).
  reflexivity.
Defined.

(* ================================================================== *)
(** ** [correct_spelling]: tokens, dictionaries without a match, order *)
(* ================================================================== *)

(** X7.  Every token of the tokenizer is a single period or a non-empty run
    of characters of the class [[\w'-]]; there are at most as many tokens as
    characters. *)
Theorem tokenize_token_shape :
  forall (U : Unicode) (s : str),
  (forall t, In t (tokenize s) ->
     t = [46%N] \/ (t <> [] /\ forallb in_class t = true))
  /\ length (tokenize s) <= length s.
Proof.
  intros U s. unfold tokenize.
  assert (H : forall fuel prev x,
             (forall t, In t (findall_tokens fuel prev x) ->
                t = [46%N] \/ (t <> [] /\ forallb in_class t = true))
             /\ length (findall_tokens fuel prev x) <= fuel).
  { induction fuel as [|f IH]; intros prev x; [split; [intros ? [] | simpl; lia]|].
    cbn [findall_tokens]. destruct x as [|c t]; [split; [intros ? [] | simpl; lia]|].
    set (run := take_while in_class (c :: t)).
    destruct (word_boundary prev (Some c) && negb (length run =? 0)) eqn:E.
    - destruct (IH (last_char prev run) (skipn (length run) (c :: t))) as [IH1 IH2].
      split; [|cbn [length]; apply le_n_S, IH2].
      intros tok [<- | Htok]; [|auto]. right.
      apply andb_true_iff in E as [_ E]. apply negb_true_iff, Nat.eqb_neq in E.
      split; [destruct run; simpl in E; congruence|].
      apply forallb_forall. intros d Hd.
      pose proof (take_while_all in_class (c :: t)) as Hall.
      rewrite Forall_forall in Hall. auto.
    - destruct (N.eqb_spec c 46) as [-> | Hc].
      + destruct (IH (Some 46%N) t) as [IH1 IH2]. split; [|simpl; apply le_n_S, IH2].
        intros tok [<- | Htok]; auto.
      + destruct (IH (Some c) t) as [IH1 IH2]. split; [exact IH1 | apply le_S, IH2]. }
  destruct (H (length s) None s). auto.
Qed.

Lemma first_match_none {U : Unicode} (words : list str) (i : nat)
  (ms : list (str * str)) :
  (forall k c, In (k, c) ms -> matches_at words i k = false) ->
  first_match words i ms = None.
Proof.
  induction ms as [|[k c] ms IH]; intros H; [reflexivity|].
  cbn [first_match]. rewrite (H k c) by (left; reflexivity).
  apply IH. intros; eapply H; right; eauto.
Qed.

Lemma skipn_nth {A} (l : list A) (i : nat) (d : A) :
  i < length l -> skipn i l = nth i l d :: skipn (S i) l.
Proof.
  revert i; induction l as [|x l IH]; intros i Hi; simpl in Hi; [lia|].
  destruct i; [reflexivity|]. cbn [skipn nth]. apply IH. lia.
Qed.

Lemma correct_loop_step {U : Unicode} (f : nat) (words : list str)
  (ms : list (str * str)) (i : nat) (acc : list str) :
  correct_loop (S f) words ms i acc
  = if i <? length words then
      match first_match words i ms with
      | Some (misspelled, correct) =>
        correct_loop f words ms (i + misspelled_len misspelled) (acc ++ [correct])
      | None => correct_loop f words ms (i + 1) (acc ++ [nth i words []])
      end
    else Some acc.
Proof. reflexivity. Qed.

Lemma correct_loop_no_match {U : Unicode} (words : list str) (ms : list (str * str)) :
  (forall i, first_match words i ms = None) ->
  forall n i corrected_words,
    length words - i <= n ->
    correct_loop (S n) words ms i corrected_words
    = Some (corrected_words ++ skipn i words).
Proof.
  intros Hnone. induction n as [|n IH]; intros i acc Hn; rewrite correct_loop_step.
  - replace (i <? length words) with false by (symmetry; apply Nat.ltb_ge; lia).
    rewrite skipn_all2 by lia. rewrite app_nil_r. reflexivity.
  - destruct (i <? length words) eqn:Hi.
    + apply Nat.ltb_lt in Hi. rewrite Hnone, IH by lia.
      rewrite (skipn_nth words [] Hi), <- app_assoc, Nat.add_1_r. reflexivity.
    + apply Nat.ltb_ge in Hi. rewrite skipn_all2 by lia.
      rewrite app_nil_r. reflexivity.
Qed.

(** X8.  When no key of the dictionary matches at any position (so with the
    empty dictionary), [correct_spelling] returns the tokens of the
    normalised street name joined by single spaces, after one iteration per
    token. *)
Theorem correct_spelling_without_match :
  forall (U : Unicode) (street_name : str) (misspellings : list (str * str)),
  let words := tokenize (normalize_street street_name) in
  (forall k c i, In (k, c) misspellings -> matches_at words i k = false) ->
  correct_spelling_fuel (S (length words)) street_name misspellings
  = Some (join (u " ") words)
  /\ correct_spelling_fuel (S (length words)) street_name []
     = Some (join (u " ") words).
Proof.
  intros U street_name misspellings words Hno.
  assert (H : forall d, (forall k c i, In (k, c) d -> matches_at words i k = false) ->
              correct_spelling_fuel (S (length words)) street_name d
              = Some (join (u " ") words)).
  { intros d Hd. unfold correct_spelling_fuel. fold words.
    rewrite correct_loop_no_match; [reflexivity | | lia].
    intros i. apply first_match_none. intros k c Hin.
    apply sorted_desc_In in Hin. eauto. }
  split; [apply H, Hno | apply H; intros ? ? ? []].
Qed.

Lemma correct_spelling_without_match_witness :
  @correct_spelling_fuel ucd_fragment 3 (u "Gran Vía") ortega_dict = Some (u "gran via").
Proof.
  refine (proj1 (@correct_spelling_without_match ucd_fragment (u "Gran Vía") ortega_dict _)).
  intros k c i Hin. simpl in Hin.
  repeat (destruct Hin as [Hin | Hin]; [inversion Hin; subst k c; clear Hin|]);
    try contradiction;
    (destruct i as [|[|i]]; [vm_compute; reflexivity | vm_compute; reflexivity |]);
    unfold matches_at; apply andb_false_iff; left; apply Nat.leb_gt;
    match goal with
    | |- ?l < _ + ?n =>
      let v := eval vm_compute in l in
      let w := eval vm_compute in n in
      change l with v; change n with w
    end; lia.
Defined.

(** X9.  The empty street name gives the empty string whatever the
    dictionary, the empty key included: the loop is not entered. *)
Theorem correct_spelling_empty_street_name :
  forall (U : Unicode) (laws : UnicodeLaws U) (misspellings : list (str * str)),
  correct_spelling_fuel 1 [] misspellings = Some [].
Proof.
  intros U laws misspellings. unfold correct_spelling_fuel.
  assert (Hn : normalize_street [] = []).
  { unfold normalize_street.
    rewrite (lower_ascii_protected laws []) by reflexivity. cbn [map].
    change (replace [96%N] [39%N] (replace [180%N] [39%N] [])) with (@nil codepoint).
    rewrite remove_accents_unfold, (lower_ascii_protected laws []) by reflexivity.
    cbn [map]. change (protect4 []) with (@nil codepoint).
    rewrite (nfkd_ascii laws []) by reflexivity. reflexivity. }
  rewrite Hn. reflexivity.
Qed.

Lemma correct_spelling_empty_street_name_witness :
  @correct_spelling_fuel ucd_fragment 1 [] [(u "", u "x"); (u "dr", u "doctor")] = Some [].
Proof. apply (@correct_spelling_empty_street_name ucd_fragment ucd_fragment_laws). Defined.

Lemma correct_spelling_terminates_without_empty_key_witness :
  (forall k c, In (k, c) ortega_dict -> k <> [])
  /\ exists out,
       @correct_spelling_fuel ucd_fragment
         (S (length (@tokenize ucd_fragment (@normalize_street ucd_fragment
                                                (u "Dr Ortega y Gasset")))))
         (u "Dr Ortega y Gasset") ortega_dict = Some out.
Proof.
  assert (H : forall k c, In (k, c) ortega_dict -> k <> []).
  { intros k c Hin. simpl in Hin.
    repeat (destruct Hin as [Hin | Hin]; [inversion Hin; subst; discriminate|]).
    contradiction. }
  split; [exact H|].
  apply (@correct_spelling_terminates_without_empty_key ucd_fragment
           (u "Dr Ortega y Gasset") ortega_dict H).
Defined.

Section DictionaryOrder.
Context {U : Unicode}.
Hypothesis laws : UnicodeLaws U.
Variable words : list str.
Hypothesis words_solid : Forall solid words.
Variables d d' : list (str * str).
Hypothesis keys_distinct : NoDup (map fst d).
Hypothesis same_entries : Permutation d d'.

Lemma first_match_chosen (i : nat) (e : str * str) (dict : list (str * str)) :
  Permutation d dict ->
  first_match words i (sort_misspellings dict) = Some e ->
  In e d /\ matches_at words i (fst e) = true
  /\ forall e2, In e2 d -> matches_at words i (fst e2) = true ->
                key_length e2 <= key_length e.
Proof.
  intros Hperm Hfm.
  destruct (first_match_In _ _ _ Hfm) as [Hin Hm].
  apply sorted_desc_In in Hin.
  split; [apply (Permutation_in _ (Permutation_sym Hperm)), Hin|].
  split; [exact Hm|].
  intros e2 He2 Hm2.
  destruct (first_match_sorted words i e2
              (sorted_desc_sorted key_length dict)) as [e' [Hfm' Hle]].
  - apply sorted_desc_In. apply (Permutation_in _ Hperm), He2.
  - exact Hm2.
  - assert (He : Some e = Some e')
      by (rewrite <- Hfm; exact Hfm').
    inversion He; subst. exact Hle.
Qed.

Lemma first_match_permutation (i : nat) :
  first_match words i (sort_misspellings d) = first_match words i (sort_misspellings d').
Proof.
  destruct (first_match words i (sort_misspellings d)) as [e|] eqn:E1;
    destruct (first_match words i (sort_misspellings d')) as [e'|] eqn:E2;
    try reflexivity.
  - destruct (@first_match_chosen i _ _ (Permutation_refl d) E1) as [Hin [Hm Hmax]].
    destruct (@first_match_chosen i _ _ same_entries E2) as [Hin' [Hm' Hmax']].
    pose proof (Hmax _ Hin' Hm') as Hle1. pose proof (Hmax' _ Hin Hm) as Hle2.
    unfold key_length in Hle1, Hle2.
    assert (Hcount : misspelled_len (fst e) = misspelled_len (fst e')).
    { destruct (Nat.lt_trichotomy (misspelled_len (fst e)) (misspelled_len (fst e')))
        as [Hlt | [Heq | Hgt]]; [|exact Heq|].
      - pose proof (matching_keys_length words_solid _ _ _ Hm Hm' Hlt). lia.
      - pose proof (matching_keys_length words_solid _ _ _ Hm' Hm Hgt). lia. }
    pose proof (matching_keys_same_count words _ _ _ Hm Hm' Hcount) as Hkey.
    destruct e as [k c], e' as [k' c']. simpl in Hkey. subst k'.
    f_equal. f_equal. eapply NoDup_keys_value; eauto.
  - exfalso. destruct (@first_match_chosen i _ _ (Permutation_refl d) E1) as [Hin [Hm _]].
    destruct (first_match_sorted words i e
                (sorted_desc_sorted key_length d')) as [e' [Hfm' _]].
    + apply sorted_desc_In. apply (Permutation_in _ same_entries), Hin.
    + exact Hm.
    + assert (He : @None (str * str) = Some e') by (rewrite <- E2; exact Hfm').
      discriminate.
  - exfalso. destruct (@first_match_chosen i _ _ same_entries E2) as [Hin [Hm _]].
    destruct (first_match_sorted words i e'
                (sorted_desc_sorted key_length d)) as [e2 [Hfm' _]].
    + apply sorted_desc_In. exact Hin.
    + exact Hm.
    + assert (He : @None (str * str) = Some e2) by (rewrite <- E1; exact Hfm').
      discriminate.
Qed.

Lemma correct_loop_permutation (fuel i : nat) (acc : list str) :
  correct_loop fuel words (sort_misspellings d) i acc
  = correct_loop fuel words (sort_misspellings d') i acc.
Proof.
  revert i acc; induction fuel as [|f IH]; intros i acc; [reflexivity|].
  rewrite !correct_loop_step, first_match_permutation.
  destruct (i <? length words); [|reflexivity].
  destruct (first_match words i (sort_misspellings d')) as [[k c]|]; apply IH.
Qed.

End DictionaryOrder.

(** X10.  The order of the entries of the dictionary does not matter: two
    dictionaries with the same entries (and distinct keys, as in a dict)
    give the same result, with any fuel. *)
Theorem correct_spelling_dictionary_order_irrelevant :
  forall (U : Unicode) (laws : UnicodeLaws U) (street_name : str)
         (d d' : list (str * str)) (fuel : nat),
  NoDup (map fst d) ->
  Permutation d d' ->
  correct_spelling_fuel fuel street_name d = correct_spelling_fuel fuel street_name d'.
Proof.
  intros U laws street_name d d' fuel Hnd Hperm. unfold correct_spelling_fuel.
  rewrite (correct_loop_permutation (tokenize_solid laws _) Hnd Hperm). reflexivity.
Qed.

Lemma correct_spelling_dictionary_order_irrelevant_witness :
  @correct_spelling_fuel ucd_fragment 5 (u "Dr Ortega y Gasset") ortega_dict
  = @correct_spelling_fuel ucd_fragment 5 (u "Dr Ortega y Gasset") (rev ortega_dict).
Proof.
  apply (@correct_spelling_dictionary_order_irrelevant ucd_fragment ucd_fragment_laws).
  - nodup_strings.
  - apply Permutation_rev.
Defined.

(* ================================================================== *)
(** ** [pair_values_to_key]: the names and the values of the result *)
(* ================================================================== *)

Lemma registrations_In {U : Unicode} (input_dict : list (str * list str))
  (name key : str) :
  In (name, key) (registrations input_dict)
  <-> exists values,
        In (key, values) input_dict
        /\ (name = py_lower key \/ exists v, In v values /\ name = py_lower v).
Proof.
  unfold registrations. rewrite in_flat_map. split.
  - intros [[k values] [Hin H]]. cbn [fst snd] in H. destruct H as [H | H].
    + inversion H; subst. exists values. auto.
    + apply in_map_iff in H as [v [Hv Hin']]. inversion Hv; subst.
      exists values. split; [exact Hin|]. right. exists v. auto.
  - intros [values [Hin [-> | [v [Hv ->]]]]]; exists (key, values);
      (split; [exact Hin|]); cbn [fst snd]; [left; reflexivity|].
    right. apply in_map_iff. exists v. auto.
Qed.

Lemma pair_values_to_key_get {U : Unicode} (input_dict : list (str * list str))
  (sort_keys : bool) (name : str) :
  dict_get (pair_values_to_key input_dict sort_keys) name
  = last_registration (registrations input_dict) name.
Proof.
  assert (H : dict_get (fold_left register_entry input_dict []) name
              = last_registration (registrations input_dict) name).
  { rewrite fold_register_entry, dict_get_registered.
    destruct (last_registration _ name); reflexivity. }
  unfold pair_values_to_key. destruct sort_keys; [|exact H].
  rewrite sort_output_get. exact H.
Qed.

(** X11.  With or without [sort_keys], the names of the result are exactly
    the lower-cased keys and aliases of the input (so the empty input gives
    the empty dict), and the value under a name is the key of an entry that
    has this name as its lower-cased key or among its lower-cased aliases. *)
Theorem pair_values_to_key_names_and_values :
  forall (U : Unicode) (input_dict : list (str * list str)) (sort_keys : bool),
  let output_dict := pair_values_to_key input_dict sort_keys in
  (forall name,
     In name (map fst output_dict)
     <-> exists key values,
           In (key, values) input_dict
           /\ (name = py_lower key \/ exists v, In v values /\ name = py_lower v))
  /\ (forall name key,
        dict_get output_dict name = Some key ->
        exists values,
          In (key, values) input_dict
          /\ (name = py_lower key \/ exists v, In v values /\ name = py_lower v)).
Proof.
  intros U input_dict sort_keys output_dict. split.
  - intros name. split.
    + intros Hin. destruct (dict_get_In output_dict name Hin) as [key Hget].
      unfold output_dict in Hget. rewrite pair_values_to_key_get in Hget.
      apply last_registration_In, registrations_In in Hget. eauto.
    + intros [key [values H]].
      assert (Hreg : In (name, key) (registrations input_dict))
        by (apply registrations_In; eauto).
      destruct (last_registration_some _ _ _ Hreg) as [w Hw].
      rewrite <- (pair_values_to_key_get input_dict sort_keys) in Hw.
      destruct (mem_str name (map fst output_dict)) eqn:E; [apply mem_str_In, E|].
      assert (Hnot : ~ In name (map fst output_dict))
        by (rewrite <- mem_str_In; congruence).
      apply dict_get_not_In in Hnot. unfold output_dict in Hnot. congruence.
  - intros name key Hget. unfold output_dict in Hget.
    rewrite pair_values_to_key_get in Hget.
    apply last_registration_In, registrations_In in Hget. exact Hget.
Qed.

(* ================================================================== *)
(** ** [extract_and_store_patterns]: exceptions and the frame returned *)
(* ================================================================== *)

Lemma apply_rows_number {U : Unicode} (cp : list (str * str))
  (ignore : option (list str)) (col : list value) (n : N) :
  In (VNum n) col ->
  exists k, apply_rows (find_earliest_pattern cp ignore) col = (Raise AttributeError, k).
Proof.
  induction col as [|v col IH]; intros Hin; [destruct Hin|].
  cbn [apply_rows].
  destruct (find_earliest_pattern cp ignore v) as [[e | w] k] eqn:Ev.
  - exists k. f_equal. f_equal.
    unfold find_earliest_pattern in Ev. destruct v; cbn [isna] in Ev;
      try (inversion Ev; reflexivity).
    destruct (fold_left _ cp (None, None, 0)) as [[em [name|]] m]; discriminate.
  - destruct Hin as [-> | Hin]; [discriminate|].
    destruct (IH Hin) as [m Hm]. rewrite Hm. eauto.
Qed.

(** X12.  [extract_and_store_patterns] raises [KeyError] when the base
    column does not exist, and [AttributeError] as soon as the base column
    holds a number: only strings and missing cells are handled. *)
Theorem extract_and_store_patterns_exceptions :
  forall (U : Unicode) (df : frame) (ps : patterns) (target_var base_var : str)
         (composed : bool) (ignore_prepositions : option (list str)),
  (dict_get df base_var = None ->
   extract_and_store_patterns df ps target_var base_var composed ignore_prepositions
   = Raise KeyError)
  /\ (forall col n,
        dict_get df base_var = Some col -> In (VNum n) col ->
        extract_and_store_patterns df ps target_var base_var composed ignore_prepositions
        = Raise AttributeError).
Proof.
  intros U df ps target_var base_var composed ig. split.
  - intros H. unfold extract_and_store_patterns. rewrite H. reflexivity.
  - intros col n Hcol Hin. unfold extract_and_store_patterns. rewrite Hcol.
    destruct (apply_rows_number (compile_patterns ps composed ig) ig col n Hin) as [k ->].
    reflexivity.
Qed.

Lemma extract_and_store_patterns_exceptions_witness :
  @extract_and_store_patterns ucd_fragment blas_frame (PatternList [u "san blas"])
    (u "ADDRESS2") (u "STREET") false None = Raise KeyError
  /\ @extract_and_store_patterns ucd_fragment
       [(u "ADDRESS", [VStr (u "san blas"); VNum 28; VNaN])]
       (PatternList [u "san blas"]) (u "ADDRESS2") (u "ADDRESS") false None
     = Raise AttributeError.
Proof.
  split.
  - apply (@extract_and_store_patterns_exceptions ucd_fragment).
    vm_compute. reflexivity.
  - apply (proj2 (@extract_and_store_patterns_exceptions ucd_fragment
                    [(u "ADDRESS", [VStr (u "san blas"); VNum 28; VNaN])]
                    (PatternList [u "san blas"]) (u "ADDRESS2") (u "ADDRESS") false None)
             [VStr (u "san blas"); VNum 28; VNaN] 28%N).
    + vm_compute. reflexivity.
    + simpl. tauto.
Defined.

Lemma earliest_fold_label {U : Unicode} (text : str) (cp : list (str * str)) :
  forall em en c em' en' c',
    fold_left (earliest_step text) cp (em, en, c) = (em', en', c') ->
    en' = en \/ exists regex name, In (regex, name) cp /\ en' = Some name.
Proof.
  induction cp as [|[r n] cp IH]; intros em en c em' en' c' H.
  - inversion H. auto.
  - cbn [fold_left] in H. unfold earliest_step at 2 in H.
    assert (Hstep : forall st,
              fold_left (earliest_step text) cp st = (em', en', c') ->
              snd (fst st) = en \/ snd (fst st) = Some n ->
              en' = en \/ exists regex name, In (regex, name) ((r, n) :: cp)
                                             /\ en' = Some name).
    { intros [[em0 en0] c0] H0 Hst. cbn [fst snd] in Hst.
      destruct (IH _ _ _ _ _ _ H0) as [-> | [regex [name [Hin ->]]]].
      - destruct Hst as [-> | ->]; [auto|]. right. exists r, n. split; [left|]; reflexivity.
      - right. exists regex, name. split; [right; exact Hin | reflexivity]. }
    destruct (regex_search r text) as [m|].
    + destruct em as [e|].
      * destruct (fst m <? fst e); eapply Hstep; eauto.
      * eapply Hstep; eauto.
    + eapply Hstep; eauto.
Qed.

Lemma find_earliest_pattern_label {U : Unicode} (cp : list (str * str))
  (ignore : option (list str)) (v w : value) (k : nat) :
  find_earliest_pattern cp ignore v = (Return w, k) ->
  w = VNaN \/ exists regex name, In (regex, name) cp /\ w = VStr name.
Proof.
  unfold find_earliest_pattern. destruct (isna v); [intros [= <- _]; auto|].
  destruct v; try discriminate.
  destruct (fold_left _ cp (None, None, 0)) as [[em en] c] eqn:E.
  apply earliest_fold_label in E.
  destruct en as [name|]; intros [= <- _]; [|auto].
  destruct E as [E | [regex [name' [Hin E]]]]; [discriminate|].
  inversion E; subst. right. eauto.
Qed.

Lemma apply_rows_cells (f : value -> result value * nat) (col r : list value) (n : nat) :
  apply_rows f col = (Return r, n) ->
  Forall2 (fun v w => exists k, f v = (Return w, k)) col r.
Proof.
  revert r n; induction col as [|v col IH]; intros r n H; cbn [apply_rows] in H.
  - inversion H. constructor.
  - destruct (f v) as [[e | w] k] eqn:Ev; [discriminate|].
    destruct (apply_rows f col) as [[e | r'] m] eqn:Er; [discriminate|].
    inversion H; subst. constructor; [eauto | eapply IH; reflexivity].
Qed.

(** X13.  When [extract_and_store_patterns] returns, the base column
    exists; the frame returned has the target column, as long as the base
    column, and every other column as in [df]; each cell of the target
    column is missing or the upper case of a label of the compiled
    patterns. *)
Theorem extract_and_store_patterns_frame :
  forall (U : Unicode) (df out : frame) (ps : patterns) (target_var base_var : str)
         (composed : bool) (ignore_prepositions : option (list str)),
  extract_and_store_patterns df ps target_var base_var composed ignore_prepositions
  = Return out ->
  exists col found,
    dict_get df base_var = Some col
    /\ dict_get out target_var = Some found
    /\ length found = length col
    /\ (forall c, c <> target_var -> dict_get out c = dict_get df c)
    /\ (forall w, In w found ->
          w = VNaN
          \/ exists regex name,
               In (regex, name) (compile_patterns ps composed ignore_prepositions)
               /\ w = VStr (py_upper name)).
Proof.
  intros U df out ps target_var base_var composed ig H.
  unfold extract_and_store_patterns in H.
  destruct (dict_get df base_var) as [col|] eqn:Hcol; [|discriminate].
  destruct (apply_rows _ col) as [[e | r] n] eqn:Er; [discriminate|].
  inversion H; subst out. clear H.
  apply apply_rows_cells in Er.
  exists col, (map upper_if_str r). split; [reflexivity|]. split; [|split; [|split]].
  - rewrite dict_get_set, eqb_str_refl. reflexivity.
  - rewrite length_map. symmetry. eapply Forall2_length, Er.
  - intros c Hc. rewrite dict_get_set.
    destruct (eqb_str target_var c) eqn:E; [|reflexivity].
    apply eqb_str_spec in E. congruence.
  - intros w [x [<- Hx]]%in_map_iff.
    assert (Hex : exists v k, find_earliest_pattern
                                (compile_patterns ps composed ig) ig v = (Return x, k)).
    { clear -Er Hx. induction Er as [|v y col r [k Hk] Hr IH]; [destruct Hx|].
      destruct Hx as [<- | Hx]; eauto. }
    destruct Hex as [v [k Hk]].
    destruct (find_earliest_pattern_label _ _ _ Hk) as [-> | [regex [name [Hin ->]]]];
      [left; reflexivity|]. right. exists regex, name. auto.
Qed.

Lemma extract_and_store_patterns_frame_witness :
  exists out found,
    @extract_and_store_patterns ucd_fragment blas_frame
      (PatternList [u "san blas - canillejas"; u "valle guerra"])
      (u "ADDRESS2") (u "ADDRESS") true None = Return out
    /\ dict_get out (u "ADDRESS2") = Some found
    /\ length found = 4
    /\ dict_get out (u "ADDRESS") = dict_get blas_frame (u "ADDRESS").
Proof.
  destruct (@extract_and_store_patterns ucd_fragment blas_frame
              (PatternList [u "san blas - canillejas"; u "valle guerra"])
              (u "ADDRESS2") (u "ADDRESS") true None) as [e | out] eqn:E;
    [vm_compute in E; discriminate|].
  destruct (@extract_and_store_patterns_frame ucd_fragment _ _ _ _ _ _ _ E)
    as [col [found [Hcol [Hfound [Hlen [Hother _]]]]]].
  exists out, found. split; [reflexivity|]. split; [exact Hfound|]. split.
  - rewrite Hlen. vm_compute in Hcol. inversion Hcol. reflexivity.
  - apply Hother. vm_compute. discriminate.
Defined.

(* ================================================================== *)
(** ** The [composed] flag *)
(* ================================================================== *)

Lemma startswith_occurs (p s : str) : startswith p s = true -> exists b, s = p ++ b.
Proof.
  revert s; induction p as [|a p IH]; intros s H; [exists s; reflexivity|].
  destruct s as [|b s]; [discriminate|]. cbn [startswith] in H.
  apply andb_true_iff in H as [Hab H]. apply N.eqb_eq in Hab. subst b.
  destruct (IH _ H) as [r ->]. exists r. reflexivity.
Qed.

Lemma before_separator_all (s : str) :
  ~ occurs (u " - ") s -> before_separator s = s.
Proof.
  induction s as [|c t IH]; intros Hno; [reflexivity|]. cbn [before_separator].
  destruct (startswith (u " - ") (c :: t)) eqn:E.
  - exfalso. apply Hno. destruct (startswith_occurs _ _ E) as [b Hb].
    exists [], b. exact Hb.
  - f_equal. apply IH. intros [a [b Hab]]. apply Hno.
    exists (c :: a), b. rewrite Hab. reflexivity.
Qed.

(** X14.  For patterns without the separator [" - "] the flag [composed]
    changes nothing: the same matchers are compiled with the same labels. *)
Theorem composed_without_separator :
  forall (U : Unicode) (ps : patterns) (ignore_prepositions : option (list str)),
  (forall pattern full_name,
     In (pattern, full_name) (pattern_to_full_name ps) ->
     ~ occurs (u " - ") pattern) ->
  compile_patterns ps true ignore_prepositions
  = compile_patterns ps false ignore_prepositions.
Proof.
  intros U ps ig H. unfold compile_patterns.
  generalize (@nil (str * str)).
  induction (pattern_to_full_name ps) as [|[pattern full_name] l IH]; intros acc;
    [reflexivity|].
  cbn [fold_left].
  rewrite (before_separator_all (H pattern full_name (or_introl eq_refl))).
  apply IH. intros p f Hin. apply (H p f). right. exact Hin.
Qed.

Lemma occurs_has_sep (s : str) :
  occurs (u " - ") s -> existsb (fun k => startswith (u " - ") (skipn k s)) (seq 0 (length s)) = true.
Proof.
  intros [a [b ->]]. apply existsb_exists. exists (length a). split.
  - apply in_seq. rewrite !length_app. simpl. lia.
  - rewrite skipn_app, skipn_all, Nat.sub_diag. cbn [app skipn].
    apply startswith_app.
Qed.

Lemma composed_without_separator_witness :
  @compile_patterns ucd_fragment (PatternList [u "Wad-Ras"; u "isla sumatra"]) true None
  = @compile_patterns ucd_fragment (PatternList [u "Wad-Ras"; u "isla sumatra"]) false None.
Proof.
  apply (@composed_without_separator ucd_fragment).
  intros pattern full_name Hin. vm_compute in Hin.
  repeat (destruct Hin as [Hin | Hin]; [inversion Hin; subst; clear Hin|]);
    try contradiction;
    intros Hocc; apply occurs_has_sep in Hocc; vm_compute in Hocc; discriminate.
Defined.

(* ================================================================== *)
(** ** [get_unique_names] on a frame of the tests *)
(* ================================================================== *)

Lemma get_unique_names_sorted_distinct_witness :
  exists l,
    @get_unique_names ucd_fragment names_frame (u "col1") (Some (u "col2")) = (8, Return l)
    /\ l = [u "los molinos"; u "alice"; u "david"; u "bob"; u "7"]
    /\ StronglySorted name_lt l.
Proof.
  destruct (@get_unique_names_sorted_distinct ucd_fragment names_frame (u "col1")
              (Some (u "col2"))
              [VStr (u "Alice"); VStr (u "Bob"); VStr (u "alice"); VNaN]
              [VStr (u "David"); VNum 7; VStr (u "Bob"); VStr (u "Los Molinos")])
    as [l [Hl [Hnd [Hs Hin]]]].
  - vm_compute. reflexivity.
  - split; [discriminate | vm_compute; reflexivity].
  - exists l. split; [exact Hl|]. split; [|exact Hs].
    vm_compute in Hl. inversion Hl. reflexivity.
Defined.

(* ================================================================== *)
(** ** [fill_na_df]: what is kept, what is filled *)
(* ================================================================== *)

Lemma same_cell_refl (a : value) : same_cell a a.
Proof. destruct a; reflexivity. Qed.

Lemma same_cell_trans (a b c : value) :
  same_cell a b -> same_cell b c -> same_cell a c.
Proof.
  destruct a; simpl; intros Hab Hbc.
  - subst b. exact Hbc.
  - destruct b; simpl in *; try discriminate; [subst c; reflexivity | exact Hbc].
  - destruct b; simpl in *; try discriminate; exact Hbc.
  - destruct b; simpl in *; try discriminate; exact Hbc.
Qed.

Lemma same_cell_isna (a b : value) : same_cell a b -> isna b = isna a.
Proof. destruct a; simpl; intros H; [subst b; reflexivity | exact H ..]. Qed.

Section FillFacts.
Context {D : Dtypes}.

Lemma same_cell_row (df : frame) (v : value) : same_cell v (row_cell df v).
Proof.
  pose proof (row_cell_isna df v) as H.
  destruct v; simpl in *; [apply row_cell_str | exact H ..].
Qed.

Lemma same_cell_series (l : list value) (i : nat) (v : value) :
  nth_error l i = Some v ->
  exists x, nth_error (result_series l) i = Some x /\ same_cell v x.
Proof.
  intros H. destruct (result_series_isna l i H) as [w [Hw Hna]].
  destruct v; simpl in *.
  - exists (VStr s). split; [apply result_series_str, H | reflexivity].
  - exists w. auto.
  - exists w. auto.
  - exists w. auto.
Qed.

(** The rows of a column that were filled: the cell of the row where the
    cell of the frame is not missing, the cell of the filler column where
    it is. *)
Lemma fill_rows_returned (df : frame) (target filler filled : list value) (i n : nat) :
  fill_rows df target filler i = (Return filled, n) ->
  length filled = length target
  /\ forall j v, nth_error target j = Some v ->
       exists x,
         nth_error filled j = Some x
         /\ (isna v = false -> x = row_cell df v)
         /\ (isna v = true -> nth_error filler (i + j) = Some x).
Proof.
  revert filled i n; induction target as [|v t IH]; intros filled i n H;
    cbn [fill_rows] in H.
  - inversion H. split; [reflexivity|]. intros [|j] ? Hj; discriminate.
  - rewrite row_cell_isna in H.
    destruct (if negb (isna v) then Some (row_cell df v) else nth_error filler i)
      as [w|] eqn:Ew; [|discriminate].
    destruct (fill_rows df t filler (S i)) as [[e | r] m] eqn:Er; [discriminate|].
    inversion H; subst. destruct (IH _ _ _ Er) as [Hlen Hcells].
    split; [simpl; congruence|].
    intros [|j] x Hj; cbn [nth_error] in *.
    + inversion Hj; subst. exists w. split; [reflexivity|].
      split; intros Hx; rewrite Hx in Ew; cbn [negb] in Ew.
      * congruence.
      * rewrite Nat.add_0_r. exact Ew.
    + destruct (Hcells j x Hj) as [y [Hy [Hy1 Hy2]]].
      exists y. split; [exact Hy|]. split; [exact Hy1|].
      intros Hx. rewrite <- Nat.add_succ_comm. apply Hy2, Hx.
Qed.

Lemma fill_loop_preserved (df df2 : frame) (targets : list str)
  (pairs : list (str * str)) :
  forall st,
  (forall p, In p pairs -> In (fst p) targets) ->
  preserved df targets (st_df st) ->
  preserved df targets (st_df (fst (fill_loop df2 pairs st))).
Proof.
  induction pairs as [|[t f] rest IH]; intros st Hin Hinv; [exact Hinv|].
  cbn [fill_loop].
  destruct (dict_get (st_df st) t) as [tcol|] eqn:Ht; [|exact Hinv].
  destruct (dict_get df2 f) as [fcol|]; [|exact Hinv].
  destruct tcol as [|v0 tcol0].
  { destruct (length (st_df st) =? 1); [|exact Hinv].
    apply IH; [intros; apply Hin; right; assumption | exact Hinv]. }
  set (tcol := v0 :: tcol0) in *.
  destruct (fill_rows (st_df st) tcol fcol 0) as [[e | filled] n] eqn:Er; [exact Hinv|].
  apply IH; [intros; apply Hin; right; assumption|]. cbn [st_df].
  destruct (fill_rows_returned _ _ _ _ Er) as [Hlen Hcells].
  destruct Hinv as [Hkeys Hcols]. split.
  - rewrite (dict_set_same_keys _ _ _ Ht). exact Hkeys.
  - intros c col Hc. destruct (Hcols c col Hc) as [col' [Hget [Hl [Hkeep Hsame]]]].
    rewrite dict_get_set. destruct (eqb_str t c) eqn:E.
    + apply eqb_str_spec in E. subst c.
      assert (col' = tcol) by congruence. subst col'.
      exists (result_series filled). split; [reflexivity|].
      split; [rewrite result_series_length; congruence|]. split.
      * intros i v Hi Hv.
        destruct (Hkeep i v Hi Hv) as [w [Hw Hvw]].
        destruct (Hcells i w Hw) as [x [Hx [Hx1 _]]].
        destruct (same_cell_series _ _ Hx) as [y [Hy Hxy]].
        exists y. split; [exact Hy|].
        apply same_cell_trans with (b := w); [exact Hvw|].
        apply same_cell_trans with (b := x); [|exact Hxy].
        rewrite Hx1; [apply same_cell_row|].
        rewrite (@same_cell_isna v w Hvw). exact Hv.
      * intros Hnot. exfalso. apply Hnot. apply (Hin (t, f)). left. reflexivity.
    + exists col'. auto.
Qed.

Lemma preserved_refl (df : frame) (targets : list str) : preserved df targets df.
Proof.
  split; [reflexivity|]. intros c col Hc. exists col.
  repeat split; auto. intros i v Hi _. exists v. split; [exact Hi | apply same_cell_refl].
Qed.

(** The rows of a column whose filler column has a row for each of them. *)
Lemma fill_rows_fills (df : frame) (target filler : list value) (i : nat) :
  i + length target <= length filler ->
  exists filled,
    fill_rows df target filler i = (Return filled, length target)
    /\ length filled = length target
    /\ forall j v w, nth_error target j = Some v -> nth_error filler (i + j) = Some w ->
         exists x, nth_error filled j = Some x /\ same_cell (filled_cell v w) x.
Proof.
  revert i; induction target as [|v t IH]; intros i Hlen.
  - exists []. split; [reflexivity|]. split; [reflexivity|].
    intros [|j] ? ? Hj; discriminate.
  - cbn [length] in Hlen. cbn [fill_rows].
    assert (Hi : i < length filler) by lia.
    destruct (nth_error filler i) as [w0|] eqn:Ew;
      [|apply nth_error_None in Ew; lia].
    destruct (IH (S i)) as [r [Hr [Hrl Hrc]]]; [lia|].
    rewrite Hr, row_cell_isna.
    exists ((if isna v then w0 else row_cell df v) :: r).
    split; [destruct (isna v); reflexivity|].
    split; [simpl; congruence|].
    intros [|j] x w Hx Hw; cbn [nth_error] in *.
    + inversion Hx; subst x. rewrite Nat.add_0_r in Hw.
      assert (w = w0) by congruence. subst w.
      eexists. split; [reflexivity|]. unfold filled_cell.
      destruct (isna v); [apply same_cell_refl | apply same_cell_row].
    + apply (Hrc j x w Hx). rewrite Nat.add_succ_comm. exact Hw.
Qed.

Lemma fill_loop_fills (df2 : frame) (pairs : list (str * str)) :
  forall st,
  NoDup (map fst pairs) ->
  (forall t f, In (t, f) pairs ->
     exists tcol fcol,
       dict_get (st_df st) t = Some tcol /\ dict_get df2 f = Some fcol
       /\ tcol <> [] /\ length tcol <= length fcol) ->
  exists st',
    fill_loop df2 pairs st = (st', Return tt)
    /\ (forall t f tcol fcol,
          In (t, f) pairs -> dict_get (st_df st) t = Some tcol ->
          dict_get df2 f = Some fcol ->
          exists filled,
            dict_get (st_df st') t = Some filled
            /\ length filled = length tcol
            /\ forall i v w, nth_error tcol i = Some v -> nth_error fcol i = Some w ->
                 exists x, nth_error filled i = Some x /\ same_cell (filled_cell v w) x)
    /\ (forall c, ~ In c (map fst pairs) ->
          dict_get (st_df st') c = dict_get (st_df st) c).
Proof.
  induction pairs as [|[t f] rest IH]; intros st Hnd Hok.
  - exists st. split; [reflexivity|]. split; [intros ? ? ? ? []|reflexivity].
  - cbn [map fst] in Hnd. inversion Hnd as [|? ? Hnot Hnd']; subst.
    destruct (Hok t f (or_introl eq_refl)) as [tcol [fcol [Ht [Hf [Hne Hlen]]]]].
    cbn [fill_loop]. rewrite Ht, Hf.
    destruct (fill_rows_fills (st_df st) tcol fcol 0) as [raw [Hraw [Hrl Hrc]]];
      [simpl; lia|].
    destruct tcol as [|v0 tcol0]; [congruence|].
    set (tcol := v0 :: tcol0) in *. rewrite Hraw.
    set (st1 := {| st_df := dict_set (st_df st) t (result_series raw);
                   st_rows := st_rows st + length tcol |}).
    assert (Hother : forall c, c <> t -> dict_get (st_df st1) c = dict_get (st_df st) c).
    { intros c Hc. cbn [st1 st_df]. rewrite dict_get_set.
      destruct (eqb_str t c) eqn:E; [|reflexivity].
      apply eqb_str_spec in E. congruence. }
    destruct (IH st1 Hnd') as [st' [Hrun [Hfilled Hkeep]]].
    { intros t2 f2 Hin. destruct (Hok t2 f2 (or_intror Hin)) as [c2 [d2 [H1 H2]]].
      exists c2, d2. split; [|exact H2]. rewrite Hother; [exact H1|].
      intros ->. apply Hnot. change t with (fst (t, f2)). apply in_map, Hin. }
    exists st'. split; [exact Hrun|]. split.
    + intros t2 f2 c2 d2 [Heq | Hin] H1 H2.
      * inversion Heq; subst t2 f2. rewrite Hkeep by exact Hnot.
        assert (c2 = tcol) by congruence. assert (d2 = fcol) by congruence.
        subst c2 d2.
        exists (result_series raw). cbn [st1 st_df].
        rewrite dict_get_set, eqb_str_refl. split; [reflexivity|].
        split; [rewrite result_series_length; exact Hrl|].
        intros i v w Hv Hw.
        destruct (Hrc i v w Hv Hw) as [x [Hx Hvx]].
        destruct (same_cell_series _ _ Hx) as [y [Hy Hxy]].
        exists y. split; [exact Hy|].
        apply same_cell_trans with (b := x); assumption.
      * apply (Hfilled t2 f2); [exact Hin| |exact H2].
        rewrite Hother; [exact H1|].
        intros ->. apply Hnot. change t with (fst (t, f2)). apply in_map, Hin.
    + intros c Hc. cbn [map fst] in Hc.
      rewrite Hkeep by (intros H; apply Hc; right; exact H).
      apply Hother. intros ->. apply Hc. left. reflexivity.
Qed.

Lemma fill_rows_missing_row (df : frame) (target filler : list value) (j i : nat)
  (v : value) :
  nth_error target i = Some v -> isna v = true -> length filler <= j + i ->
  exists n, fill_rows df target filler j = (Raise KeyError, n).
Proof.
  revert j i; induction target as [|x t IH]; intros j i Hi Hv Hlen;
    [destruct i; discriminate|].
  cbn [fill_rows]. rewrite row_cell_isna.
  destruct i as [|i]; cbn [nth_error] in Hi.
  - inversion Hi; subst x. rewrite Hv. cbn [negb].
    replace (nth_error filler j) with (@None value)
      by (symmetry; apply nth_error_None; lia).
    eauto.
  - destruct (if negb (isna x) then Some (row_cell df x) else nth_error filler j);
      [|eauto].
    destruct (IH (S j) i Hi Hv) as [n Hn]; [lia|]. rewrite Hn. eauto.
Qed.

End FillFacts.

Lemma map_fst_combine {A B} (l : list A) (l' : list B) :
  length l = length l' -> map fst (combine l l') = l.
Proof.
  revert l'; induction l as [|x l IH]; intros [|y l'] H; simpl in *;
    try discriminate; [reflexivity|]. rewrite IH by lia. reflexivity.
Qed.

(** X15.  Whatever the arguments, whatever the dtypes and however the call
    ends, [fill_na_df] leaves in [df] the same columns in the same order
    and of the same lengths, in every cell that was not missing the same
    string or still a value that is not missing, and every column that is
    not in [target_columns] as it was. *)
Theorem fill_na_df_preserves :
  forall (D : Dtypes) (df df2 : frame) (target_columns : list str)
         (filler_columns : option (list str)),
  preserved df target_columns
    (st_df (fst (fill_na_df df df2 target_columns filler_columns))).
Proof.
  intros D df df2 ts fs. unfold fill_na_df.
  destruct (negb (length ts =? length match fs with None => ts | Some f => f end));
    [apply preserved_refl|].
  apply fill_loop_preserved; [|apply preserved_refl].
  intros [t f] Hin. apply in_combine_l in Hin. exact Hin.
Qed.

(** X16.  With distinct target columns that exist in [df] and have a row,
    and filler columns that exist in [df2] and have a row for every row of
    [df], the call returns, and every target column holds, row by row, its
    own cell where that is not missing and the cell of its filler column
    where it is: the same string, and otherwise a value that is missing
    exactly when that cell is. *)
Theorem fill_na_df_fills_missing_cells :
  forall (D : Dtypes) (df df2 : frame) (target_columns filler_columns : list str),
  NoDup target_columns ->
  length target_columns = length filler_columns ->
  (forall t f, In (t, f) (combine target_columns filler_columns) ->
     exists tcol fcol,
       dict_get df t = Some tcol /\ dict_get df2 f = Some fcol
       /\ tcol <> [] /\ length tcol <= length fcol) ->
  exists st,
    fill_na_df df df2 target_columns (Some filler_columns) = (st, Return tt)
    /\ forall t f tcol fcol,
         In (t, f) (combine target_columns filler_columns) ->
         dict_get df t = Some tcol -> dict_get df2 f = Some fcol ->
         exists filled,
           dict_get (st_df st) t = Some filled
           /\ length filled = length tcol
           /\ forall i v w, nth_error tcol i = Some v -> nth_error fcol i = Some w ->
                exists x, nth_error filled i = Some x
                          /\ same_cell (if isna v then w else v) x.
Proof.
  intros D df df2 ts fs Hnd Hlen Hok. unfold fill_na_df.
  rewrite Hlen, Nat.eqb_refl. cbn [negb].
  destruct (fill_loop_fills df2 (combine ts fs) {| st_df := df; st_rows := 0 |})
    as [st [Hrun [Hfilled _]]].
  - rewrite map_fst_combine by exact Hlen. exact Hnd.
  - exact Hok.
  - exists st. split; [exact Hrun|].
    intros t f tcol fcol Hin Ht Hf. apply (Hfilled t f); assumption.
Qed.

Lemma fill_na_df_fills_missing_cells_witness :
  exists st,
    fill_na_df ab_frame ab_filler [u "a"] (Some [u "a"]) = (st, Return tt)
    /\ dict_get (st_df st) (u "a") = Some [VStr (u "x"); VStr (u "k")].
Proof.
  destruct (@fill_na_df_fills_missing_cells inferred_dtypes ab_frame ab_filler
              [u "a"] [u "a"])
    as [st [Hrun Hcells]].
  - nodup_strings.
  - reflexivity.
  - intros t f [Heq | []]. inversion Heq; subst.
    exists [VNaN; VStr (u "k")], [VStr (u "x"); VStr (u "y")].
    split; [vm_compute; reflexivity|]. split; [vm_compute; reflexivity|].
    split; [discriminate | simpl; lia].
  - exists st. split; [exact Hrun|].
    destruct (Hcells (u "a") (u "a") [VNaN; VStr (u "k")] [VStr (u "x"); VStr (u "y")])
      as [filled [Hget [Hlen Hrows]]];
      [left; reflexivity | vm_compute; reflexivity | vm_compute; reflexivity |].
    rewrite Hget. f_equal.
    destruct (Hrows 0 _ _ eq_refl eq_refl) as [x0 [H0 S0]].
    destruct (Hrows 1 _ _ eq_refl eq_refl) as [x1 [H1 S1]].
    simpl in S0, S1. subst x0 x1.
    destruct filled as [|a [|b [|c filled]]]; try discriminate Hlen.
    simpl in H0, H1. inversion H0; inversion H1. reflexivity.
Defined.

(** X17.  In the model with rows labelled [0 .. n-1]: when a missing cell
    of the first target column stands in a row that the filler column does
    not have, the call raises [KeyError] and [df] is as it was. *)
Theorem fill_na_df_missing_filler_row :
  forall (D : Dtypes) (df df2 : frame) (t f : str) (ts fs : list str)
         (tcol fcol : list value) (i : nat) (v : value),
  length ts = length fs ->
  dict_get df t = Some tcol -> dict_get df2 f = Some fcol ->
  nth_error tcol i = Some v -> isna v = true -> length fcol <= i ->
  exists n,
    fill_na_df df df2 (t :: ts) (Some (f :: fs))
    = ({| st_df := df; st_rows := n |}, Raise KeyError).
Proof.
  intros D df df2 t f ts fs tcol fcol i v Hlen Ht Hf Hi Hv Hshort.
  unfold fill_na_df. cbn [length]. rewrite Hlen, Nat.eqb_refl.
  cbn [negb combine fill_loop st_df st_rows]. rewrite Ht, Hf.
  destruct (fill_rows_missing_row df tcol fcol 0 i Hi Hv) as [n Hn]; [simpl; lia|].
  destruct tcol as [|v0 tcol0]; [destruct i; discriminate|].
  rewrite Hn. eauto.
Qed.

Lemma fill_na_df_missing_filler_row_witness :
  exists n,
    fill_na_df [(u "a", [VStr (u "k"); VNone])] [(u "b", [VStr (u "x")])]
      [u "a"] (Some [u "b"])
    = ({| st_df := [(u "a", [VStr (u "k"); VNone])]; st_rows := n |}, Raise KeyError).
Proof.
  apply (@fill_na_df_missing_filler_row inferred_dtypes
           [(u "a", [VStr (u "k"); VNone])]
           [(u "b", [VStr (u "x")])] (u "a") (u "b") [] []
           [VStr (u "k"); VNone] [VStr (u "x")] 1 VNone);
    reflexivity.
Defined.

(* ================================================================== *)
(** ** The extractor: the matchers compiled and the searches run *)
(* ================================================================== *)

Lemma earliest_fold_count {U : Unicode} (text : str) (cp : list (str * str)) :
  forall st, snd (fold_left (earliest_step text) cp st) = snd st + length cp.
Proof.
  induction cp as [|[r n] cp IH]; intros [[em en] c]; [simpl; lia|].
  cbn [fold_left]. rewrite IH. unfold earliest_step.
  destruct (regex_search r text) as [m|]; [destruct em as [e|];
    [destruct (fst m <? fst e)|]|]; simpl; lia.
Qed.

(** X18.  The loop over the matchers has no early exit: on a column of
    strings and missing cells, every matcher is searched once for every
    string cell and not at all for a missing cell. *)
Theorem extractor_search_count :
  forall (U : Unicode) (compiled_patterns : list (str * str))
         (ignore_prepositions : option (list str)) (col : list value),
  (forall v, In v col -> isna v = true \/ is_str v = true) ->
  snd (apply_rows (find_earliest_pattern compiled_patterns ignore_prepositions) col)
  = length (filter is_str col) * length compiled_patterns.
Proof.
  intros U cp ig col. induction col as [|v col IH]; intros H; [reflexivity|].
  cbn [apply_rows].
  assert (Hv : exists w,
             find_earliest_pattern cp ig v
             = (Return w, if is_str v then length cp else 0)).
  { unfold find_earliest_pattern.
    destruct (H v (or_introl eq_refl)) as [Hna | Hstr].
    - rewrite Hna. destruct v; try discriminate; eauto.
    - destruct v; try discriminate. cbn [isna is_str].
      pose proof (earliest_fold_count (preprocess_text s ig) cp (None, None, 0)) as Hc.
      destruct (fold_left _ cp (None, None, 0)) as [[em [name|]] n];
        cbn [snd] in Hc; rewrite Hc; eauto. }
  destruct Hv as [w ->].
  specialize (IH (fun x Hx => H x (or_intror Hx))).
  destruct (apply_rows (find_earliest_pattern cp ig) col) as [[e | r] m];
    cbn [snd] in *; rewrite IH; cbn [filter]; destruct (is_str v); simpl; lia.
Qed.

Lemma extractor_search_count_witness :
  snd (apply_rows (@find_earliest_pattern ucd_fragment san_patterns None)
         [VStr (u "calle San Blas, 36"); VNaN; VStr (u "Valleguerra"); VNone])
  = 6.
Proof.
  rewrite (@extractor_search_count ucd_fragment san_patterns None).
  - vm_compute. reflexivity.
  - intros v Hv. simpl in Hv.
    repeat (destruct Hv as [<- | Hv]; [vm_compute; tauto|]). contradiction.
Defined.

Lemma compile_patterns_registered {U : Unicode} (ps : patterns) (composed : bool)
  (ignore : option (list str)) :
  compile_patterns ps composed ignore
  = fold_left (@register str) (processed_patterns ps composed ignore) [].
Proof.
  unfold compile_patterns, processed_patterns. generalize (@nil (str * str)).
  induction (pattern_to_full_name ps) as [|[p f] l IH]; intros acc; [reflexivity|].
  cbn [fold_left map]. rewrite IH. reflexivity.
Qed.

(** X19.  The compiled matchers are distinct, and the label of a matcher
    is that of the last pattern with its processed match key: patterns that
    are preprocessed (or cut at [" - "]) to the same text share one matcher,
    under the label of the later one. *)
Theorem compile_patterns_last_label :
  forall (U : Unicode) (ps : patterns) (composed : bool)
         (ignore_prepositions : option (list str)),
  NoDup (map fst (compile_patterns ps composed ignore_prepositions))
  /\ forall regex,
       dict_get (compile_patterns ps composed ignore_prepositions) regex
       = last_registration (processed_patterns ps composed ignore_prepositions) regex.
Proof.
  intros U ps composed ig. rewrite compile_patterns_registered. split.
  - apply registered_NoDup. constructor.
  - intros regex. rewrite dict_get_registered.
    destruct (last_registration _ regex); reflexivity.
Qed.
